(** * waifu-mirror: the ingestion pipeline, embedded and verified

    A shallow embedding of [internal/ingest/ingest.go], of
    [internal/optimize] ([ForTerminal], [decodeImage]) and of
    [internal/catalog] ([DB.Insert], [DB.HasHash]).

    Go code that talks to the outside (HTTP, the token buckets, the
    context, the random source, the file system, SQLite) is written in a
    small state-and-error monad over a [World]; everything the outside
    decides is read from an oracle record [Env], indexed by a tick that
    every consultation advances.  What the program does to the outside is
    appended to a trace of [Event]s. *)

From Stdlib Require Import ZArith Lia Strings.Byte Ascii String List.
From Stdlib Require Import Floats.SpecFloat.
From stdpp Require Import gmap strings list fin_maps.
Import ListNotations.

Local Open Scope string_scope.
Local Open Scope Z_scope.
Local Open Scope list_scope.

(** ** Data *)

Abbreviation bytes := (list byte).

(** The three token buckets of [Ingester]. *)
Inductive Limiter := WaifuImLimiter | WaifuPicsLimiter | DownloadLimiter.

(** Go [error] values.  A wrapped error ([%w]) keeps its cause. *)
Inductive error :=
| ErrCanceled                                  (* ctx.Err() *)
| ErrLimiter (l : Limiter)                     (* limiter.Wait failed *)
| ErrNewRequest                                (* http.NewRequestWithContext *)
| ErrTransport (msg : string)                  (* hc.Do failed *)
| ErrBodyRead (msg : string)                   (* resp.Body read failed *)
| ErrReturned (source : string) (code : Z)     (* "%s returned %d" *)
| ErrDownload (code : Z)                       (* "download %d" *)
| ErrAfterRetries (n : Z) (cause : option error) (* "after %d retries: %w" *)
| ErrJSON                                      (* json.Unmarshal *)
| ErrOS (msg : string)                         (* os.WriteFile *)
| ErrWriteImage (cause : error)                (* "write image: %w" *)
| ErrSQL (msg : string)                        (* database/sql *)
| ErrCatalogInsert (cause : error)             (* "catalog: insert: %w" *)
| ErrUnsupportedFormat                         (* "unsupported image format" *)
| ErrOptimizeDecode (cause : error)            (* "optimize: decode: %w" *)
| ErrEncoder (msg : string)                    (* webp.Encode *)
| ErrOptimizeEncode (cause : error).           (* "optimize: encode webp: %w" *)

Record Request := {
  req_method : string;
  req_url : string;
  req_body : option bytes;
  req_headers : list (string * string)
}.

(** A response body is a stream: it yields [body_bytes] and then ends
    with EOF ([None]) or with a read error. *)
Record Body := { body_bytes : bytes; body_err : option error }.

Inductive HttpResult :=
| Transport (e : error)
| Response (status : Z) (b : Body).

(** catalog.Image *)
Record Image := {
  ID : Z;
  Hash : string;
  Source : string;
  SourceURL : string;
  Category : string;
  Width : Z;
  Height : Z;
  Format : string;
  SizeBytes : Z;
  Filename : string;
  CreatedAt : Z
}.

(** image.Image, as far as the pipeline looks at it: its bounds and an
    opaque pixel buffer. *)
Record GoImage := { Dx : Z; Dy : Z; Pix : bytes }.

(** One element of [waifuImResponse.Items]. *)
Record Item := { URL : string; ItemWidth : Z; ItemHeight : Z }.

Inductive LogMsg :=
| LogAdapter (what : string) (e : error)       (* "ingest: waifu.im sfw: %v" *)
| LogRetry (source : string) (attempt : Z) (backoff : Z)
| LogProcess (url : string) (e : error).       (* "ingest: process %s: %v" *)

Inductive Event :=
| EvToken (l : Limiter)                        (* a token was taken *)
| EvSleep (d : Z)                              (* time.After(d) fired *)
| EvSend (r : Request)                         (* hc.Do sent r *)
| EvLog (m : LogMsg)
| EvWriteFile (path : string) (data : bytes)
| EvRemove (path : string).

(** ** The outside world *)

Record Env := {
  ctx_done : nat -> bool;
  limiter_err : nat -> Limiter -> option error;
  url_parses : string -> bool;
  http_do : nat -> Request -> HttpResult;
  rand_raw : nat -> Z;
  write_err : nat -> string -> option error;
  db_err : nat -> option error;
  clock : nat -> Z;
  filepath_Join : string -> string -> string;
  sha256_Sum256 : bytes -> bytes;
  json_Items : bytes -> option (list Item);
  json_Files : bytes -> option (list string);
  image_Decode : bytes -> option (GoImage * string);
  webp_Decode : bytes -> option GoImage;
  png_Decode : bytes -> option GoImage;
  jpeg_Decode : bytes -> option GoImage;
  gif_Decode : bytes -> option GoImage;
  CatmullRom_Scale : GoImage -> Z -> Z -> GoImage;
  webp_Encode : GoImage -> error + bytes
}.

(** [trace] is newest first; [history] reads it in time order. *)
Record World := {
  tick : nat;
  trace : list Event;
  files : gmap string bytes;
  rows : list Image;
  db_seq : Z;
  last_rowid : Z
}.

Definition history (w : World) : list Event := rev (trace w).

Definition advance (w : World) : World :=
  {| tick := S (tick w); trace := trace w; files := files w;
     rows := rows w; db_seq := db_seq w; last_rowid := last_rowid w |}.

Definition emit (e : Event) (w : World) : World :=
  {| tick := tick w; trace := e :: trace w; files := files w;
     rows := rows w; db_seq := db_seq w; last_rowid := last_rowid w |}.

Definition set_files (f : gmap string bytes) (w : World) : World :=
  {| tick := tick w; trace := trace w; files := f;
     rows := rows w; db_seq := db_seq w; last_rowid := last_rowid w |}.

Definition empty_world : World :=
  {| tick := 0%nat; trace := []; files := ∅; rows := []; db_seq := 0;
     last_rowid := 0 |}.

(** ** The monad: a Go call returns a value or an error, or panics *)

Inductive Result (A : Type) :=
| Ok (a : A)
| Err (e : error)
| Panic.
Arguments Ok {A} a.
Arguments Err {A} e.
Arguments Panic {A}.

Definition M (A : Type) : Type := World -> Result A * World.

Definition ret {A} (a : A) : M A := fun w => (Ok a, w).
Definition fail {A} (e : error) : M A := fun w => (Err e, w).
Definition panic {A} : M A := fun w => (Panic, w).

Definition bind {A B} (m : M A) (k : A -> M B) : M B :=
  fun w =>
    match m w with
    | (Ok a, w') => k a w'
    | (Err e, w') => (Err e, w')
    | (Panic, w') => (Panic, w')
    end.

Notation "'call' x <- m ;; k" := (bind m (fun x => k))
  (at level 10, x name, m at level 99, k at level 200).
Notation "'exec' m ;; k" := (bind m (fun _ => k))
  (at level 10, m at level 99, k at level 200).

Definition is_Ok {A} (r : Result A) : bool :=
  match r with Ok _ => true | _ => false end.
Definition is_Err {A} (r : Result A) : bool :=
  match r with Err _ => true | _ => false end.

(** ** Machine integers *)

Definition wrap64 (x : Z) : Z := (x + 2^63) mod 2^64 - 2^63.

(** [x << uint(n)] on an int64. *)
Definition shl64 (x n : Z) : Z :=
  let count := n mod 2^64 in
  if 64 <=? count then 0 else wrap64 (Z.shiftl x count).

Definition Second : Z := 1000000000.
Definition maxRetries : Z := 3.

Definition StatusOK : Z := 200.
Definition StatusTooManyRequests : Z := 429.
Definition MethodGet : string := "GET".
Definition MethodPost : string := "POST".

Definition waifuImSearchURL : string := "https://api.waifu.im/images".
Definition waifuPicsManyURL : string := "https://api.waifu.pics/many/sfw/waifu".
Definition waifuPicsNSFWURL : string := "https://api.waifu.pics/many/nsfw/waifu".

(** io.ReadAll(io.LimitReader(body, n)): LimitReader reports EOF once n
    bytes went through, whatever the body still holds. *)
Definition ReadAll_LimitReader (b : Body) (n : Z) : bytes * option error :=
  if n <=? Z.of_nat (length (body_bytes b))
  then (firstn (Z.to_nat n) (body_bytes b), None)
  else (body_bytes b, body_err b).

Definition apiBodyCap : Z := Z.shiftl 1 20.
Definition imageBodyCap : Z := Z.shiftl 10 20.

(** ** float64, as ForTerminal uses it

    IEEE-754 binary64 through the Standard Library's executable
    specification ([prec = 53], [emax = 1024], round to nearest even). *)

Definition float64 : Type := spec_float.

(** float64(n) for an int n *)
Definition float64_of_int (n : Z) : float64 := binary_normalize 53 1024 n 0 false.

Definition f64div (x y : float64) : float64 := SFdiv 53 1024 x y.
Definition f64mul (x y : float64) : float64 := SFmul 53 1024 x y.

Definition minInt64 : Z := - 2^63.
Definition maxInt64 : Z := 2^63 - 1.

(** int(f) for a float64 f: the fraction is dropped (toward zero).  What Go
    leaves to the platform (NaN, infinities, values outside int64) is
    given amd64's answer, the smallest int64. *)
Definition int_of_float64 (f : float64) : Z :=
  match f with
  | S754_zero _ => 0
  | S754_finite s m e =>
    let a := Z.shiftl (Zpos m) e in
    let v := if s then - a else a in
    if (minInt64 <=? v) && (v <=? maxInt64) then v else minInt64
  | _ => minInt64
  end.

(** ForTerminal's "Calculate target dimensions maintaining aspect ratio". *)
Definition targetDimensions (origW origH maxWidth : Z) : Z * Z :=
  if maxWidth <? origW then
    let ratio := f64div (float64_of_int maxWidth) (float64_of_int origW) in
    (maxWidth, int_of_float64 (f64mul (float64_of_int origH) ratio))
  else (origW, origH).

(** ** encoding/hex *)

Definition hextable : string := "0123456789abcdef".

Definition hex_digit (n : N) : ascii :=
  match String.get (N.to_nat n) hextable with
  | Some c => c
  | None => "0"%char
  end.

Fixpoint hex_EncodeToString (src : bytes) : string :=
  match src with
  | [] => EmptyString
  | b :: rest =>
    String (hex_digit (N.div (Byte.to_N b) 16))
      (String (hex_digit (N.modulo (Byte.to_N b) 16))
         (hex_EncodeToString rest))
  end.

(** The [Ingester] fields that are not part of the world. *)
Record Ingester := { imgDir : string }.

(** What the code does with a callee's error other than returning it. *)
Definition catch {A} (m : M A) (handler : error -> M A) : M A :=
  fun w =>
    match m w with
    | (Err e, w') => handler e w'
    | r => r
    end.

Section Ingest.
Variable env : Env.

(** *** Primitives *)

Definition log_Printf (m : LogMsg) : M unit :=
  fun w => (Ok tt, emit (EvLog m) w).

(** limiter.Wait(ctx) *)
Definition limiter_Wait (l : Limiter) : M unit :=
  fun w =>
    match limiter_err env (tick w) l with
    | Some e => (Err e, advance w)
    | None => (Ok tt, emit (EvToken l) (advance w))
    end.

(** select { case <-ctx.Done(): return ctx.Err(); case <-time.After(d): } *)
Definition sleep_or_cancel (d : Z) : M unit :=
  fun w =>
    if ctx_done env (tick w)
    then (Err ErrCanceled, advance w)
    else (Ok tt, emit (EvSleep d) (advance w)).

(** rand.Int63n(n) *)
Definition rand_Int63n (n : Z) : M Z :=
  fun w =>
    if n <=? 0 then (Panic, w)
    else (Ok (rand_raw env (tick w) mod n), advance w).

(** http.NewRequestWithContext(ctx, method, url, body) *)
Definition NewRequestWithContext (method url : string)
    (body : option bytes) : M Request :=
  if url_parses env url
  then ret {| req_method := method; req_url := url; req_body := body;
              req_headers := [] |}
  else fail ErrNewRequest.

Definition Header_Set (k v : string) (r : Request) : Request :=
  {| req_method := req_method r; req_url := req_url r;
     req_body := req_body r;
     req_headers := req_headers r ++ [(k, v)] |}.

(** ing.hc.Do(req) *)
Definition hc_Do (r : Request) : M HttpResult :=
  fun w => (Ok (http_do env (tick w) r), emit (EvSend r) (advance w)).

(** *** backoffDuration *)

Definition backoffDuration (attempt : Z) : M Z :=
  let base := wrap64 (shl64 1 attempt * Second) in
  call jitter <- rand_Int63n (Z.quot base 2) ;;
  ret (wrap64 (base + jitter)).

(** *** fetchWithRetry

    The [for attempt := 0; attempt < maxRetries; attempt++] loop runs
    [maxRetries - attempt] more times; [fuel] is that number.  Leaving
    the loop is the last [return]. *)

Section FetchWithRetry.
Variables (method url : string) (reqBody : option bytes)
          (source : string) (limiter : Limiter).

Fixpoint fetchLoop (fuel : nat) (attempt : Z) (lastErr : option error)
    : M bytes :=
  match fuel with
  | O => fail (ErrAfterRetries maxRetries lastErr)
  | S fuel' =>
    exec (if 0 <? attempt then
            call backoff <- backoffDuration attempt ;;
            exec log_Printf (LogRetry source attempt backoff) ;;
            exec sleep_or_cancel backoff ;;
            (* Re-acquire rate limit token on retry. *)
            limiter_Wait limiter
          else ret tt) ;;
    call req <- NewRequestWithContext method url reqBody ;;
    let req := match reqBody with
               | Some _ => Header_Set "Content-Type" "application/json" req
               | None => req
               end in
    let req := Header_Set "Accept" "application/json" req in
    call resp <- hc_Do req ;;
    match resp with
    | Transport e => fetchLoop fuel' (attempt + 1) (Some e)
    | Response status b =>
      let '(body, rerr) := ReadAll_LimitReader b apiBodyCap in
      if (status =? StatusTooManyRequests) || (500 <=? status) then
        fetchLoop fuel' (attempt + 1) (Some (ErrReturned source status))
      else if negb (status =? StatusOK) then
        fail (ErrReturned source status)
      else match rerr with
           | Some e => fetchLoop fuel' (attempt + 1) (Some e)
           | None => ret body
           end
    end
  end.

Definition fetchWithRetry : M bytes :=
  fetchLoop (Z.to_nat maxRetries) 0 None.
End FetchWithRetry.

(** *** downloadImage *)

Section DownloadImage.
Variable srcURL : string.

Fixpoint downloadLoop (fuel : nat) (attempt : Z) (lastErr : option error)
    : M bytes :=
  match fuel with
  | O => fail (ErrAfterRetries maxRetries lastErr)
  | S fuel' =>
    exec (if 0 <? attempt then
            call backoff <- backoffDuration attempt ;;
            sleep_or_cancel backoff
          else ret tt) ;;
    call req <- NewRequestWithContext MethodGet srcURL None ;;
    call resp <- hc_Do req ;;
    match resp with
    | Transport e => downloadLoop fuel' (attempt + 1) (Some e)
    | Response status b =>
      if (status =? StatusTooManyRequests) || (500 <=? status) then
        downloadLoop fuel' (attempt + 1) (Some (ErrDownload status))
      else if negb (status =? StatusOK) then
        fail (ErrDownload status)
      else
        let '(data, rerr) := ReadAll_LimitReader b imageBodyCap in
        match rerr with
        | Some e => downloadLoop fuel' (attempt + 1) (Some e)
        | None => ret data
        end
    end
  end.

Definition downloadImage : M bytes :=
  downloadLoop (Z.to_nat maxRetries) 0 None.
End DownloadImage.

(** *** package optimize *)

Definition decodeImage (data : bytes) : Result (GoImage * string) :=
  match image_Decode env data with
  | Some (img, format) => Ok (img, format)
  | None =>
    match webp_Decode env data with
    | Some img => Ok (img, "webp")
    | None =>
      match png_Decode env data with
      | Some img => Ok (img, "png")
      | None =>
        match jpeg_Decode env data with
        | Some img => Ok (img, "jpeg")
        | None =>
          match gif_Decode env data with
          | Some img => Ok (img, "gif")
          | None => Err ErrUnsupportedFormat
          end
        end
      end
    end
  end.

Definition ForTerminal (data : bytes) (maxWidth : Z)
    : Result (bytes * Z * Z) :=
  match decodeImage data with
  | Ok (img, _) =>
    let origW := Dx img in
    let origH := Dy img in
    let '(newW, newH) := targetDimensions origW origH maxWidth in
    let dst := CatmullRom_Scale env img newW newH in
    match webp_Encode env dst with
    | inl e => Err (ErrOptimizeEncode e)
    | inr buf => Ok (buf, newW, newH)
    end
  | Err e => Err (ErrOptimizeDecode e)
  | Panic => Panic
  end.

(** *** package catalog *)

Definition hash_present (hash : string) (rs : list Image) : bool :=
  existsb (fun r => String.eqb (Hash r) hash) rs.

(** SELECT COUNT( * ) FROM images WHERE hash = ? *)
Definition HasHash (hash : string) : M bool :=
  fun w =>
    match db_err env (tick w) with
    | Some e => (Err e, advance w)
    | None =>
      let matching := List.filter (fun r => String.eqb (Hash r) hash) (rows w) in
      let count := Z.of_nat (length matching) in
      (Ok (0 <? count), advance w)
    end.

Definition stored (img : Image) (id created : Z) : Image :=
  {| ID := id; Hash := Hash img; Source := Source img;
     SourceURL := SourceURL img; Category := Category img;
     Width := Width img; Height := Height img; Format := Format img;
     SizeBytes := SizeBytes img; Filename := Filename img;
     CreatedAt := created |}.

(** INSERT OR IGNORE INTO images ...: [hash] is UNIQUE, [id] is
    AUTOINCREMENT, [created_at] defaults to CURRENT_TIMESTAMP. *)
Definition Insert (img : Image) : M Z :=
  fun w =>
    match db_err env (tick w) with
    | Some e => (Err (ErrCatalogInsert e), advance w)
    | None =>
      if hash_present (Hash img) (rows w)
      then (Ok (last_rowid w), advance w)
      else
        let id := db_seq w + 1 in
        (Ok id,
         {| tick := S (tick w); trace := trace w; files := files w;
            rows := rows w ++ [stored img id (clock env (tick w))];
            db_seq := id; last_rowid := id |})
    end.

(** *** os

    The image directory is a map from paths to contents.  A write that
    fails is taken to leave the directory as it was; a write that succeeds
    creates or replaces the file. *)

Definition os_WriteFile (path : string) (data : bytes) : M unit :=
  fun w =>
    match write_err env (tick w) path with
    | Some e => (Err e, advance w)
    | None =>
      (Ok tt, emit (EvWriteFile path data)
                (set_files (<[path:=data]> (files w)) (advance w)))
    end.

(** os.Remove deletes the file; the code drops what it returns. *)
Definition os_Remove (path : string) : M unit :=
  fun w => (Ok tt, emit (EvRemove path) (set_files (delete path (files w)) w)).

(** *** contentHash *)

Definition contentHash (data : bytes) : string :=
  let h := sha256_Sum256 env data in
  hex_EncodeToString (firstn 16 h).

(** *** processImage *)

Variable ing : Ingester.

Definition processImage (srcURL source category : string) (origW origH : Z)
    : M Z :=
  (* Rate limit downloads. *)
  exec limiter_Wait DownloadLimiter ;;
  (* Download with retry. *)
  call data <- downloadImage srcURL ;;
  (* Content hash for dedup. *)
  let hash := contentHash data in
  call exists_ <- HasHash hash ;;
  if exists_ : bool then ret 0 (* Already have this image. *)
  else
    (* Optimize for terminal rendering. *)
    match
      match ForTerminal data 480 with
      | Ok (optimized, w, h) => Some (optimized, w, h)
      | Err _ => Some (data, origW, origH) (* use original data *)
      | Panic => None
      end
    with
    | None => panic
    | Some (optimized, w, h) =>
      (* Write to disk. *)
      let filename := hash +:+ ".webp" in
      let path := filepath_Join env (imgDir ing) filename in
      exec catch (os_WriteFile path optimized)
                 (fun e => fail (ErrWriteImage e)) ;;
      (* Insert into catalog. *)
      let img := {| ID := 0; Hash := hash; Source := source;
                    SourceURL := srcURL; Category := category;
                    Width := w; Height := h; Format := "webp";
                    SizeBytes := Z.of_nat (length optimized);
                    Filename := filename; CreatedAt := 0 |} in
      exec catch (Insert img)
                 (fun e => exec os_Remove path ;; fail e) ;;
      ret 1
    end.

(** *** The source adapters *)

(** for _, img := range result.Items *)
Fixpoint processItems (category : string) (items : list Item) (count : Z)
    : M Z :=
  match items with
  | [] => ret count
  | img :: rest =>
    call n <- catch (processImage (URL img) "waifu.im" category
                       (ItemWidth img) (ItemHeight img))
                    (fun e => exec log_Printf (LogProcess (URL img) e) ;;
                              ret 0) ;;
    processItems category rest (count + n)
  end.

Definition ingestWaifuIm (category : string) : M Z :=
  let isNSFW := if String.eqb category "nsfw" then "true" else "false" in
  (* Rate limit API calls. *)
  exec limiter_Wait WaifuImLimiter ;;
  let url := waifuImSearchURL +:+ "?included_tags=waifu&is_nsfw=" +:+ isNSFW
             +:+ "&page_size=30" in
  call body <- fetchWithRetry MethodGet url None "waifu.im" WaifuImLimiter ;;
  match json_Items env body with
  | None => fail ErrJSON
  | Some items => processItems category items 0
  end.

(** for _, url := range result.Files *)
Fixpoint processFiles (category : string) (urls : list string) (count : Z)
    : M Z :=
  match urls with
  | [] => ret count
  | url :: rest =>
    call n <- catch (processImage url "waifu.pics" category 0 0)
                    (fun e => exec log_Printf (LogProcess url e) ;; ret 0) ;;
    processFiles category rest (count + n)
  end.

(** []byte(`{"exclude":[]}`) *)
Definition picsReqBody : bytes :=
  let q := String "034"%char EmptyString in
  list_byte_of_string ("{" +:+ q +:+ "exclude" +:+ q +:+ ":[]}").

Definition ingestWaifuPics (apiURL category : string) : M Z :=
  (* Rate limit API calls. *)
  exec limiter_Wait WaifuPicsLimiter ;;
  call body <- fetchWithRetry MethodPost apiURL (Some picsReqBody)
                 "waifu.pics" WaifuPicsLimiter ;;
  match json_Files env body with
  | None => fail ErrJSON
  | Some urls => processFiles category urls 0
  end.

(** *** Run

    [n, err := adapter(...); if err != nil { log }; total += n]: every
    adapter returns 0 next to an error. *)
Definition logged (what : string) (adapter : M Z) : M Z :=
  catch adapter (fun e => exec log_Printf (LogAdapter what e) ;; ret 0).

Definition Run : M Z :=
  let total := 0 in
  call n <- logged "waifu.im sfw" (ingestWaifuIm "sfw") ;;
  let total := total + n in
  call n <- logged "waifu.im nsfw" (ingestWaifuIm "nsfw") ;;
  let total := total + n in
  call n <- logged "waifu.pics sfw" (ingestWaifuPics waifuPicsManyURL "sfw") ;;
  let total := total + n in
  call n <- logged "waifu.pics nsfw" (ingestWaifuPics waifuPicsNSFWURL "nsfw") ;;
  let total := total + n in
  ret total.

End Ingest.

(** * Reading the model *)

(** ** Reading results and traces *)

Definition is_send (e : Event) : bool :=
  match e with EvSend _ => true | _ => false end.
Definition is_token (e : Event) : bool :=
  match e with EvToken _ => true | _ => false end.
Definition touches_disk (e : Event) : bool :=
  match e with EvWriteFile _ _ | EvRemove _ => true | _ => false end.

(** Requests sent and tokens taken so far. *)
Definition sends (w : World) : nat := length (List.filter is_send (trace w)).
Definition tokens (w : World) : nat := length (List.filter is_token (trace w)).

(** The request [fetchWithRetry] builds on every attempt. *)
Definition apiRequest (method url : string) (reqBody : option bytes) : Request :=
  let req := {| req_method := method; req_url := url; req_body := reqBody;
                req_headers := [] |} in
  let req := match reqBody with
             | Some _ => Header_Set "Content-Type" "application/json" req
             | None => req
             end in
  Header_Set "Accept" "application/json" req.

(** The request [downloadImage] builds on every attempt. *)
Definition imageRequest (srcURL : string) : Request :=
  {| req_method := MethodGet; req_url := srcURL; req_body := None;
     req_headers := [] |}.

(** 429, 5xx and transport failures are retried. *)
Definition retryable (r : HttpResult) : bool :=
  match r with
  | Transport _ => true
  | Response status _ => (status =? StatusTooManyRequests) || (500 <=? status)
  end.

(** Any other status that is not 200 ends the call. *)
Definition terminal (r : HttpResult) : bool :=
  match r with
  | Transport _ => false
  | Response status _ =>
    negb ((status =? StatusTooManyRequests) || (500 <=? status))
    && negb (status =? StatusOK)
  end.

(** The error one failed attempt of [fetchWithRetry] leaves in [lastErr]. *)
Definition apiCause (source : string) (r : HttpResult) : error :=
  match r with
  | Transport e => e
  | Response status _ => ErrReturned source status
  end.

Definition imageCause (r : HttpResult) : error :=
  match r with
  | Transport e => e
  | Response status _ => ErrDownload status
  end.

(** The context is never cancelled and the buckets always grant. *)
Definition undisturbed (env : Env) : Prop :=
  (forall n, ctx_done env n = false) /\
  (forall n l, limiter_err env n l = None).

(** ** One iteration of the retry loops *)

(** What an attempt's response makes the loop do. *)
Inductive Verdict :=
| Retry (e : error)       (* lastErr = e; continue *)
| Stop (e : error)        (* return nil, e *)
| Deliver (data : bytes). (* return data, nil *)

Definition apiVerdict (source : string) (r : HttpResult) : Verdict :=
  match r with
  | Transport e => Retry e
  | Response status b =>
    if (status =? StatusTooManyRequests) || (500 <=? status)
    then Retry (ErrReturned source status)
    else if negb (status =? StatusOK) then Stop (ErrReturned source status)
    else match snd (ReadAll_LimitReader b apiBodyCap) with
         | Some e => Retry e
         | None => Deliver (fst (ReadAll_LimitReader b apiBodyCap))
         end
  end.

Definition imageVerdict (r : HttpResult) : Verdict :=
  match r with
  | Transport e => Retry e
  | Response status b =>
    if (status =? StatusTooManyRequests) || (500 <=? status)
    then Retry (ErrDownload status)
    else if negb (status =? StatusOK) then Stop (ErrDownload status)
    else match snd (ReadAll_LimitReader b imageBodyCap) with
         | Some e => Retry e
         | None => Deliver (fst (ReadAll_LimitReader b imageBodyCap))
         end
  end.

(** The world after [hc.Do] sent [req]. *)
Definition sent (req : Request) (w : World) : World :=
  emit (EvSend req) (advance w).

(** The backoff [d] that precedes attempt [attempt] when it starts at [w]. *)
Definition backoffAt (env : Env) (attempt : Z) (w : World) : Z :=
  2 ^ attempt * Second + rand_raw env (tick w) mod (2 ^ attempt * Second / 2).

(** The world after fetchWithRetry's backoff and token wait. *)
Definition apiBackedOff (env : Env) (source : string) (limiter : Limiter)
    (attempt : Z) (w : World) : World :=
  let d := backoffAt env attempt w in
  emit (EvToken limiter)
    (advance (emit (EvSleep d)
       (advance (emit (EvLog (LogRetry source attempt d)) (advance w))))).

(** The world after downloadImage's backoff: no token is taken. *)
Definition imageBackedOff (env : Env) (attempt : Z) (w : World) : World :=
  let d := backoffAt env attempt w in
  emit (EvSleep d) (advance (advance w)).

(** The rest of an iteration once the request can be sent from [w1]. *)
Definition apiContinue (env : Env) (method url : string)
    (reqBody : option bytes) (source : string) (limiter : Limiter)
    (fuel : nat) (attempt : Z) (w1 : World) : Result bytes * World :=
  let req := apiRequest method url reqBody in
  match apiVerdict source (http_do env (tick w1) req) with
  | Retry e =>
    fetchLoop env method url reqBody source limiter fuel (attempt + 1)
      (Some e) (sent req w1)
  | Stop e => (Err e, sent req w1)
  | Deliver data => (Ok data, sent req w1)
  end.

Definition imageContinue (env : Env) (srcURL : string)
    (fuel : nat) (attempt : Z) (w1 : World) : Result bytes * World :=
  let req := imageRequest srcURL in
  match imageVerdict (http_do env (tick w1) req) with
  | Retry e => downloadLoop env srcURL fuel (attempt + 1) (Some e) (sent req w1)
  | Stop e => (Err e, sent req w1)
  | Deliver data => (Ok data, sent req w1)
  end.

(** ** Test doubles for the outside world *)

Definition emptyBody : Body := {| body_bytes := []; body_err := None |}.

(** A calm world: nothing is cancelled, nothing local fails, every URL
    parses, and the upstream answers [http]. *)
Definition calm (http : nat -> Request -> HttpResult)
    (decode : bytes -> option (GoImage * string)) : Env :=
  {| ctx_done := fun _ => false;
     limiter_err := fun _ _ => None;
     url_parses := fun _ => true;
     http_do := http;
     rand_raw := fun _ => 0;
     write_err := fun _ _ => None;
     db_err := fun _ => None;
     clock := fun n => Z.of_nat n;
     filepath_Join := fun dir name => dir +:+ "/" +:+ name;
     sha256_Sum256 := fun data => data;
     json_Items := fun _ => Some [];
     json_Files := fun _ => Some [];
     image_Decode := decode;
     webp_Decode := fun _ => None;
     png_Decode := fun _ => None;
     jpeg_Decode := fun _ => None;
     gif_Decode := fun _ => None;
     CatmullRom_Scale := fun img w h => {| Dx := w; Dy := h; Pix := Pix img |};
     webp_Encode := fun img => inr (Pix img) |}.

Definition always (status : Z) : nat -> Request -> HttpResult :=
  fun _ _ => Response status emptyBody.

Definition env_500 : Env := calm (always 500) (fun _ => None).
Definition env_404 : Env := calm (always 404) (fun _ => None).

(** ** What a call may do to the world *)

(** Backoffs slept so far, newest first. *)
Definition slept (w : World) : list Z :=
  flat_map (fun e => match e with EvSleep d => [d] | _ => [] end) (trace w).

(** [steps ok w w']: [w'] comes from [w] by consulting the oracle and by
    emitting events that satisfy [ok]; files and catalog are not touched. *)
Inductive steps (ok : Event -> Prop) : World -> World -> Prop :=
| steps_refl w : steps ok w w
| steps_advance w w' : steps ok w w' -> steps ok w (advance w')
| steps_emit e w w' : ok e -> steps ok w w' -> steps ok w (emit e w').

Definition confined (ok : Event -> Prop) {A} (m : M A) : Prop :=
  forall w, steps ok w (snd (m w)).

Definition no_token (e : Event) : Prop := is_token e = false.
Definition no_disk (e : Event) : Prop := touches_disk e = false.

(** A 200 response whose body is one byte longer than [cap]. *)
Definition oversized (cap : Z) : Body :=
  {| body_bytes := repeat x00 (Z.to_nat (cap + 1)); body_err := None |}.

Definition env_oversized_api : Env :=
  calm (fun _ _ => Response 200 (oversized apiBodyCap)) (fun _ => None).
Definition env_oversized_image : Env :=
  calm (fun _ _ => Response 200 (oversized imageBodyCap)) (fun _ => None).

Definition testIngester : Ingester := {| imgDir := "/data/images" |}.

(** An upstream whose first answer is a 500 and whose later answers are
    200 with a three-byte payload. *)
Definition payload : Body :=
  {| body_bytes := [x89; x50; x4e]; body_err := None |}.

Definition env_flaky : Env :=
  calm (fun n _ => if (n <? 3)%nat then Response 500 emptyBody
                   else Response 200 payload)
       (fun _ => None).

(** round(num / den) for [0 <= num], [0 < den], halves away from zero. *)
Definition round_div (num den : Z) : Z := (2 * num + den) / (2 * den).

(** A decoder double: every input decodes to a [w] x [h] PNG. *)
Definition decodes_to (w h : Z) : bytes -> option (GoImage * string) :=
  fun data => Some ({| Dx := w; Dy := h; Pix := data |}, "png").

Definition env_1000x802 : Env := calm (always 200) (decodes_to 1000 802).
Definition env_1000x800 : Env := calm (always 200) (decodes_to 1000 800).
Definition env_200x300 : Env := calm (always 200) (decodes_to 200 300).
Definition env_537x537 : Env := calm (always 200) (decodes_to 537 537).

(** ** What processImage does, outcome by outcome *)

(** The world after [limiter.Wait] granted a token of [l]. *)
Definition granted (l : Limiter) (w : World) : World :=
  emit (EvToken l) (advance w).

(** Bytes and dimensions processImage stores: ForTerminal's, or on its
    failure the download and the adapter's dimensions. *)
Definition chosen (env : Env) (data : bytes) (origW origH : Z) : bytes * Z * Z :=
  match ForTerminal env data 480 with
  | Ok (optimized, w, h) => (optimized, w, h)
  | _ => (data, origW, origH)
  end.

Definition imageName (env : Env) (data : bytes) : string :=
  contentHash env data +:+ ".webp".

Definition imagePath (env : Env) (ing : Ingester) (data : bytes) : string :=
  filepath_Join env (imgDir ing) (imageName env data).

(** The record processImage hands to [Insert]. *)
Definition record (env : Env) (srcURL source category : string)
    (origW origH : Z) (data : bytes) : Image :=
  let '(optimized, w, h) := chosen env data origW origH in
  {| ID := 0; Hash := contentHash env data; Source := source;
     SourceURL := srcURL; Category := category; Width := w; Height := h;
     Format := "webp"; SizeBytes := Z.of_nat (length optimized);
     Filename := imageName env data; CreatedAt := 0 |}.

(** The world after os.WriteFile succeeded. *)
Definition written (path : string) (data : bytes) (w : World) : World :=
  emit (EvWriteFile path data)
    (set_files (<[path:=data]> (files w)) (advance w)).

(** The world after Insert failed and the file was removed again. *)
Definition rolledBack (path : string) (w : World) : World :=
  emit (EvRemove path) (set_files (delete path (files w)) (advance w)).

(** The world after Insert added a row. *)
Definition inserted (env : Env) (img : Image) (w : World) : World :=
  {| tick := S (tick w); trace := trace w; files := files w;
     rows := rows w ++ [stored img (db_seq w + 1) (clock env (tick w))];
     db_seq := db_seq w + 1; last_rowid := db_seq w + 1 |}.

Section Outcomes.
Variables (env : Env) (ing : Ingester).
Variables (srcURL source category : string) (origW origH : Z).

Inductive Processed (w : World) : Result Z -> World -> Prop :=
| NoToken e :
    limiter_err env (tick w) DownloadLimiter = Some e ->
    Processed w (Err e) (advance w)
| DownloadFailed e w2 :
    limiter_err env (tick w) DownloadLimiter = None ->
    downloadImage env srcURL (granted DownloadLimiter w) = (Err e, w2) ->
    Processed w (Err e) w2
| QueryFailed data w2 e :
    limiter_err env (tick w) DownloadLimiter = None ->
    downloadImage env srcURL (granted DownloadLimiter w) = (Ok data, w2) ->
    db_err env (tick w2) = Some e ->
    Processed w (Err e) (advance w2)
| Duplicate data w2 :
    limiter_err env (tick w) DownloadLimiter = None ->
    downloadImage env srcURL (granted DownloadLimiter w) = (Ok data, w2) ->
    db_err env (tick w2) = None ->
    hash_present (contentHash env data) (rows w2) = true ->
    Processed w (Ok 0) (advance w2)
| WriteFailed data w2 e :
    limiter_err env (tick w) DownloadLimiter = None ->
    downloadImage env srcURL (granted DownloadLimiter w) = (Ok data, w2) ->
    db_err env (tick w2) = None ->
    hash_present (contentHash env data) (rows w2) = false ->
    write_err env (S (tick w2)) (imagePath env ing data) = Some e ->
    Processed w (Err (ErrWriteImage e)) (advance (advance w2))
| InsertFailed data w2 e :
    limiter_err env (tick w) DownloadLimiter = None ->
    downloadImage env srcURL (granted DownloadLimiter w) = (Ok data, w2) ->
    db_err env (tick w2) = None ->
    hash_present (contentHash env data) (rows w2) = false ->
    write_err env (S (tick w2)) (imagePath env ing data) = None ->
    db_err env (S (S (tick w2))) = Some e ->
    Processed w (Err (ErrCatalogInsert e))
      (rolledBack (imagePath env ing data)
         (written (imagePath env ing data)
            (fst (fst (chosen env data origW origH))) (advance w2)))
| Stored data w2 :
    limiter_err env (tick w) DownloadLimiter = None ->
    downloadImage env srcURL (granted DownloadLimiter w) = (Ok data, w2) ->
    db_err env (tick w2) = None ->
    hash_present (contentHash env data) (rows w2) = false ->
    write_err env (S (tick w2)) (imagePath env ing data) = None ->
    db_err env (S (S (tick w2))) = None ->
    Processed w (Ok 1)
      (inserted env (record env srcURL source category origW origH data)
         (written (imagePath env ing data)
            (fst (fst (chosen env data origW origH))) (advance w2))).
End Outcomes.


Definition any_event (e : Event) : Prop := True.

(** An upstream that answers every request with 200 and [payload]; no
    decoder accepts the payload. *)
Definition env_plain : Env :=
  calm (fun _ _ => Response 200 payload) (fun _ => None).

(** The same upstream behind a catalog whose every statement fails from
    the third tick on: the query passes, the insert does not. *)
Definition env_insert_fails : Env :=
  {| ctx_done := fun _ => false;
     limiter_err := fun _ _ => None;
     url_parses := fun _ => true;
     http_do := fun _ _ => Response 200 payload;
     rand_raw := fun _ => 0;
     write_err := fun _ _ => None;
     db_err := fun n => if (n <? 4)%nat then None else Some (ErrSQL "disk I/O error");
     clock := fun n => Z.of_nat n;
     filepath_Join := fun dir name => dir +:+ "/" +:+ name;
     sha256_Sum256 := fun data => data;
     json_Items := fun _ => Some [];
     json_Files := fun _ => Some [];
     image_Decode := fun _ => None;
     webp_Decode := fun _ => None;
     png_Decode := fun _ => None;
     jpeg_Decode := fun _ => None;
     gif_Decode := fun _ => None;
     CatmullRom_Scale := fun img w h => {| Dx := w; Dy := h; Pix := Pix img |};
     webp_Encode := fun img => inr (Pix img) |}.

Definition testURL : string := "https://i.example/a.png".

(** What an adapter's result adds to Run's total. *)
Definition tally (r : Result Z) : Z :=
  match r with
  | Ok n => n
  | _ => 0
  end.

(** The world Run continues from after an adapter: a failure is logged. *)
Definition afterAdapter (what : string) (run : Result Z * World) : World :=
  match fst run with
  | Err e => emit (EvLog (LogAdapter what e)) (snd run)
  | _ => snd run
  end.

(** Number of catalog rows. *)
Definition rowCount (w : World) : Z := Z.of_nat (length (rows w)).

(** A cycle in which waifu.im answers 500 throughout and waifu.pics
    answers 200: [json_Files] names one image. *)
Definition env_half_down : Env :=
  {| ctx_done := fun _ => false;
     limiter_err := fun _ _ => None;
     url_parses := fun _ => true;
     http_do := fun _ r =>
       if String.eqb (req_method r) MethodGet
          && String.prefix waifuImSearchURL (req_url r)
       then Response 500 emptyBody
       else Response 200 payload;
     rand_raw := fun _ => 0;
     write_err := fun _ _ => None;
     db_err := fun _ => None;
     clock := fun n => Z.of_nat n;
     filepath_Join := fun dir name => dir +:+ "/" +:+ name;
     sha256_Sum256 := fun data => data;
     json_Items := fun _ => Some [];
     json_Files := fun _ => Some [testURL];
     image_Decode := fun _ => None;
     webp_Decode := fun _ => None;
     png_Decode := fun _ => None;
     jpeg_Decode := fun _ => None;
     gif_Decode := fun _ => None;
     CatmullRom_Scale := fun img w h => {| Dx := w; Dy := h; Pix := Pix img |};
     webp_Encode := fun img => inr (Pix img) |}.

(** ** Idempotence: the setting *)

(** The same request gets the same answer whenever it is sent. *)
Definition stationary (env : Env) : Prop :=
  forall n m r, http_do env n r = http_do env m r.

(** The file system and SQLite do what they are asked. *)
Definition no_local_failure (env : Env) : Prop :=
  (forall n path, write_err env n path = None)
  /\ (forall n, db_err env n = None).

(** The catalog has the hash of whatever [url] downloads to. *)
Definition known (env : Env) (w : World) (url : string) : Prop :=
  forall data,
    fst (downloadImage env url empty_world) = Ok data ->
    hash_present (contentHash env data) (rows w) = true.

(** The request URL of the waifu.im adapter. *)
Definition waifuImURL (category : string) : string :=
  waifuImSearchURL +:+ "?included_tags=waifu&is_nsfw="
  +:+ (if String.eqb category "nsfw" then "true" else "false")
  +:+ "&page_size=30".

(** Every candidate the waifu.im adapter gets is known. *)
Definition waifuImKnown (env : Env) (category : string) (w : World) : Prop :=
  forall body items img,
    fst (fetchWithRetry env MethodGet (waifuImURL category) None "waifu.im"
           WaifuImLimiter empty_world) = Ok body ->
    json_Items env body = Some items ->
    In img items -> known env w (URL img).

Definition waifuPicsKnown (env : Env) (apiURL : string) (w : World) : Prop :=
  forall body urls url,
    fst (fetchWithRetry env MethodPost apiURL (Some picsReqBody) "waifu.pics"
           WaifuPicsLimiter empty_world) = Ok body ->
    json_Files env body = Some urls ->
    In url urls -> known env w url.

(** The catalog only gained rows. *)
Definition grown (w w' : World) : Prop :=
  exists new, rows w' = rows w ++ new.

(** A cycle's upstream that never changes its mind: waifu.im lists two
    candidates, waifu.pics one of them again; every download is [payload]. *)
Definition env_steady : Env :=
  {| ctx_done := fun _ => false;
     limiter_err := fun _ _ => None;
     url_parses := fun _ => true;
     http_do := fun _ _ => Response 200 payload;
     rand_raw := fun _ => 0;
     write_err := fun _ _ => None;
     db_err := fun _ => None;
     clock := fun n => Z.of_nat n;
     filepath_Join := fun dir name => dir +:+ "/" +:+ name;
     sha256_Sum256 := fun data => data;
     json_Items := fun _ =>
       Some [ {| URL := testURL; ItemWidth := 1000; ItemHeight := 800 |};
              {| URL := "https://i.example/b.png"; ItemWidth := 0;
                 ItemHeight := 0 |} ];
     json_Files := fun _ => Some [testURL];
     image_Decode := fun _ => None;
     webp_Decode := fun _ => None;
     png_Decode := fun _ => None;
     jpeg_Decode := fun _ => None;
     gif_Decode := fun _ => None;
     CatmullRom_Scale := fun img w h => {| Dx := w; Dy := h; Pix := Pix img |};
     webp_Encode := fun img => inr (Pix img) |}.

(** A row as a test would insert it. *)
Definition testImage : Image :=
  {| ID := 0; Hash := "dup123"; Source := "waifu.im";
     SourceURL := "https://example.com/dup.webp"; Category := "sfw";
     Width := 0; Height := 0; Format := EmptyString; SizeBytes := 0;
     Filename := "dup123.webp"; CreatedAt := 0 |}.

(** * The rest of the repository *)

(** ** package catalog: Count, Stats, Random *)

(** catalog.Stats *)
Record StatsRecord := {
  SFWCount : Z;
  NSFWCount : Z;
  TotalBytes : Z;
  LastIngest : Z
}.

(** What [Random] returns instead of an image. *)
Inductive RandomFailure :=
| CountFailed (e : error)        (* the COUNT query failed *)
| NoImages (category : string)   (* "catalog: no images in category %q" *)
| RowFailed (e : error)          (* "catalog: random: %w" *)
| NoRows.                        (* "catalog: random: %w" of sql.ErrNoRows *)

Definition in_category (category : string) (rs : list Image) : list Image :=
  List.filter (fun r => String.eqb (Category r) category) rs.

(** COALESCE(SUM(size_bytes), 0); SQLite raises an error when the sum
    leaves int64. *)
Definition sum_size_bytes (rs : list Image) : option Z :=
  let total := fold_right Z.add 0 (map SizeBytes rs) in
  if (minInt64 <=? total) && (total <=? maxInt64) then Some total else None.

(** COALESCE(MAX(created_at), '1970-01-01'), as a Unix time. *)
Definition max_created_at (rs : list Image) : Z :=
  match map CreatedAt rs with
  | [] => 0
  | c :: cs => fold_left Z.max cs c
  end.

Section Catalog.
Variable env : Env.

(** SELECT COUNT( * ) FROM images *)
Definition Count : M Z :=
  fun w =>
    match db_err env (tick w) with
    | Some e => (Err e, advance w)
    | None => (Ok (Z.of_nat (length (rows w))), advance w)
    end.

(** One [d.db.QueryRow(...).Scan(&field)] of Stats: the error is dropped
    and the field keeps its zero value. *)
Definition scan_or_zero (value : option Z) (w : World) : Z * World :=
  match db_err env (tick w) with
  | Some _ => (0, advance w)
  | None => (match value with Some v => v | None => 0 end, advance w)
  end.

(** Stats runs four queries and always returns a nil error. *)
Definition Stats : M StatsRecord :=
  fun w =>
    let count c := Some (Z.of_nat (length (in_category c (rows w)))) in
    let '(sfw, w1) := scan_or_zero (count "sfw") w in
    let '(nsfw, w2) := scan_or_zero (count "nsfw") w1 in
    let '(total, w3) := scan_or_zero (sum_size_bytes (rows w)) w2 in
    let '(last, w4) := scan_or_zero (Some (max_created_at (rows w))) w3 in
    (Ok {| SFWCount := sfw; NSFWCount := nsfw; TotalBytes := total;
           LastIngest := last |}, w4).

(** Random: COUNT, then rand.Intn(count), then LIMIT 1 OFFSET offset. *)
Definition Random (category : string) (w : World)
    : (RandomFailure + Image) * World :=
  match db_err env (tick w) with
  | Some e => (inl (CountFailed e), advance w)
  | None =>
    let matching := in_category category (rows w) in
    let count := Z.of_nat (length matching) in
    let w1 := advance w in
    if count =? 0 then (inl (NoImages category), w1)
    else
      let offset := rand_raw env (tick w1) mod count in
      let w2 := advance w1 in
      match db_err env (tick w2) with
      | Some e => (inl (RowFailed e), advance w2)
      | None =>
        match nth_error matching (Z.to_nat offset) with
        | Some img => (inr img, advance w2)
        | None => (inl NoRows, advance w2)
        end
      end
  end.
End Catalog.

(** ** package server *)

(** strings.TrimPrefix *)
Fixpoint strip_prefix (prefix s : string) : option string :=
  match prefix, s with
  | EmptyString, _ => Some s
  | String a p, String b t => if Ascii.eqb a b then strip_prefix p t else None
  | String _ _, EmptyString => None
  end.

Definition strings_TrimPrefix (s prefix : string) : string :=
  match strip_prefix prefix s with
  | Some rest => rest
  | None => s
  end.

(** [(c >= '0' && c <= '9') || (c >= 'a' && c <= 'f')].  The Go loop
    ranges over runes; a byte from 0x80 up only ever yields a rune from
    0x80 up, which this test rejects like the byte itself, so the test is
    made byte by byte. *)
Definition isLowerHex (c : ascii) : bool :=
  let n := N_of_ascii c in
  ((48 <=? n) && (n <=? 57) || (97 <=? n) && (n <=? 102))%N.

Definition all_chars (p : ascii -> bool) (s : string) : bool :=
  forallb p (list_ascii_of_string s).

Record randomResponse := {
  rr_URL : string;
  rr_ID : string;
  rr_Width : Z;
  rr_Height : Z;
  rr_Hash : string
}.

Record healthResponse := {
  hr_Status : string;
  hr_SFWCount : Z;
  hr_NSFWCount : Z;
  hr_TotalMB : float64
}.

(** What a handler writes as the body. *)
Inductive Payload :=
| ErrorText (msg : string)          (* http.Error *)
| NotFoundPage                      (* http.NotFound *)
| RandomJSON (r : randomResponse)   (* json.NewEncoder(w).Encode(resp) *)
| HealthJSON (h : healthResponse)
| RawBytes (data : bytes).          (* w.Write(data) *)

Record HttpReply := {
  reply_status : Z;
  reply_headers : list (string * string);
  reply_body : Payload
}.

Definition StatusBadRequest : Z := 400.
Definition StatusNotFound : Z := 404.
Definition StatusInternalServerError : Z := 500.
Definition StatusServiceUnavailable : Z := 503.

(** http.Error(w, msg, code) *)
Definition http_Error (msg : string) (code : Z) : HttpReply :=
  {| reply_status := code;
     reply_headers := [("Content-Type", "text/plain; charset=utf-8");
                       ("X-Content-Type-Options", "nosniff")];
     reply_body := ErrorText msg |}.

Definition http_NotFound : HttpReply :=
  {| reply_status := StatusNotFound;
     reply_headers := [("Content-Type", "text/plain; charset=utf-8");
                       ("X-Content-Type-Options", "nosniff")];
     reply_body := NotFoundPage |}.

(** What the handlers ask of the file system. *)
Record ServerFS := {
  filepath_Glob : gmap string bytes -> string -> list string;
  read_err : string -> option error
}.

Section Server.
Variable env : Env.
Variable fs : ServerFS.
Variable dir : string.   (* imgDir *)

(** [randomHandler]; [query] is [r.URL.Query().Get("category")].  The
    second component is the error the handler logs, if any. *)
Definition randomHandler (query : string) (w : World)
    : (HttpReply * option RandomFailure) * World :=
  let category := if String.eqb query EmptyString then "sfw" else query in
  if negb (String.eqb category "sfw") && negb (String.eqb category "nsfw")
  then ((http_Error "category must be sfw or nsfw" StatusBadRequest, None), w)
  else
    match Random env category w with
    | (inl err, w') =>
      ((http_Error "no images available" StatusServiceUnavailable, Some err),
       w')
    | (inr img, w') =>
      let resp := {| rr_URL := "/api/image/" +:+ Hash img;
                     rr_ID := Filename img;
                     rr_Width := Width img;
                     rr_Height := Height img;
                     rr_Hash := Hash img |} in
      (({| reply_status := StatusOK;
           reply_headers := [("Content-Type", "application/json")];
           reply_body := RandomJSON resp |}, None), w')
    end.

(** os.ReadFile *)
Definition os_ReadFile (files : gmap string bytes) (path : string)
    : error + bytes :=
  match read_err fs path with
  | Some e => inl e
  | None =>
    match files !! path with
    | Some data => inr data
    | None => inl (ErrOS "no such file or directory")
    end
  end.

(** [imageHandler]; [path] is [r.URL.Path]. *)
Definition imageHandler (path : string) (files : gmap string bytes)
    : HttpReply :=
  let hash := strings_TrimPrefix path "/api/image/" in
  if String.eqb hash EmptyString
  then http_Error "missing image hash" StatusBadRequest
  else if negb (all_chars isLowerHex hash)
  then http_Error "invalid hash" StatusBadRequest
  else
    let pattern := filepath_Join env dir (hash +:+ ".*") in
    match filepath_Glob fs files pattern with
    | [] => http_NotFound
    | first :: _ =>
      match os_ReadFile files first with
      | inl _ => http_Error "read error" StatusInternalServerError
      | inr data =>
        {| reply_status := StatusOK;
           reply_headers := [("Content-Type", "image/webp");
                             ("Cache-Control", "public, max-age=86400")];
           reply_body := RawBytes data |}
      end
    end.

(** [healthHandler] *)
Definition healthHandler (w : World) : HttpReply * World :=
  match Stats env w with
  | (Ok stats, w') =>
    let resp := {| hr_Status := "ok";
                   hr_SFWCount := SFWCount stats;
                   hr_NSFWCount := NSFWCount stats;
                   hr_TotalMB := f64div (float64_of_int (TotalBytes stats))
                                   (float64_of_int (1024 * 1024)) |} in
    ({| reply_status := StatusOK;
        reply_headers := [("Content-Type", "application/json")];
        reply_body := HealthJSON resp |}, w')
  | (_, w') => (http_Error "stats error" StatusInternalServerError, w')
  end.
End Server.

(** ** The retry loops, iteration by iteration, in any world *)

(** What fetchWithRetry does before it builds the request. *)
Definition apiPrelude (env : Env) (source : string) (limiter : Limiter)
    (attempt : Z) : M unit :=
  if 0 <? attempt then
    call backoff <- backoffDuration env attempt ;;
    exec log_Printf (LogRetry source attempt backoff) ;;
    exec sleep_or_cancel env backoff ;;
    limiter_Wait env limiter
  else ret tt.

(** What downloadImage does before it builds the request. *)
Definition imagePrelude (env : Env) (attempt : Z) : M unit :=
  if 0 <? attempt then
    call backoff <- backoffDuration env attempt ;;
    sleep_or_cancel env backoff
  else ret tt.

(** A 200 whose body was read to the end (or to the cap) without error. *)
Definition delivers (cap : Z) (r : HttpResult) (data : bytes) : Prop :=
  exists b, r = Response StatusOK b
            /\ ReadAll_LimitReader b cap = (data, None).

(** An image host that fails twice and then answers 200 with [payload]:
    a transport failure on the first GET, a 503 on the second. *)
Definition env_third_time : Env :=
  calm (fun n _ => if (n <? 1)%nat then Transport (ErrTransport "timeout")
                   else if (n <? 4)%nat then Response 503 emptyBody
                   else Response 200 payload)
       (fun _ => None).

(** [env_500] with the context cancelled from the third tick on. *)
Definition env_cancelled : Env :=
  {| ctx_done := fun n => (2 <=? n)%nat;
     limiter_err := fun _ _ => None;
     url_parses := fun _ => true;
     http_do := always 500;
     rand_raw := fun _ => 0;
     write_err := fun _ _ => None;
     db_err := fun _ => None;
     clock := fun n => Z.of_nat n;
     filepath_Join := fun dir name => dir +:+ "/" +:+ name;
     sha256_Sum256 := fun data => data;
     json_Items := fun _ => Some [];
     json_Files := fun _ => Some [];
     image_Decode := fun _ => None;
     webp_Decode := fun _ => None;
     png_Decode := fun _ => None;
     jpeg_Decode := fun _ => None;
     gif_Decode := fun _ => None;
     CatmullRom_Scale := fun img w h => {| Dx := w; Dy := h; Pix := Pix img |};
     webp_Encode := fun img => inr (Pix img) |}.


(** A catalog of three images for the handlers. *)
Definition row_of (id : Z) (hash category : string) (size : Z) : Image :=
  {| ID := id; Hash := hash; Source := "waifu.im";
     SourceURL := "https://cdn.example/" +:+ hash; Category := category;
     Width := 480; Height := 680; Format := "webp"; SizeBytes := size;
     Filename := hash +:+ ".webp"; CreatedAt := 1700000000 + id |}.

Definition world_of_three : World :=
  {| tick := 0%nat; trace := [];
     files := {[ "/data/images/00aa.webp" := [x01; x02] ]};
     rows := [ row_of 1 "00aa" "sfw" 2; row_of 2 "11bb" "nsfw" 5;
               row_of 3 "22cc" "sfw" 7 ];
     db_seq := 3; last_rowid := 3 |}.

(** The value of a hex digit, for reading [hex_EncodeToString] back. *)
Definition unhex (c : ascii) : N :=
  let n := N_of_ascii c in
  (if (97 <=? n) then n - 87 else n - 48)%N.

(** The category randomHandler asks the catalog for. *)
Definition effectiveCategory (query : string) : string :=
  if String.eqb query EmptyString then "sfw" else query.

(** A file system double for the handlers: Glob finds nothing. *)
Definition fs_blind : ServerFS :=
  {| filepath_Glob := fun _ _ => []; read_err := fun _ => None |}.

(** A catalog whose every statement fails. *)
Definition env_db_down : Env :=
  {| ctx_done := fun _ => false;
     limiter_err := fun _ _ => None;
     url_parses := fun _ => true;
     http_do := always 200;
     rand_raw := fun _ => 0;
     write_err := fun _ _ => None;
     db_err := fun _ => Some (ErrSQL "database is locked");
     clock := fun n => Z.of_nat n;
     filepath_Join := fun dir name => dir +:+ "/" +:+ name;
     sha256_Sum256 := fun data => data;
     json_Items := fun _ => Some [];
     json_Files := fun _ => Some [];
     image_Decode := fun _ => None;
     webp_Decode := fun _ => None;
     png_Decode := fun _ => None;
     jpeg_Decode := fun _ => None;
     gif_Decode := fun _ => None;
     CatmullRom_Scale := fun img w h => {| Dx := w; Dy := h; Pix := Pix img |};
     webp_Encode := fun img => inr (Pix img) |}.

(** ** What a whole cycle keeps *)



(** [w'] has the rows of [w] followed by rows processImage makes. *)
Definition appended (w w' : World) : Prop :=
  exists new,
    rows w' = rows w ++ new
    /\ Forall (fun r => Format r = "webp"
                        /\ Filename r = Hash r +:+ ".webp") new.

(** Files, rows and row counters are the same. *)
Definition same_store (w w' : World) : Prop :=
  files w' = files w /\ rows w' = rows w /\ db_seq w' = db_seq w
  /\ last_rowid w' = last_rowid w.

(** * Verification *)

(** ** Machine arithmetic *)

Lemma wrap64_small x : - 2^63 <= x < 2^63 -> wrap64 x = x.
Proof.
  intros H. unfold wrap64.
  rewrite Z.mod_small by lia. lia.
Qed.

Lemma backoff_base_1 : wrap64 (shl64 1 1 * Second) = 2 * Second.
Proof. reflexivity. Qed.

Lemma backoff_base_2 : wrap64 (shl64 1 2 * Second) = 4 * Second.
Proof. reflexivity. Qed.

(** [backoffDuration] at the two attempts the loops call it with. *)
Lemma backoffDuration_retry env attempt w :
  attempt = 1 \/ attempt = 2 ->
  let base := 2 ^ attempt * Second in
  let jitter := rand_raw env (tick w) mod (base / 2) in
  backoffDuration env attempt w = (Ok (base + jitter), advance w)
  /\ 0 <= jitter < base / 2.
Proof.
  intros [-> | ->]; cbv zeta; unfold backoffDuration, bind, rand_Int63n, ret.
  - rewrite backoff_base_1.
    change (Z.quot (2 * Second) 2) with 1000000000.
    change (2 ^ 1 * Second / 2) with 1000000000.
    change (2 ^ 1 * Second) with 2000000000.
    change (2 * Second) with 2000000000.
    cbn [Z.leb Z.compare Pos.compare].
    pose proof (Z.mod_pos_bound (rand_raw env (tick w)) 1000000000 ltac:(lia)).
    split; [| lia].
    rewrite wrap64_small by lia. reflexivity.
  - rewrite backoff_base_2.
    change (Z.quot (4 * Second) 2) with 2000000000.
    change (2 ^ 2 * Second / 2) with 2000000000.
    change (2 ^ 2 * Second) with 4000000000.
    change (4 * Second) with 4000000000.
    cbn [Z.leb Z.compare Pos.compare].
    pose proof (Z.mod_pos_bound (rand_raw env (tick w)) 2000000000 ltac:(lia)).
    split; [| lia].
    rewrite wrap64_small by lia. reflexivity.
Qed.

Section Iterations.
Variable env : Env.
Hypothesis quiet : undisturbed env.

Section Api.
Variables (method url : string) (reqBody : option bytes)
          (source : string) (limiter : Limiter).
Hypothesis parses : url_parses env url = true.

Let req := apiRequest method url reqBody.
Let loop := fetchLoop env method url reqBody source limiter.

Lemma fetchLoop_send fuel attempt w :
  (call r <- NewRequestWithContext env method url reqBody ;;
   let r := match reqBody with
            | Some _ => Header_Set "Content-Type" "application/json" r
            | None => r
            end in
   let r := Header_Set "Accept" "application/json" r in
   call resp <- hc_Do env r ;;
   match resp with
   | Transport e => loop fuel (attempt + 1) (Some e)
   | Response status b =>
     let '(body, rerr) := ReadAll_LimitReader b apiBodyCap in
     if (status =? StatusTooManyRequests) || (500 <=? status) then
       loop fuel (attempt + 1) (Some (ErrReturned source status))
     else if negb (status =? StatusOK) then
       fail (ErrReturned source status)
     else match rerr with
          | Some e => loop fuel (attempt + 1) (Some e)
          | None => ret body
          end
   end) w = apiContinue env method url reqBody source limiter fuel attempt w.
Proof.
  unfold apiContinue, NewRequestWithContext, bind, hc_Do. rewrite parses.
  cbv zeta.
  unfold ret at 1. cbv beta iota zeta.
  fold (apiRequest method url reqBody). fold req. fold (sent req w).
  destruct (http_do env (tick w) req) as [e | status b]; cbn [apiVerdict].
  - reflexivity.
  - destruct (ReadAll_LimitReader b apiBodyCap) as [body rerr].
    cbn [fst snd].
    destruct ((status =? StatusTooManyRequests) || (500 <=? status));
      [reflexivity |].
    destruct (negb (status =? StatusOK)); [reflexivity |].
    destruct rerr; reflexivity.
Qed.

(** The first attempt sends at once. *)
Lemma fetchLoop_first fuel lastErr w :
  loop (S fuel) 0 lastErr w = apiContinue env method url reqBody source limiter fuel 0 w.
Proof.
  unfold loop at 1. cbn [fetchLoop]. cbn [Z.ltb Z.compare].
  unfold bind at 1. unfold ret at 1. cbv beta iota.
  apply fetchLoop_send.
Qed.

(** A retry logs, sleeps, takes a token again, then sends. *)
Lemma fetchLoop_retry fuel attempt lastErr w :
  attempt = 1 \/ attempt = 2 ->
  loop (S fuel) attempt lastErr w
  = apiContinue env method url reqBody source limiter fuel attempt (apiBackedOff env source limiter attempt w).
Proof.
  intros Hatt. unfold loop at 1. cbn [fetchLoop].
  replace (0 <? attempt) with true by (destruct Hatt; subst; reflexivity).
  destruct (backoffDuration_retry env attempt w Hatt) as [Hb _].
  cbv zeta in Hb. fold (backoffAt env attempt w) in Hb.
  destruct quiet as [Hctx Hlim].
  unfold bind at 1. unfold bind at 1. rewrite Hb. cbv beta iota.
  unfold bind at 1. unfold log_Printf at 1. cbv beta iota.
  unfold bind at 1. unfold sleep_or_cancel at 1. rewrite Hctx.
  cbv beta iota. unfold limiter_Wait at 1. rewrite Hlim. cbv beta iota.
  apply fetchLoop_send.
Qed.

Lemma fetchLoop_out attempt lastErr w :
  loop 0 attempt lastErr w = (Err (ErrAfterRetries maxRetries lastErr), w).
Proof. reflexivity. Qed.
End Api.
End Iterations.

Section ImageIterations.
Variable env : Env.
Variable srcURL : string.
Hypothesis parses : url_parses env srcURL = true.

Let req := imageRequest srcURL.
Let loop := downloadLoop env srcURL.

Lemma downloadLoop_send fuel attempt w :
  (call r <- NewRequestWithContext env MethodGet srcURL None ;;
   call resp <- hc_Do env r ;;
   match resp with
   | Transport e => loop fuel (attempt + 1) (Some e)
   | Response status b =>
     if (status =? StatusTooManyRequests) || (500 <=? status) then
       loop fuel (attempt + 1) (Some (ErrDownload status))
     else if negb (status =? StatusOK) then
       fail (ErrDownload status)
     else
       let '(data, rerr) := ReadAll_LimitReader b imageBodyCap in
       match rerr with
       | Some e => loop fuel (attempt + 1) (Some e)
       | None => ret data
       end
   end) w = imageContinue env srcURL fuel attempt w.
Proof.
  unfold imageContinue, NewRequestWithContext, bind, hc_Do. rewrite parses.
  cbv zeta.
  unfold ret at 1. cbv beta iota zeta.
  fold (imageRequest srcURL). fold req. fold (sent req w).
  destruct (http_do env (tick w) req) as [e | status b]; cbn [imageVerdict].
  - reflexivity.
  - destruct ((status =? StatusTooManyRequests) || (500 <=? status));
      [reflexivity |].
    destruct (negb (status =? StatusOK)); [reflexivity |].
    destruct (ReadAll_LimitReader b imageBodyCap) as [data rerr].
    cbn [fst snd]. destruct rerr; reflexivity.
Qed.

Lemma downloadLoop_first fuel lastErr w :
  loop (S fuel) 0 lastErr w = imageContinue env srcURL fuel 0 w.
Proof.
  unfold loop at 1. cbn [downloadLoop]. cbn [Z.ltb Z.compare].
  unfold bind at 1. unfold ret at 1. cbv beta iota.
  apply downloadLoop_send.
Qed.

(** A retry sleeps and sends: the bucket is not consulted. *)
Lemma downloadLoop_retry fuel attempt lastErr w :
  (forall n, ctx_done env n = false) ->
  attempt = 1 \/ attempt = 2 ->
  loop (S fuel) attempt lastErr w
  = imageContinue env srcURL fuel attempt (imageBackedOff env attempt w).
Proof.
  intros Hctx Hatt. unfold loop at 1. cbn [downloadLoop].
  replace (0 <? attempt) with true by (destruct Hatt; subst; reflexivity).
  destruct (backoffDuration_retry env attempt w Hatt) as [Hb _].
  cbv zeta in Hb. fold (backoffAt env attempt w) in Hb.
  unfold bind at 1. unfold bind at 1. rewrite Hb. cbv beta iota.
  unfold sleep_or_cancel at 1. rewrite Hctx. cbv beta iota.
  apply downloadLoop_send.
Qed.

Lemma downloadLoop_out attempt lastErr w :
  loop 0 attempt lastErr w = (Err (ErrAfterRetries maxRetries lastErr), w).
Proof. reflexivity. Qed.
End ImageIterations.

Lemma retryable_apiVerdict source r :
  retryable r = true -> apiVerdict source r = Retry (apiCause source r).
Proof.
  destruct r as [e | status b]; cbn [retryable apiVerdict apiCause];
    [reflexivity |].
  intros ->. reflexivity.
Qed.

Lemma terminal_apiVerdict source r :
  terminal r = true -> apiVerdict source r = Stop (apiCause source r).
Proof.
  destruct r as [e | status b]; cbn [terminal apiVerdict apiCause];
    [discriminate |].
  destruct ((status =? StatusTooManyRequests) || (500 <=? status));
    [discriminate |].
  cbn [negb andb]. intros ->. reflexivity.
Qed.

Lemma retryable_imageVerdict r :
  retryable r = true -> imageVerdict r = Retry (imageCause r).
Proof.
  destruct r as [e | status b]; cbn [retryable imageVerdict imageCause];
    [reflexivity |].
  intros ->. reflexivity.
Qed.

Lemma terminal_imageVerdict r :
  terminal r = true -> imageVerdict r = Stop (imageCause r).
Proof.
  destruct r as [e | status b]; cbn [terminal imageVerdict imageCause];
    [discriminate |].
  destruct ((status =? StatusTooManyRequests) || (500 <=? status));
    [discriminate |].
  cbn [negb andb]. intros ->. reflexivity.
Qed.

Lemma sends_sent req w : sends (sent req w) = S (sends w).
Proof. reflexivity. Qed.

Lemma sends_apiBackedOff env source limiter attempt w :
  sends (apiBackedOff env source limiter attempt w) = sends w.
Proof. reflexivity. Qed.

Lemma sends_imageBackedOff env attempt w :
  sends (imageBackedOff env attempt w) = sends w.
Proof. reflexivity. Qed.

(** ** C2: the retry bound *)

(** C2.  With the context alive and the bucket granting, a request that
    [fetchWithRetry] can build and whose every response is a 429, a 5xx
    or a transport failure is sent exactly 3 times, and the call returns
    the one error "after 3 retries" that wraps the cause of the third
    attempt (the response read at the ninth tick of the call); a request
    whose every response is another status than 200 is sent exactly once
    and its error is returned at once. *)
Theorem fetchWithRetry_retry_bound env method url reqBody source limiter w :
  undisturbed env ->
  url_parses env url = true ->
  let req := apiRequest method url reqBody in
  let run := fetchWithRetry env method url reqBody source limiter w in
  ((forall n, retryable (http_do env n req) = true) ->
   let third := http_do env (8 + tick w) req in
   fst run = Err (ErrAfterRetries 3 (Some (apiCause source third)))
   /\ sends (snd run) = (sends w + 3)%nat
   /\ tick (snd run) = (9 + tick w)%nat)
  /\
  ((forall n, terminal (http_do env n req) = true) ->
   fst run = Err (apiCause source (http_do env (tick w) req))
   /\ sends (snd run) = (sends w + 1)%nat).
Proof.
  intros Hq Hurl req run. subst run. unfold fetchWithRetry.
  change (Z.to_nat maxRetries) with 3%nat.
  split.
  - intros Hall.
    rewrite fetchLoop_first by assumption. unfold apiContinue.
    fold req. rewrite retryable_apiVerdict by apply Hall.
    change (0 + 1) with 1.
    rewrite fetchLoop_retry by (auto). unfold apiContinue.
    fold req. rewrite retryable_apiVerdict by apply Hall.
    change (1 + 1) with 2.
    rewrite fetchLoop_retry by (auto). unfold apiContinue.
    fold req. rewrite retryable_apiVerdict by apply Hall.
    rewrite fetchLoop_out. cbn [fst snd].
    split; [reflexivity |]. split.
    + repeat (rewrite sends_sent || rewrite sends_apiBackedOff). lia.
    + reflexivity.
  - intros Hall.
    rewrite fetchLoop_first by assumption. unfold apiContinue.
    fold req. rewrite terminal_apiVerdict by apply Hall.
    cbn [fst snd]. split; [reflexivity |].
    rewrite sends_sent. lia.
Qed.

Lemma calm_undisturbed http decode : undisturbed (calm http decode).
Proof. split; reflexivity. Qed.

Lemma fetchWithRetry_retry_bound_witness :
  (let run := fetchWithRetry env_500 MethodGet waifuImSearchURL None
                "waifu.im" WaifuImLimiter empty_world in
   fst run = Err (ErrAfterRetries 3 (Some (ErrReturned "waifu.im" 500)))
   /\ sends (snd run) = 3%nat /\ tick (snd run) = 9%nat)
  /\
  (let run := fetchWithRetry env_404 MethodGet waifuImSearchURL None
                "waifu.im" WaifuImLimiter empty_world in
   fst run = Err (ErrReturned "waifu.im" 404) /\ sends (snd run) = 1%nat).
Proof.
  split.
  - apply (proj1 (fetchWithRetry_retry_bound env_500 MethodGet
                    waifuImSearchURL None "waifu.im" WaifuImLimiter
                    empty_world (calm_undisturbed _ _) eq_refl)).
    intros n. reflexivity.
  - apply (proj2 (fetchWithRetry_retry_bound env_404 MethodGet
                    waifuImSearchURL None "waifu.im" WaifuImLimiter
                    empty_world (calm_undisturbed _ _) eq_refl)).
    intros n. reflexivity.
Defined.

(** The same bound for [downloadImage]. *)
Lemma downloadImage_retry_bound env srcURL w :
  (forall n, ctx_done env n = false) ->
  url_parses env srcURL = true ->
  let req := imageRequest srcURL in
  let run := downloadImage env srcURL w in
  ((forall n, retryable (http_do env n req) = true) ->
   let third := http_do env (6 + tick w) req in
   fst run = Err (ErrAfterRetries 3 (Some (imageCause third)))
   /\ sends (snd run) = (sends w + 3)%nat)
  /\
  ((forall n, terminal (http_do env n req) = true) ->
   fst run = Err (imageCause (http_do env (tick w) req))
   /\ sends (snd run) = (sends w + 1)%nat).
Proof.
  intros Hctx Hurl req run. subst run. unfold downloadImage.
  change (Z.to_nat maxRetries) with 3%nat.
  split.
  - intros Hall.
    rewrite downloadLoop_first by assumption. unfold imageContinue.
    fold req. rewrite retryable_imageVerdict by apply Hall.
    change (0 + 1) with 1.
    rewrite downloadLoop_retry by auto. unfold imageContinue.
    fold req. rewrite retryable_imageVerdict by apply Hall.
    change (1 + 1) with 2.
    rewrite downloadLoop_retry by auto. unfold imageContinue.
    fold req. rewrite retryable_imageVerdict by apply Hall.
    rewrite downloadLoop_out. cbn [fst snd].
    split; [reflexivity |].
    repeat (rewrite sends_sent || rewrite sends_imageBackedOff). lia.
  - intros Hall.
    rewrite downloadLoop_first by assumption. unfold imageContinue.
    fold req. rewrite terminal_imageVerdict by apply Hall.
    cbn [fst snd]. split; [reflexivity |].
    rewrite sends_sent. lia.
Qed.

(** ** C3: the backoff the loops really sleep *)

Lemma slept_sent req w : slept (sent req w) = slept w.
Proof. reflexivity. Qed.

(** C3.  While every response is retryable, [fetchWithRetry] sleeps twice:
    2s plus a jitter below 1s before the first retry and 4s plus a jitter
    below 2s before the second.  The base delay of the k-th retry is
    2^k seconds, not 2^(k-1): the first retry does not wait 1s. *)
Theorem fetchWithRetry_backoff_delays env method url reqBody source limiter w :
  undisturbed env ->
  url_parses env url = true ->
  (forall n, retryable (http_do env n (apiRequest method url reqBody)) = true) ->
  let run := fetchWithRetry env method url reqBody source limiter w in
  exists j1 j2,
    slept (snd run) = (4 * Second + j2) :: (2 * Second + j1) :: slept w
    /\ 0 <= j1 < Second /\ 0 <= j2 < 2 * Second.
Proof.
  intros Hq Hurl Hall run. subst run. unfold fetchWithRetry.
  change (Z.to_nat maxRetries) with 3%nat.
  rewrite fetchLoop_first by assumption. unfold apiContinue at 1. cbv zeta.
  rewrite retryable_apiVerdict by apply Hall. change (0 + 1) with 1.
  rewrite fetchLoop_retry by auto. unfold apiContinue at 1. cbv zeta.
  rewrite retryable_apiVerdict by apply Hall. change (1 + 1) with 2.
  rewrite fetchLoop_retry by auto. unfold apiContinue at 1. cbv zeta.
  rewrite retryable_apiVerdict by apply Hall.
  rewrite fetchLoop_out. cbn [snd].
  set (req := apiRequest method url reqBody).
  set (w1 := sent req w).
  set (w2 := sent req (apiBackedOff env source limiter 1 w1)).
  exists (rand_raw env (tick w1) mod 1000000000),
         (rand_raw env (tick w2) mod 2000000000).
  split; [reflexivity |].
  pose proof (Z.mod_pos_bound (rand_raw env (tick w1)) 1000000000 ltac:(lia)).
  pose proof (Z.mod_pos_bound (rand_raw env (tick w2)) 2000000000 ltac:(lia)).
  unfold Second. lia.
Qed.

Lemma fetchWithRetry_backoff_delays_witness :
  exists j1 j2,
    slept (snd (fetchWithRetry env_500 MethodGet waifuImSearchURL None
                  "waifu.im" WaifuImLimiter empty_world))
    = (4 * Second + j2) :: (2 * Second + j1) :: slept empty_world
    /\ 0 <= j1 < Second /\ 0 <= j2 < 2 * Second.
Proof.
  apply (fetchWithRetry_backoff_delays env_500 MethodGet waifuImSearchURL None
           "waifu.im" WaifuImLimiter empty_world (calm_undisturbed _ _)
           eq_refl).
  intros n. reflexivity.
Defined.

(** [downloadImage] sleeps the same delays. *)
Lemma downloadImage_backoff_delays env srcURL w :
  (forall n, ctx_done env n = false) ->
  url_parses env srcURL = true ->
  (forall n, retryable (http_do env n (imageRequest srcURL)) = true) ->
  exists j1 j2,
    slept (snd (downloadImage env srcURL w))
    = (4 * Second + j2) :: (2 * Second + j1) :: slept w
    /\ 0 <= j1 < Second /\ 0 <= j2 < 2 * Second.
Proof.
  intros Hctx Hurl Hall. unfold downloadImage.
  change (Z.to_nat maxRetries) with 3%nat.
  rewrite downloadLoop_first by assumption. unfold imageContinue at 1.
  cbv zeta. rewrite retryable_imageVerdict by apply Hall.
  change (0 + 1) with 1.
  rewrite downloadLoop_retry by auto. unfold imageContinue at 1. cbv zeta.
  rewrite retryable_imageVerdict by apply Hall. change (1 + 1) with 2.
  rewrite downloadLoop_retry by auto. unfold imageContinue at 1. cbv zeta.
  rewrite retryable_imageVerdict by apply Hall.
  rewrite downloadLoop_out. cbn [snd].
  set (req := imageRequest srcURL).
  set (w1 := sent req w).
  set (w2 := sent req (imageBackedOff env 1 w1)).
  exists (rand_raw env (tick w1) mod 1000000000),
         (rand_raw env (tick w2) mod 2000000000).
  split; [reflexivity |].
  pose proof (Z.mod_pos_bound (rand_raw env (tick w1)) 1000000000 ltac:(lia)).
  pose proof (Z.mod_pos_bound (rand_raw env (tick w2)) 2000000000 ltac:(lia)).
  unfold Second. lia.
Qed.

(** The same call, evaluated: the first retry is logged and slept as 2s. *)
Example fetchWithRetry_env_500_history :
  let req := apiRequest MethodGet waifuImSearchURL None in
  history (snd (fetchWithRetry env_500 MethodGet waifuImSearchURL None
                  "waifu.im" WaifuImLimiter empty_world))
  = [ EvSend req;
      EvLog (LogRetry "waifu.im" 1 2000000000); EvSleep 2000000000;
      EvToken WaifuImLimiter; EvSend req;
      EvLog (LogRetry "waifu.im" 2 4000000000); EvSleep 4000000000;
      EvToken WaifuImLimiter; EvSend req ].
Proof. reflexivity. Qed.

(** ** Calls that leave files and catalog alone *)

Section Steps.
Variable ok : Event -> Prop.

Lemma steps_trans a b c : steps ok a b -> steps ok b c -> steps ok a c.
Proof.
  intros Hab Hbc. induction Hbc.
  - assumption.
  - apply steps_advance. auto.
  - apply steps_emit; auto.
Qed.

Lemma steps_store w w' :
  steps ok w w' ->
  files w' = files w /\ rows w' = rows w /\ db_seq w' = db_seq w
  /\ last_rowid w' = last_rowid w.
Proof. induction 1; cbn; auto. Qed.

Lemma steps_trace w w' :
  steps ok w w' ->
  exists new, trace w' = new ++ trace w /\ Forall ok new.
Proof.
  induction 1 as [w | w w' _ [new [E F]] | e w w' He _ [new [E F]]].
  - exists []. split; [reflexivity | constructor].
  - exists new. split; assumption.
  - exists (e :: new). split.
    + cbn. rewrite E. reflexivity.
    + constructor; assumption.
Qed.

Lemma steps_tick w w' : steps ok w w' -> (tick w <= tick w')%nat.
Proof. induction 1; cbn; lia. Qed.

Lemma confined_ret {A} (a : A) : confined ok (ret a).
Proof. intros w. apply steps_refl. Qed.

Lemma confined_fail {A} e : confined ok (@fail A e).
Proof. intros w. apply steps_refl. Qed.

Lemma confined_bind {A B} (m : M A) (k : A -> M B) :
  confined ok m -> (forall a, confined ok (k a)) -> confined ok (bind m k).
Proof.
  intros Hm Hk w. unfold bind.
  specialize (Hm w). destruct (m w) as [[a | e |] w1]; cbn [snd] in *.
  - eapply steps_trans; [exact Hm | apply Hk].
  - exact Hm.
  - exact Hm.
Qed.

Variable env : Env.

Lemma confined_rand n : confined ok (rand_Int63n env n).
Proof.
  intros w. unfold rand_Int63n. destruct (n <=? 0); cbn [snd].
  - apply steps_refl.
  - apply steps_advance, steps_refl.
Qed.

Lemma confined_backoffDuration attempt :
  confined ok (backoffDuration env attempt).
Proof.
  unfold backoffDuration. apply confined_bind.
  - apply confined_rand.
  - intros j. apply confined_ret.
Qed.

Lemma confined_NewRequest method url body :
  confined ok (NewRequestWithContext env method url body).
Proof.
  unfold NewRequestWithContext. destruct (url_parses env url).
  - apply confined_ret.
  - apply confined_fail.
Qed.

Lemma confined_sleep d : ok (EvSleep d) -> confined ok (sleep_or_cancel env d).
Proof.
  intros Hok w. unfold sleep_or_cancel. destruct (ctx_done env (tick w));
    cbn [snd].
  - apply steps_advance, steps_refl.
  - apply steps_emit; [assumption |]. apply steps_advance, steps_refl.
Qed.

Lemma confined_Wait l : ok (EvToken l) -> confined ok (limiter_Wait env l).
Proof.
  intros Hok w. unfold limiter_Wait. destruct (limiter_err env (tick w) l);
    cbn [snd].
  - apply steps_advance, steps_refl.
  - apply steps_emit; [assumption |]. apply steps_advance, steps_refl.
Qed.

Lemma confined_log m : ok (EvLog m) -> confined ok (log_Printf m).
Proof. intros Hok w. cbn. apply steps_emit; [assumption | apply steps_refl]. Qed.

Lemma confined_Do r : ok (EvSend r) -> confined ok (hc_Do env r).
Proof.
  intros Hok w. cbn. apply steps_emit; [assumption |].
  apply steps_advance, steps_refl.
Qed.

Hypothesis ok_sleep : forall d, ok (EvSleep d).
Hypothesis ok_send : forall r, ok (EvSend r).

(** [downloadImage] sleeps and sends, nothing else. *)
Lemma confined_downloadLoop srcURL fuel :
  forall attempt lastErr,
    confined ok (downloadLoop env srcURL fuel attempt lastErr).
Proof.
  induction fuel as [| fuel IH]; intros attempt lastErr; cbn [downloadLoop].
  - apply confined_fail.
  - apply confined_bind.
    { destruct (0 <? attempt); [| apply confined_ret].
      apply confined_bind; [apply confined_backoffDuration |].
      intros d. apply confined_sleep, ok_sleep. }
    intros _. apply confined_bind; [apply confined_NewRequest |].
    intros req. apply confined_bind; [apply confined_Do, ok_send |].
    intros [e | status b]; [apply IH |].
    destruct ((status =? StatusTooManyRequests) || (500 <=? status));
      [apply IH |].
    destruct (negb (status =? StatusOK)); [apply confined_fail |].
    destruct (ReadAll_LimitReader b imageBodyCap) as [data [e |]];
      [apply IH | apply confined_ret].
Qed.

Lemma confined_downloadImage srcURL : confined ok (downloadImage env srcURL).
Proof. apply confined_downloadLoop. Qed.

Hypothesis ok_log : forall m, ok (EvLog m).
Hypothesis ok_token : forall l, ok (EvToken l).

Lemma confined_fetchLoop method url reqBody source limiter fuel :
  forall attempt lastErr,
    confined ok
      (fetchLoop env method url reqBody source limiter fuel attempt lastErr).
Proof.
  induction fuel as [| fuel IH]; intros attempt lastErr; cbn [fetchLoop].
  - apply confined_fail.
  - apply confined_bind.
    { destruct (0 <? attempt); [| apply confined_ret].
      apply confined_bind; [apply confined_backoffDuration |].
      intros d. apply confined_bind; [apply confined_log, ok_log |].
      intros _. apply confined_bind; [apply confined_sleep, ok_sleep |].
      intros _. apply confined_Wait, ok_token. }
    intros _. apply confined_bind; [apply confined_NewRequest |].
    intros req. apply confined_bind; [apply confined_Do, ok_send |].
    intros [e | status b]; [apply IH |].
    destruct (ReadAll_LimitReader b apiBodyCap) as [data rerr].
    destruct ((status =? StatusTooManyRequests) || (500 <=? status));
      [apply IH |].
    destruct (negb (status =? StatusOK)); [apply confined_fail |].
    destruct rerr; [apply IH | apply confined_ret].
Qed.

Lemma confined_fetchWithRetry method url reqBody source limiter :
  confined ok (fetchWithRetry env method url reqBody source limiter).
Proof. apply confined_fetchLoop. Qed.
End Steps.

Lemma steps_tokens w w' : steps no_token w w' -> tokens w' = tokens w.
Proof.
  intros H. apply steps_trace in H as [new [E F]].
  unfold tokens. rewrite E, List.filter_app, length_app.
  replace (List.filter is_token new) with (@nil Event); [reflexivity |].
  clear E. induction F as [| e new He _ IH]; [reflexivity |].
  cbn. unfold no_token in He. rewrite He. exact IH.
Qed.

(** ** C9: tokens on retry *)

Lemma tokens_sent req w : tokens (sent req w) = tokens w.
Proof. reflexivity. Qed.

Lemma tokens_apiBackedOff env source limiter attempt w :
  tokens (apiBackedOff env source limiter attempt w) = S (tokens w).
Proof. reflexivity. Qed.

(** [fetchWithRetry] takes the bucket's token again before each retry. *)
Lemma fetchWithRetry_retakes_token env method url reqBody source limiter w :
  undisturbed env ->
  url_parses env url = true ->
  (forall n, retryable (http_do env n (apiRequest method url reqBody)) = true) ->
  let run := fetchWithRetry env method url reqBody source limiter w in
  sends (snd run) = (sends w + 3)%nat /\ tokens (snd run) = (tokens w + 2)%nat.
Proof.
  intros Hq Hurl Hall run. subst run. unfold fetchWithRetry.
  change (Z.to_nat maxRetries) with 3%nat.
  rewrite fetchLoop_first by assumption. unfold apiContinue. cbv zeta.
  rewrite retryable_apiVerdict by apply Hall. change (0 + 1) with 1.
  rewrite fetchLoop_retry by auto. unfold apiContinue. cbv zeta.
  rewrite retryable_apiVerdict by apply Hall. change (1 + 1) with 2.
  rewrite fetchLoop_retry by auto. unfold apiContinue. cbv zeta.
  rewrite retryable_apiVerdict by apply Hall.
  rewrite fetchLoop_out. cbn [snd]. split.
  - repeat (rewrite sends_sent || rewrite sends_apiBackedOff). lia.
  - repeat (rewrite tokens_sent || rewrite tokens_apiBackedOff). lia.
Qed.

(** C9.  [downloadImage] never takes a token, whatever it sends: the one
    token of a candidate is the one [processImage] takes before the first
    attempt.  Against [env_flaky] the candidate's request goes out twice
    on that single token. *)
Theorem downloadImage_retries_take_no_token :
  (forall env srcURL w, tokens (snd (downloadImage env srcURL w)) = tokens w)
  /\
  (let w' := snd (processImage env_flaky testIngester "https://i.example/a.png"
                    "waifu.pics" "sfw" 0 0 empty_world) in
   sends w' = 2%nat /\ tokens w' = 1%nat).
Proof.
  split.
  - intros env srcURL w. apply steps_tokens.
    apply confined_downloadImage; intros; reflexivity.
  - vm_compute. split; reflexivity.
Qed.

(** ** C1: the byte cap *)

Lemma ReadAll_LimitReader_over b cap :
  0 <= cap < Z.of_nat (length (body_bytes b)) ->
  ReadAll_LimitReader b cap = (firstn (Z.to_nat cap) (body_bytes b), None)
  /\ Z.of_nat (length (firstn (Z.to_nat cap) (body_bytes b))) = cap.
Proof.
  intros H. unfold ReadAll_LimitReader.
  replace (cap <=? Z.of_nat (length (body_bytes b))) with true
    by (symmetry; apply Z.leb_le; lia).
  split; [reflexivity |].
  rewrite length_firstn. lia.
Qed.

Lemma apiBodyCap_value : apiBodyCap = 1048576.
Proof. reflexivity. Qed.

Lemma imageBodyCap_value : imageBodyCap = 10485760.
Proof. reflexivity. Qed.

Lemma apiVerdict_over source b :
  apiBodyCap < Z.of_nat (length (body_bytes b)) ->
  apiVerdict source (Response 200 b)
  = Deliver (firstn (Z.to_nat apiBodyCap) (body_bytes b)).
Proof.
  intros H. cbn [apiVerdict].
  change ((200 =? StatusTooManyRequests) || (500 <=? 200)) with false.
  change (negb (200 =? StatusOK)) with false. cbv iota.
  destruct (ReadAll_LimitReader_over b apiBodyCap) as [-> _].
  - rewrite apiBodyCap_value in *. lia.
  - reflexivity.
Qed.

Lemma imageVerdict_over b :
  imageBodyCap < Z.of_nat (length (body_bytes b)) ->
  imageVerdict (Response 200 b)
  = Deliver (firstn (Z.to_nat imageBodyCap) (body_bytes b)).
Proof.
  intros H. cbn [imageVerdict].
  change ((200 =? StatusTooManyRequests) || (500 <=? 200)) with false.
  change (negb (200 =? StatusOK)) with false. cbv iota.
  destruct (ReadAll_LimitReader_over b imageBodyCap) as [-> _].
  - rewrite imageBodyCap_value in *. lia.
  - reflexivity.
Qed.

Lemma oversized_length cap :
  0 <= cap -> Z.of_nat (length (body_bytes (oversized cap))) = cap + 1.
Proof.
  intros H. unfold oversized. cbn [body_bytes].
  rewrite repeat_length. lia.
Qed.

(** C1, as the code has it.  A 200 response whose body is longer than the
    cap is read successfully: the API fetch returns exactly the first
    1 MiB of the body and the image download exactly the first 10 MiB.
    The cap bounds what is kept; going over it is not an error. *)
Theorem capped_read_truncates env w b :
  (forall method url reqBody source limiter,
     url_parses env url = true ->
     http_do env (tick w) (apiRequest method url reqBody) = Response 200 b ->
     apiBodyCap < Z.of_nat (length (body_bytes b)) ->
     exists data,
       fst (fetchWithRetry env method url reqBody source limiter w) = Ok data
       /\ data = firstn (Z.to_nat apiBodyCap) (body_bytes b)
       /\ Z.of_nat (length data) = 1048576)
  /\
  (forall srcURL,
     url_parses env srcURL = true ->
     http_do env (tick w) (imageRequest srcURL) = Response 200 b ->
     imageBodyCap < Z.of_nat (length (body_bytes b)) ->
     exists data,
       fst (downloadImage env srcURL w) = Ok data
       /\ data = firstn (Z.to_nat imageBodyCap) (body_bytes b)
       /\ Z.of_nat (length data) = 10485760).
Proof.
  split.
  - intros method url reqBody source limiter Hurl Hresp Hlen.
    unfold fetchWithRetry. change (Z.to_nat maxRetries) with 3%nat.
    rewrite fetchLoop_first by assumption. unfold apiContinue. cbv zeta.
    rewrite Hresp, apiVerdict_over by assumption. cbn [fst].
    eexists. split; [reflexivity |]. split; [reflexivity |].
    apply ReadAll_LimitReader_over. rewrite apiBodyCap_value in *. lia.
  - intros srcURL Hurl Hresp Hlen.
    unfold downloadImage. change (Z.to_nat maxRetries) with 3%nat.
    rewrite downloadLoop_first by assumption. unfold imageContinue. cbv zeta.
    rewrite Hresp, imageVerdict_over by assumption. cbn [fst].
    eexists. split; [reflexivity |]. split; [reflexivity |].
    apply ReadAll_LimitReader_over. rewrite imageBodyCap_value in *. lia.
Qed.

Lemma capped_read_truncates_witness :
  (exists data,
     fst (fetchWithRetry env_oversized_api MethodGet waifuImSearchURL None
            "waifu.im" WaifuImLimiter empty_world) = Ok data
     /\ data = firstn (Z.to_nat apiBodyCap) (body_bytes (oversized apiBodyCap))
     /\ Z.of_nat (length data) = 1048576)
  /\
  (exists data,
     fst (downloadImage env_oversized_image "https://i.example/a.png"
            empty_world) = Ok data
     /\ data = firstn (Z.to_nat imageBodyCap)
                 (body_bytes (oversized imageBodyCap))
     /\ Z.of_nat (length data) = 10485760).
Proof.
  split.
  - apply (proj1 (capped_read_truncates env_oversized_api empty_world
                    (oversized apiBodyCap))).
    + reflexivity.
    + reflexivity.
    + rewrite oversized_length by (rewrite apiBodyCap_value; lia). lia.
  - apply (proj2 (capped_read_truncates env_oversized_image empty_world
                    (oversized imageBodyCap))).
    + reflexivity.
    + reflexivity.
    + rewrite oversized_length by (rewrite imageBodyCap_value; lia). lia.
Defined.

(** A body of 1 MiB + 1 bytes behind a 200: the claim wants an error, the
    API fetch returns 1 MiB of it as a success; likewise the image
    download with 10 MiB + 1 bytes. *)
Lemma oversized_body_is_returned :
  let api := fetchWithRetry env_oversized_api MethodGet waifuImSearchURL None
               "waifu.im" WaifuImLimiter empty_world in
  let img := downloadImage env_oversized_image "https://i.example/a.png"
               empty_world in
  (apiBodyCap < Z.of_nat (length (body_bytes (oversized apiBodyCap)))
   /\ is_Err (fst api) = false
   /\ exists data, fst api = Ok data /\ Z.of_nat (length data) = apiBodyCap)
  /\
  (imageBodyCap < Z.of_nat (length (body_bytes (oversized imageBodyCap)))
   /\ is_Err (fst img) = false
   /\ exists data, fst img = Ok data /\ Z.of_nat (length data) = imageBodyCap).
Proof.
  assert (Ha : apiBodyCap < Z.of_nat (length (body_bytes (oversized apiBodyCap))))
    by (rewrite oversized_length by (rewrite apiBodyCap_value; lia); lia).
  assert (Hi : imageBodyCap
               < Z.of_nat (length (body_bytes (oversized imageBodyCap))))
    by (rewrite oversized_length by (rewrite imageBodyCap_value; lia); lia).
  cbv zeta. split.
  - split; [exact Ha |].
    unfold fetchWithRetry. change (Z.to_nat maxRetries) with 3%nat.
    rewrite fetchLoop_first by reflexivity. unfold apiContinue. cbv zeta.
    change (http_do env_oversized_api (tick empty_world)
              (apiRequest MethodGet waifuImSearchURL None))
      with (Response 200 (oversized apiBodyCap)).
    rewrite apiVerdict_over by exact Ha. cbn [fst is_Err].
    split; [reflexivity |]. eexists. split; [reflexivity |].
    rewrite (proj2 (ReadAll_LimitReader_over (oversized apiBodyCap) apiBodyCap
                      ltac:(rewrite apiBodyCap_value in *; lia))).
    reflexivity.
  - split; [exact Hi |].
    unfold downloadImage. change (Z.to_nat maxRetries) with 3%nat.
    rewrite downloadLoop_first by reflexivity. unfold imageContinue. cbv zeta.
    change (http_do env_oversized_image (tick empty_world)
              (imageRequest "https://i.example/a.png"))
      with (Response 200 (oversized imageBodyCap)).
    rewrite imageVerdict_over by exact Hi. cbn [fst is_Err].
    split; [reflexivity |]. eexists. split; [reflexivity |].
    rewrite (proj2 (ReadAll_LimitReader_over (oversized imageBodyCap)
                      imageBodyCap
                      ltac:(rewrite imageBodyCap_value in *; lia))).
    reflexivity.
Qed.

(** ** C4: the resize law *)

Lemma targetDimensions_wider origW origH maxWidth :
  maxWidth < origW ->
  targetDimensions origW origH maxWidth
  = (maxWidth,
     int_of_float64
       (f64mul (float64_of_int origH)
          (f64div (float64_of_int maxWidth) (float64_of_int origW)))).
Proof.
  intros H. unfold targetDimensions.
  replace (maxWidth <? origW) with true by (symmetry; apply Z.ltb_lt; lia).
  reflexivity.
Qed.

Lemma targetDimensions_within origW origH maxWidth :
  origW <= maxWidth -> targetDimensions origW origH maxWidth = (origW, origH).
Proof.
  intros H. unfold targetDimensions.
  replace (maxWidth <? origW) with false by (symmetry; apply Z.ltb_ge; lia).
  reflexivity.
Qed.

(** C4, as the code has it.  When [ForTerminal] succeeds on an image of
    [Dx] x [Dy]: if [Dx > maxWidth] the reported width is [maxWidth] and
    the reported height is the float64 product
    [float64(Dy) * (float64(maxWidth) / float64(Dx))] with its fraction
    dropped (not rounded to nearest); if [Dx <= maxWidth] the reported
    dimensions are [Dx] and [Dy], never more. *)
Theorem ForTerminal_dimensions env data maxWidth img format buf w h :
  decodeImage env data = Ok (img, format) ->
  ForTerminal env data maxWidth = Ok (buf, w, h) ->
  (maxWidth < Dx img ->
   w = maxWidth
   /\ h = int_of_float64
            (f64mul (float64_of_int (Dy img))
               (f64div (float64_of_int maxWidth) (float64_of_int (Dx img)))))
  /\ (Dx img <= maxWidth -> w = Dx img /\ h = Dy img).
Proof.
  intros Hdec Hrun. unfold ForTerminal in Hrun. rewrite Hdec in Hrun.
  destruct (targetDimensions (Dx img) (Dy img) maxWidth) as [newW newH] eqn:Hdim.
  destruct (webp_Encode env _) as [e | out]; [discriminate |].
  injection Hrun as _ -> ->.
  split; intros Hcmp.
  - rewrite targetDimensions_wider in Hdim by assumption.
    injection Hdim as <- <-. split; reflexivity.
  - rewrite targetDimensions_within in Hdim by assumption.
    injection Hdim as <- <-. split; reflexivity.
Qed.

Lemma ForTerminal_dimensions_witness :
  (480 < 1000 -> 480 = 480 /\ 384 = int_of_float64
            (f64mul (float64_of_int 802)
               (f64div (float64_of_int 480) (float64_of_int 1000))))
  /\ (1000 <= 480 -> 480 = 1000 /\ 384 = 802).
Proof.
  apply (ForTerminal_dimensions env_1000x802 [x89; x50] 480
           {| Dx := 1000; Dy := 802; Pix := [x89; x50] |} "png"
           [x89; x50] 480 384); reflexivity.
Defined.

(** A 1000 x 802 image under the bound 480: 802 * 480 / 1000 = 384.96
    rounds to 385, and [ForTerminal] reports 384. *)
Lemma ForTerminal_does_not_round :
  decodeImage env_1000x802 [x89; x50]
  = Ok ({| Dx := 1000; Dy := 802; Pix := [x89; x50] |}, "png")
  /\ ForTerminal env_1000x802 [x89; x50] 480 = Ok ([x89; x50], 480, 384)
  /\ round_div (802 * 480) 1000 = 385.
Proof. split; [| split]; reflexivity. Qed.

(** The repository's own tests: 1000 x 800 gives 480 x 384 and 200 x 300
    is left alone. *)
Example TestForTerminal_Resize :
  ForTerminal env_1000x800 [x89] 480 = Ok ([x89], 480, 384).
Proof. reflexivity. Qed.

Example TestForTerminal_SmallImage :
  ForTerminal env_200x300 [x89] 480 = Ok ([x89], 200, 300).
Proof. reflexivity. Qed.

(** The product is taken in float64: a 537 x 537 square comes out as
    480 x 479, one less than the exact quotient. *)
Example ForTerminal_square_537 :
  ForTerminal env_537x537 [x89] 480 = Ok ([x89], 480, 479).
Proof. reflexivity. Qed.

(** ** processImage, outcome by outcome *)

Lemma decodeImage_no_panic env data : decodeImage env data <> Panic.
Proof.
  unfold decodeImage.
  destruct (image_Decode env data) as [[img f] |]; [discriminate |].
  destruct (webp_Decode env data); [discriminate |].
  destruct (png_Decode env data); [discriminate |].
  destruct (jpeg_Decode env data); [discriminate |].
  destruct (gif_Decode env data); discriminate.
Qed.

Lemma ForTerminal_no_panic env data maxWidth :
  ForTerminal env data maxWidth <> Panic.
Proof.
  unfold ForTerminal. pose proof (decodeImage_no_panic env data) as Hd.
  destruct (decodeImage env data) as [[img f] | e |]; [| discriminate | congruence].
  destruct (targetDimensions _ _ _) as [newW newH].
  destruct (webp_Encode env _); discriminate.
Qed.

Lemma HasHash_count hash rs :
  (0 <? Z.of_nat (length (List.filter (fun r => String.eqb (Hash r) hash) rs)))
  = hash_present hash rs.
Proof.
  unfold hash_present. induction rs as [| r rs IH]; [reflexivity |].
  cbn [List.filter existsb]. destruct (String.eqb (Hash r) hash); cbn [orb].
  - cbn [length]. apply Z.ltb_lt. lia.
  - exact IH.
Qed.

(** The backoff never panics at the attempts a loop of [fuel <= 3] reaches. *)
Lemma backoffDuration_no_panic env attempt w :
  0 <= attempt <= 2 -> fst (backoffDuration env attempt w) <> Panic.
Proof.
  intros H.
  assert (attempt = 0 \/ attempt = 1 \/ attempt = 2) as [-> | Hatt] by lia.
  - unfold backoffDuration, bind, rand_Int63n.
    change (Z.quot (wrap64 (shl64 1 0 * Second)) 2 <=? 0) with false.
    cbv iota beta. discriminate.
  - destruct (backoffDuration_retry env attempt w Hatt) as [-> _].
    discriminate.
Qed.

Lemma downloadLoop_no_panic env srcURL fuel :
  forall attempt lastErr w,
    0 <= attempt -> attempt + Z.of_nat fuel <= 3 ->
    fst (downloadLoop env srcURL fuel attempt lastErr w) <> Panic.
Proof.
  induction fuel as [| fuel IH]; intros attempt lastErr w H0 H3;
    cbn [downloadLoop]; [discriminate |].
  assert (Hnext : forall le w', fst (downloadLoop env srcURL fuel (attempt + 1)
                                       le w') <> Panic)
    by (intros; apply IH; lia).
  unfold bind at 1.
  destruct (0 <? attempt).
  - unfold bind at 1.
    pose proof (backoffDuration_no_panic env attempt w ltac:(lia)) as Hb.
    destruct (backoffDuration env attempt w) as [[d | e |] w1]; cbn [fst] in Hb;
      [| discriminate | congruence].
    unfold sleep_or_cancel. destruct (ctx_done env (tick w1)); [discriminate |].
    unfold bind, NewRequestWithContext.
    destruct (url_parses env srcURL); [| discriminate].
    unfold ret at 1, hc_Do.
    destruct (http_do env _ _) as [e | status b]; [apply Hnext |].
    destruct ((status =? StatusTooManyRequests) || (500 <=? status));
      [apply Hnext |].
    destruct (negb (status =? StatusOK)); [discriminate |].
    destruct (ReadAll_LimitReader b imageBodyCap) as [data [e |]];
      [apply Hnext | discriminate].
  - unfold ret at 1. unfold bind, NewRequestWithContext.
    destruct (url_parses env srcURL); [| discriminate].
    unfold ret at 1, hc_Do.
    destruct (http_do env _ _) as [e | status b]; [apply Hnext |].
    destruct ((status =? StatusTooManyRequests) || (500 <=? status));
      [apply Hnext |].
    destruct (negb (status =? StatusOK)); [discriminate |].
    destruct (ReadAll_LimitReader b imageBodyCap) as [data [e |]];
      [apply Hnext | discriminate].
Qed.

Lemma downloadImage_no_panic env srcURL w :
  fst (downloadImage env srcURL w) <> Panic.
Proof. apply downloadLoop_no_panic; unfold maxRetries; lia. Qed.

Lemma fetchLoop_no_panic env method url reqBody source limiter fuel :
  forall attempt lastErr w,
    0 <= attempt -> attempt + Z.of_nat fuel <= 3 ->
    fst (fetchLoop env method url reqBody source limiter fuel attempt lastErr w)
    <> Panic.
Proof.
  induction fuel as [| fuel IH]; intros attempt lastErr w H0 H3;
    cbn [fetchLoop]; [discriminate |].
  assert (Hnext : forall le w',
            fst (fetchLoop env method url reqBody source limiter fuel
                   (attempt + 1) le w') <> Panic)
    by (intros; apply IH; lia).
  assert (Hsend : forall w1,
    fst ((call r <- NewRequestWithContext env method url reqBody ;;
          let r := match reqBody with
                   | Some _ => Header_Set "Content-Type" "application/json" r
                   | None => r
                   end in
          let r := Header_Set "Accept" "application/json" r in
          call resp <- hc_Do env r ;;
          match resp with
          | Transport e =>
            fetchLoop env method url reqBody source limiter fuel (attempt + 1)
              (Some e)
          | Response status b =>
            let '(body, rerr) := ReadAll_LimitReader b apiBodyCap in
            if (status =? StatusTooManyRequests) || (500 <=? status) then
              fetchLoop env method url reqBody source limiter fuel
                (attempt + 1) (Some (ErrReturned source status))
            else if negb (status =? StatusOK) then
              fail (ErrReturned source status)
            else match rerr with
                 | Some e =>
                   fetchLoop env method url reqBody source limiter fuel
                     (attempt + 1) (Some e)
                 | None => ret body
                 end
          end) w1) <> Panic).
  { intros w1. unfold bind, NewRequestWithContext.
    destruct (url_parses env url); [| discriminate].
    unfold ret at 1, hc_Do. cbv zeta.
    destruct (http_do env _ _) as [e | status b]; [apply Hnext |].
    destruct (ReadAll_LimitReader b apiBodyCap) as [data rerr].
    destruct ((status =? StatusTooManyRequests) || (500 <=? status));
      [apply Hnext |].
    destruct (negb (status =? StatusOK)); [discriminate |].
    destruct rerr; [apply Hnext | discriminate]. }
  unfold bind at 1.
  destruct (0 <? attempt).
  - unfold bind at 1.
    pose proof (backoffDuration_no_panic env attempt w ltac:(lia)) as Hb.
    destruct (backoffDuration env attempt w) as [[d | e |] w1]; cbn [fst] in Hb;
      [| discriminate | congruence].
    unfold bind at 1. unfold log_Printf at 1. cbv beta iota.
    unfold bind at 1. unfold sleep_or_cancel at 1.
    destruct (ctx_done env _); [discriminate |].
    unfold limiter_Wait at 1. destruct (limiter_err env _ _); [discriminate |].
    apply Hsend.
  - unfold ret at 1. apply Hsend.
Qed.

Lemma fetchWithRetry_no_panic env method url reqBody source limiter w :
  fst (fetchWithRetry env method url reqBody source limiter w) <> Panic.
Proof. apply fetchLoop_no_panic; unfold maxRetries; lia. Qed.

(** Every run of processImage is one of the seven outcomes. *)
Lemma processImage_outcome env ing srcURL source category origW origH w :
  let run := processImage env ing srcURL source category origW origH w in
  Processed env ing srcURL source category origW origH w (fst run) (snd run).
Proof.
  cbv zeta.
  destruct (processImage env ing srcURL source category origW origH w)
    as [r w'] eqn:E.
  cbn [fst snd]. unfold processImage in E.
  unfold bind at 1 in E. unfold limiter_Wait at 1 in E.
  destruct (limiter_err env (tick w) DownloadLimiter) as [e |] eqn:Hlim.
  { injection E as <- <-. apply NoToken. exact Hlim. }
  fold (granted DownloadLimiter w) in E.
  unfold bind at 1 in E.
  pose proof (downloadImage_no_panic env srcURL (granted DownloadLimiter w))
    as Hnp.
  destruct (downloadImage env srcURL (granted DownloadLimiter w))
    as [[data | e |] w2] eqn:Hdl; cbn [fst] in Hnp; [| | congruence].
  2:{ injection E as <- <-. eapply DownloadFailed; eassumption. }
  unfold bind at 1 in E. unfold HasHash at 1 in E.
  destruct (db_err env (tick w2)) as [e |] eqn:Hq.
  { injection E as <- <-. eapply QueryFailed; eassumption. }
  rewrite HasHash_count in E.
  destruct (hash_present (contentHash env data) (rows w2)) eqn:Hdup.
  { injection E as <- <-. eapply Duplicate; eassumption. }
  pose proof (ForTerminal_no_panic env data 480) as Hft.
  assert (Hch : match ForTerminal env data 480 with
                | Ok (optimized, w0, h) => Some (optimized, w0, h)
                | Err _ => Some (data, origW, origH)
                | Panic => None
                end = Some (chosen env data origW origH)).
  { unfold chosen. destruct (ForTerminal env data 480) as [[[o w0] h] | e |];
      [reflexivity | reflexivity | congruence]. }
  rewrite Hch in E.
  pose proof (Stored env ing srcURL source category origW origH w data w2)
    as HS.
  pose proof (InsertFailed env ing srcURL source category origW origH w data w2)
    as HI.
  unfold record in HS.
  destruct (chosen env data origW origH) as [[optimized wd] ht].
  cbn [fst] in HS, HI.
  fold (imageName env data) in E. fold (imagePath env ing data) in E.
  unfold bind at 1 in E. unfold catch at 1 in E. unfold os_WriteFile at 1 in E.
  cbn [tick advance] in E.
  destruct (write_err env (S (tick w2)) (imagePath env ing data)) as [e |]
    eqn:Hwr.
  { injection E as <- <-. eapply WriteFailed; eassumption. }
  fold (written (imagePath env ing data) optimized (advance w2)) in E.
  unfold bind at 1 in E. unfold catch at 1 in E. unfold Insert at 1 in E.
  cbn [tick written emit set_files advance Hash rows] in E.
  destruct (db_err env (S (S (tick w2)))) as [e |] eqn:Hin.
  { unfold bind, os_Remove, fail in E. injection E as <- <-.
    apply HI; solve [assumption | reflexivity]. }
  rewrite Hdup in E. unfold ret in E. injection E as <- <-.
  apply HS; solve [assumption | reflexivity].
Qed.

Lemma downloadImage_frame env srcURL w r w2 :
  downloadImage env srcURL w = (r, w2) ->
  files w2 = files w /\ rows w2 = rows w
  /\ exists new, trace w2 = new ++ trace w /\ Forall no_disk new.
Proof.
  intros E.
  assert (H : steps no_disk w w2).
  { replace w2 with (snd (downloadImage env srcURL w)) by (rewrite E; reflexivity).
    apply confined_downloadImage; intros; reflexivity. }
  destruct (steps_store _ _ _ H) as (Hf & Hr & _).
  split; [exact Hf |]. split; [exact Hr |].
  apply steps_trace. exact H.
Qed.

(** Two outcomes of one run agree. *)
Ltac same_download :=
  repeat match goal with
  | H1 : downloadImage ?env ?u ?w = _, H2 : downloadImage ?env ?u ?w = _ |- _ =>
    rewrite H1 in H2; injection H2 as ? ?; subst
  end.

Ltac outcome_of_run H :=
  match type of H with
  | Processed ?env ?ing ?u ?s ?c ?ow ?oh ?w ?r ?w' =>
    inversion H; subst; same_download; try congruence
  end.

Lemma processImage_stored env ing srcURL source category origW origH w data w2 :
  limiter_err env (tick w) DownloadLimiter = None ->
  downloadImage env srcURL (granted DownloadLimiter w) = (Ok data, w2) ->
  db_err env (tick w2) = None ->
  hash_present (contentHash env data) (rows w2) = false ->
  write_err env (S (tick w2)) (imagePath env ing data) = None ->
  db_err env (S (S (tick w2))) = None ->
  processImage env ing srcURL source category origW origH w
  = (Ok 1,
     inserted env (record env srcURL source category origW origH data)
       (written (imagePath env ing data)
          (fst (fst (chosen env data origW origH))) (advance w2))).
Proof.
  intros Hlim Hdl Hq Hdup Hwr Hin.
  pose proof (processImage_outcome env ing srcURL source category origW origH w)
    as H. cbv zeta in H.
  destruct (processImage env ing srcURL source category origW origH w)
    as [r w'].
  cbn [fst snd] in H. outcome_of_run H.
Qed.

Lemma processImage_duplicate env ing srcURL source category origW origH w data w2 :
  limiter_err env (tick w) DownloadLimiter = None ->
  downloadImage env srcURL (granted DownloadLimiter w) = (Ok data, w2) ->
  db_err env (tick w2) = None ->
  hash_present (contentHash env data) (rows w2) = true ->
  processImage env ing srcURL source category origW origH w
  = (Ok 0, advance w2).
Proof.
  intros Hlim Hdl Hq Hdup.
  pose proof (processImage_outcome env ing srcURL source category origW origH w)
    as H. cbv zeta in H.
  destruct (processImage env ing srcURL source category origW origH w)
    as [r w'].
  cbn [fst snd] in H. outcome_of_run H.
Qed.

Lemma processImage_insert_failed env ing srcURL source category origW origH w
    data w2 e :
  limiter_err env (tick w) DownloadLimiter = None ->
  downloadImage env srcURL (granted DownloadLimiter w) = (Ok data, w2) ->
  db_err env (tick w2) = None ->
  hash_present (contentHash env data) (rows w2) = false ->
  write_err env (S (tick w2)) (imagePath env ing data) = None ->
  db_err env (S (S (tick w2))) = Some e ->
  processImage env ing srcURL source category origW origH w
  = (Err (ErrCatalogInsert e),
     rolledBack (imagePath env ing data)
       (written (imagePath env ing data)
          (fst (fst (chosen env data origW origH))) (advance w2))).
Proof.
  intros Hlim Hdl Hq Hdup Hwr Hin.
  pose proof (processImage_outcome env ing srcURL source category origW origH w)
    as H. cbv zeta in H.
  destruct (processImage env ing srcURL source category origW origH w)
    as [r w'].
  cbn [fst snd] in H. outcome_of_run H.
Qed.

Lemma chosen_fallback env data origW origH e :
  ForTerminal env data 480 = Err e ->
  chosen env data origW origH = (data, origW, origH).
Proof. intros H. unfold chosen. rewrite H. reflexivity. Qed.

(** ** C5: the fallback law *)

(** C5.  A candidate that got its token, whose download returned [data],
    whose hash is new and whose transformation failed is stored all the
    same once the write and the insert go through: processImage returns
    1, the file under the image directory holds exactly [data], and the
    one row added records [len(data)] as SizeBytes and the adapter's
    [origW], [origH] (0, 0 from waifu.pics) as Width and Height. *)
Theorem fallback_stores_original env ing srcURL source category origW origH
    w data w2 e :
  limiter_err env (tick w) DownloadLimiter = None ->
  downloadImage env srcURL (granted DownloadLimiter w) = (Ok data, w2) ->
  db_err env (tick w2) = None ->
  hash_present (contentHash env data) (rows w) = false ->
  ForTerminal env data 480 = Err e ->
  write_err env (S (tick w2)) (imagePath env ing data) = None ->
  db_err env (S (S (tick w2))) = None ->
  let run := processImage env ing srcURL source category origW origH w in
  fst run = Ok 1
  /\ files (snd run) !! imagePath env ing data = Some data
  /\ (exists earlier,
        trace (snd run) = EvWriteFile (imagePath env ing data) data :: earlier)
  /\ exists row,
       rows (snd run) = rows w ++ [row]
       /\ Hash row = contentHash env data
       /\ SizeBytes row = Z.of_nat (length data)
       /\ Width row = origW /\ Height row = origH.
Proof.
  intros Hlim Hdl Hq Hdup Hft Hwr Hin run. subst run.
  destruct (downloadImage_frame _ _ _ _ _ Hdl) as (Hf & Hr & _).
  cbn [granted emit advance rows files] in Hf, Hr.
  rewrite processImage_stored with (data := data) (w2 := w2)
    by (try assumption; rewrite Hr; assumption).
  unfold record. rewrite (chosen_fallback _ _ _ _ _ Hft).
  cbn [fst snd inserted written emit set_files advance files rows trace].
  split; [reflexivity |]. split; [apply lookup_insert_eq |].
  split; [eexists; reflexivity |].
  eexists. rewrite Hr. split; [reflexivity |].
  cbn. repeat split; reflexivity.
Qed.

Lemma fallback_stores_original_witness :
  let run := processImage env_plain testIngester testURL "waifu.pics" "sfw"
               0 0 empty_world in
  let data := [x89; x50; x4e] in
  fst run = Ok 1
  /\ files (snd run) !! imagePath env_plain testIngester data = Some data
  /\ (exists earlier,
        trace (snd run)
        = EvWriteFile (imagePath env_plain testIngester data) data :: earlier)
  /\ exists row,
       rows (snd run) = rows empty_world ++ [row]
       /\ Hash row = contentHash env_plain data
       /\ SizeBytes row = Z.of_nat (length data)
       /\ Width row = 0 /\ Height row = 0.
Proof.
  apply (fallback_stores_original env_plain testIngester testURL
           "waifu.pics" "sfw" 0 0 empty_world [x89; x50; x4e]
           (snd (downloadImage env_plain testURL
                   (granted DownloadLimiter empty_world)))
           (ErrOptimizeDecode ErrUnsupportedFormat)); reflexivity.
Defined.

(** ** C10: the encoding tag and the extension *)

(** C10.  Whenever processImage stores an image (returns 1) it adds one
    row, for the downloaded [data]: its Format is the constant "webp" and
    its Filename is [contentHash data] followed by ".webp"; the file of
    that name holds the bytes processImage chose, which are [data] itself
    whenever ForTerminal failed.  When processImage does not return 1 the
    catalog has the rows it had. *)
Theorem stored_format_is_webp env ing srcURL source category origW origH w :
  let run := processImage env ing srcURL source category origW origH w in
  (fst run = Ok 1 ->
   exists data row,
     rows (snd run) = rows w ++ [row]
     /\ Hash row = contentHash env data
     /\ Format row = "webp"
     /\ Filename row = contentHash env data +:+ ".webp"
     /\ files (snd run) !! filepath_Join env (imgDir ing) (Filename row)
        = Some (fst (fst (chosen env data origW origH)))
     /\ SizeBytes row
        = Z.of_nat (length (fst (fst (chosen env data origW origH))))
     /\ (is_Ok (ForTerminal env data 480) = false ->
         fst (fst (chosen env data origW origH)) = data))
  /\ (fst run <> Ok 1 -> rows (snd run) = rows w).
Proof.
  cbv zeta.
  pose proof (processImage_outcome env ing srcURL source category origW origH w)
    as H. cbv zeta in H.
  destruct (processImage env ing srcURL source category origW origH w)
    as [r w'].
  cbn [fst snd] in *. split.
  - intros ->. inversion H; subst.
    match goal with
    | Hdl : downloadImage _ _ _ = (Ok _, _) |- _ =>
      destruct (downloadImage_frame _ _ _ _ _ Hdl) as (Hf & Hr & _)
    end.
    cbn [granted emit advance rows files] in Hf, Hr.
    exists data. eexists.
    cbn [inserted written emit set_files advance files rows].
    rewrite Hr. split; [reflexivity |].
    unfold record. unfold chosen.
    destruct (ForTerminal env data 480) as [[[o wd] ht] | e |];
      cbn [stored Hash Format Filename SizeBytes fst snd is_Ok];
      (split; [reflexivity |]); (split; [reflexivity |]);
      (split; [reflexivity |]);
      (split; [apply lookup_insert_eq |]);
      (split; [reflexivity |]); intros; try reflexivity; discriminate.
  - intros Hne.
    inversion H; subst; try congruence;
      try match goal with
      | Hdl : downloadImage _ _ _ = _ |- _ =>
        destruct (downloadImage_frame _ _ _ _ _ Hdl) as (_ & Hr & _);
        cbn [granted emit advance rows files] in Hr
      end; cbn [advance rolledBack written emit set_files rows];
      try assumption; reflexivity.
Qed.

Lemma stored_format_is_webp_witness :
  let run := processImage env_plain testIngester testURL "waifu.pics" "sfw"
               0 0 empty_world in
  exists data row,
    rows (snd run) = rows empty_world ++ [row]
    /\ Hash row = contentHash env_plain data
    /\ Format row = "webp"
    /\ Filename row = contentHash env_plain data +:+ ".webp"
    /\ files (snd run) !! filepath_Join env_plain (imgDir testIngester)
                            (Filename row)
       = Some (fst (fst (chosen env_plain data 0 0)))
    /\ SizeBytes row
       = Z.of_nat (length (fst (fst (chosen env_plain data 0 0))))
    /\ (is_Ok (ForTerminal env_plain data 480) = false ->
        fst (fst (chosen env_plain data 0 0)) = data).
Proof.
  apply (proj1 (stored_format_is_webp env_plain testIngester testURL
                  "waifu.pics" "sfw" 0 0 empty_world)).
  reflexivity.
Defined.

(** The fallback, evaluated: a payload no decoder accepts is stored byte
    for byte under a ".webp" name and tagged "webp". *)
Example fallback_row_is_tagged_webp :
  let w' := snd (processImage env_plain testIngester testURL "waifu.pics"
                   "sfw" 0 0 empty_world) in
  ForTerminal env_plain [x89; x50; x4e] 480
  = Err (ErrOptimizeDecode ErrUnsupportedFormat)
  /\ map (fun r => (Filename r, Format r, SizeBytes r)) (rows w')
     = [("89504e.webp", "webp", 3)]
  /\ files w' !! "/data/images/89504e.webp" = Some [x89; x50; x4e].
Proof. vm_compute. repeat split; reflexivity. Qed.

(** ** C7: no orphaned file *)






(** A failed insert, evaluated: the file is written, then removed, and the
    insert's error is what processImage returns. *)
Example insert_failure_rolls_back :
  let run := processImage env_insert_fails testIngester testURL "waifu.pics"
               "sfw" 0 0 empty_world in
  fst run = Err (ErrCatalogInsert (ErrSQL "disk I/O error"))
  /\ List.filter touches_disk (history (snd run))
     = [ EvWriteFile "/data/images/89504e.webp" [x89; x50; x4e];
         EvRemove "/data/images/89504e.webp" ]
  /\ files (snd run) !! "/data/images/89504e.webp" = None
  /\ rows (snd run) = [].
Proof. vm_compute. repeat split; reflexivity. Qed.

(** ** C8: one cycle *)

Lemma processImage_counts env ing srcURL source category origW origH w :
  let run := processImage env ing srcURL source category origW origH w in
  fst run <> Panic
  /\ rowCount (snd run) = rowCount w + tally (fst run).
Proof.
  cbv zeta.
  pose proof (processImage_outcome env ing srcURL source category origW origH w)
    as H. cbv zeta in H.
  destruct (processImage env ing srcURL source category origW origH w)
    as [r w'].
  cbn [fst snd] in *. unfold rowCount.
  inversion H; subst; (split; [discriminate |]);
    try match goal with
    | Hdl : downloadImage _ _ _ = _ |- _ =>
      destruct (downloadImage_frame _ _ _ _ _ Hdl) as (_ & Hr & _);
      cbn [granted emit advance rows] in Hr
    end;
    cbn [advance rolledBack inserted written emit set_files rows tally];
    try rewrite Hr; try rewrite length_app; cbn [length]; lia.
Qed.

(** A candidate's error is logged and counts as 0. *)
Lemma candidate_counts env ing srcURL source category origW origH w :
  let run := catch (processImage env ing srcURL source category origW origH)
               (fun e => exec log_Printf (LogProcess srcURL e) ;; ret 0) w in
  exists n, fst run = Ok n /\ rowCount (snd run) = rowCount w + n.
Proof.
  cbv zeta. unfold catch.
  destruct (processImage_counts env ing srcURL source category origW origH w)
    as [Hnp Hrows]. cbv zeta in Hrows.
  destruct (processImage env ing srcURL source category origW origH w)
    as [[n | e |] w']; cbn [fst snd tally] in *.
  - exists n. split; [reflexivity | exact Hrows].
  - exists 0. split; [reflexivity |]. exact Hrows.
  - congruence.
Qed.

Lemma processItems_counts env ing category items :
  forall count w,
    let run := processItems env ing category items count w in
    exists n, fst run = Ok n
              /\ rowCount (snd run) = rowCount w + (n - count).
Proof.
  induction items as [| img rest IH]; intros count w; cbv zeta;
    cbn [processItems].
  - exists count. split; [reflexivity |]. cbn [snd ret]. lia.
  - unfold bind.
    destruct (candidate_counts env ing (URL img) "waifu.im" category
                (ItemWidth img) (ItemHeight img) w) as [n [Hn Hrows]].
    cbv zeta in Hn, Hrows.
    destruct (catch _ _ w) as [r w1]. cbn [fst snd] in Hn, Hrows. subst r.
    destruct (IH (count + n) w1) as [m [Hm Hrows']]. cbv zeta in Hm, Hrows'.
    exists m. split; [exact Hm |]. lia.
Qed.

Lemma processFiles_counts env ing category urls :
  forall count w,
    let run := processFiles env ing category urls count w in
    exists n, fst run = Ok n
              /\ rowCount (snd run) = rowCount w + (n - count).
Proof.
  induction urls as [| url rest IH]; intros count w; cbv zeta;
    cbn [processFiles].
  - exists count. split; [reflexivity |]. cbn [snd ret]. lia.
  - unfold bind.
    destruct (candidate_counts env ing url "waifu.pics" category 0 0 w)
      as [n [Hn Hrows]].
    cbv zeta in Hn, Hrows.
    destruct (catch _ _ w) as [r w1]. cbn [fst snd] in Hn, Hrows. subst r.
    destruct (IH (count + n) w1) as [m [Hm Hrows']]. cbv zeta in Hm, Hrows'.
    exists m. split; [exact Hm |]. lia.
Qed.

Lemma fetchWithRetry_rows env method url reqBody source limiter w :
  rows (snd (fetchWithRetry env method url reqBody source limiter w)) = rows w
  /\ files (snd (fetchWithRetry env method url reqBody source limiter w))
     = files w.
Proof.
  assert (H : steps any_event w
                (snd (fetchWithRetry env method url reqBody source limiter w)))
    by (apply confined_fetchWithRetry; intros; exact I).
  apply steps_store in H as (Hf & Hr & _). split; assumption.
Qed.

Lemma ingestWaifuIm_counts env ing category w :
  let run := ingestWaifuIm env ing category w in
  fst run <> Panic /\ rowCount (snd run) = rowCount w + tally (fst run).
Proof.
  cbv zeta. destruct (ingestWaifuIm env ing category w) as [r w'] eqn:E.
  cbn [fst snd]. unfold ingestWaifuIm in E.
  set (url := waifuImSearchURL +:+ _) in E.
  unfold bind at 1 in E. unfold limiter_Wait at 1 in E.
  destruct (limiter_err env (tick w) WaifuImLimiter).
  { injection E as <- <-. split; [discriminate |]. unfold rowCount. cbn. lia. }
  fold (granted WaifuImLimiter w) in E. unfold bind at 1 in E.
  pose proof (fetchWithRetry_no_panic env MethodGet url None "waifu.im"
                WaifuImLimiter (granted WaifuImLimiter w)) as Hnp.
  destruct (fetchWithRetry_rows env MethodGet url None "waifu.im"
              WaifuImLimiter (granted WaifuImLimiter w)) as [Hr _].
  destruct (fetchWithRetry env MethodGet url None "waifu.im" WaifuImLimiter
              (granted WaifuImLimiter w)) as [[body | e |] w1];
    cbn [fst snd] in *; [| | congruence].
  - destruct (json_Items env body) as [items |].
    + destruct (processItems_counts env ing category items 0 w1)
        as [n [Hn Hrows]]. cbv zeta in Hn, Hrows.
      rewrite E in Hn, Hrows. cbn [fst snd] in Hn, Hrows. subst r.
      cbn [tally]. split; [discriminate |].
      unfold rowCount in *. rewrite Hrows, Hr. cbn [granted emit advance rows].
      lia.
    + injection E as <- <-. cbn [tally]. split; [discriminate |].
      unfold rowCount. rewrite Hr. cbn. lia.
  - injection E as <- <-. cbn [tally]. split; [discriminate |].
    unfold rowCount. rewrite Hr. cbn. lia.
Qed.

Lemma ingestWaifuPics_counts env ing apiURL category w :
  let run := ingestWaifuPics env ing apiURL category w in
  fst run <> Panic /\ rowCount (snd run) = rowCount w + tally (fst run).
Proof.
  cbv zeta. destruct (ingestWaifuPics env ing apiURL category w) as [r w'] eqn:E.
  cbn [fst snd]. unfold ingestWaifuPics in E.
  unfold bind at 1 in E. unfold limiter_Wait at 1 in E.
  destruct (limiter_err env (tick w) WaifuPicsLimiter).
  { injection E as <- <-. split; [discriminate |]. unfold rowCount. cbn. lia. }
  fold (granted WaifuPicsLimiter w) in E. unfold bind at 1 in E.
  pose proof (fetchWithRetry_no_panic env MethodPost apiURL (Some picsReqBody)
                "waifu.pics" WaifuPicsLimiter (granted WaifuPicsLimiter w))
    as Hnp.
  destruct (fetchWithRetry_rows env MethodPost apiURL (Some picsReqBody)
              "waifu.pics" WaifuPicsLimiter (granted WaifuPicsLimiter w))
    as [Hr _].
  destruct (fetchWithRetry env MethodPost apiURL (Some picsReqBody)
              "waifu.pics" WaifuPicsLimiter (granted WaifuPicsLimiter w))
    as [[body | e |] w1];
    cbn [fst snd] in *; [| | congruence].
  - destruct (json_Files env body) as [urls |].
    + destruct (processFiles_counts env ing category urls 0 w1)
        as [n [Hn Hrows]]. cbv zeta in Hn, Hrows.
      rewrite E in Hn, Hrows. cbn [fst snd] in Hn, Hrows. subst r.
      cbn [tally]. split; [discriminate |].
      unfold rowCount in *. rewrite Hrows, Hr. cbn [granted emit advance rows].
      lia.
    + injection E as <- <-. cbn [tally]. split; [discriminate |].
      unfold rowCount. rewrite Hr. cbn. lia.
  - injection E as <- <-. cbn [tally]. split; [discriminate |].
    unfold rowCount. rewrite Hr. cbn. lia.
Qed.

(** Run's treatment of one adapter. *)
Lemma logged_run what (adapter : M Z) w :
  fst (adapter w) <> Panic ->
  logged what adapter w = (Ok (tally (fst (adapter w))),
                           afterAdapter what (adapter w)).
Proof.
  intros Hnp. unfold logged, catch, afterAdapter.
  destruct (adapter w) as [[n | e |] w1]; cbn [fst snd tally] in *;
    [reflexivity | reflexivity | congruence].
Qed.

Lemma rowCount_afterAdapter what run :
  rowCount (afterAdapter what run) = rowCount (snd run).
Proof. unfold afterAdapter. destruct (fst run); reflexivity. Qed.

(** Run, adapter by adapter. *)
Lemma Run_chain env ing w :
  let a1 := ingestWaifuIm env ing "sfw" w in
  let w1 := afterAdapter "waifu.im sfw" a1 in
  let a2 := ingestWaifuIm env ing "nsfw" w1 in
  let w2 := afterAdapter "waifu.im nsfw" a2 in
  let a3 := ingestWaifuPics env ing waifuPicsManyURL "sfw" w2 in
  let w3 := afterAdapter "waifu.pics sfw" a3 in
  let a4 := ingestWaifuPics env ing waifuPicsNSFWURL "nsfw" w3 in
  let w4 := afterAdapter "waifu.pics nsfw" a4 in
  Run env ing w
  = (Ok (tally (fst a1) + tally (fst a2) + tally (fst a3) + tally (fst a4)),
     w4).
Proof.
  cbv zeta.
  set (a1 := ingestWaifuIm env ing "sfw" w).
  set (w1 := afterAdapter "waifu.im sfw" a1).
  set (a2 := ingestWaifuIm env ing "nsfw" w1).
  set (w2 := afterAdapter "waifu.im nsfw" a2).
  set (a3 := ingestWaifuPics env ing waifuPicsManyURL "sfw" w2).
  set (w3 := afterAdapter "waifu.pics sfw" a3).
  set (a4 := ingestWaifuPics env ing waifuPicsNSFWURL "nsfw" w3).
  destruct (ingestWaifuIm_counts env ing "sfw" w) as [N1 _].
  destruct (ingestWaifuIm_counts env ing "nsfw" w1) as [N2 _].
  destruct (ingestWaifuPics_counts env ing waifuPicsManyURL "sfw" w2)
    as [N3 _].
  destruct (ingestWaifuPics_counts env ing waifuPicsNSFWURL "nsfw" w3)
    as [N4 _].
  cbv zeta in *. fold a1 in N1. fold a2 in N2. fold a3 in N3. fold a4 in N4.
  unfold Run.
  unfold bind at 1. rewrite logged_run by exact N1. fold a1 w1.
  unfold bind at 1. rewrite logged_run by exact N2. fold a2 w2.
  unfold bind at 1. rewrite logged_run by exact N3. fold a3 w3.
  unfold bind at 1. rewrite logged_run by exact N4. fold a4.
  unfold ret. rewrite Z.add_0_l. reflexivity.
Qed.

(** C8.  Run invokes the four adapters in order, each from the world its
    predecessor left; an adapter that fails is logged and adds 0, and the
    next one runs all the same.  Run never returns an error: its value is
    the sum of the four counts, which is the number of rows the cycle
    added to the catalog.  Inside an adapter a candidate's error is
    logged and the loop goes on, so the two candidate loops never fail. *)
Theorem Run_never_aborts env ing w :
  let a1 := ingestWaifuIm env ing "sfw" w in
  let w1 := afterAdapter "waifu.im sfw" a1 in
  let a2 := ingestWaifuIm env ing "nsfw" w1 in
  let w2 := afterAdapter "waifu.im nsfw" a2 in
  let a3 := ingestWaifuPics env ing waifuPicsManyURL "sfw" w2 in
  let w3 := afterAdapter "waifu.pics sfw" a3 in
  let a4 := ingestWaifuPics env ing waifuPicsNSFWURL "nsfw" w3 in
  let w4 := afterAdapter "waifu.pics nsfw" a4 in
  let total := tally (fst a1) + tally (fst a2) + tally (fst a3)
               + tally (fst a4) in
  Run env ing w = (Ok total, w4)
  /\ rowCount w4 = rowCount w + total
  /\ (forall category items count w0,
        is_Ok (fst (processItems env ing category items count w0)) = true)
  /\ (forall category urls count w0,
        is_Ok (fst (processFiles env ing category urls count w0)) = true).
Proof.
  cbv zeta. split; [apply Run_chain |].
  set (a1 := ingestWaifuIm env ing "sfw" w).
  set (w1 := afterAdapter "waifu.im sfw" a1).
  set (a2 := ingestWaifuIm env ing "nsfw" w1).
  set (w2 := afterAdapter "waifu.im nsfw" a2).
  set (a3 := ingestWaifuPics env ing waifuPicsManyURL "sfw" w2).
  set (w3 := afterAdapter "waifu.pics sfw" a3).
  set (a4 := ingestWaifuPics env ing waifuPicsNSFWURL "nsfw" w3).
  destruct (ingestWaifuIm_counts env ing "sfw" w) as [_ R1].
  destruct (ingestWaifuIm_counts env ing "nsfw" w1) as [_ R2].
  destruct (ingestWaifuPics_counts env ing waifuPicsManyURL "sfw" w2)
    as [_ R3].
  destruct (ingestWaifuPics_counts env ing waifuPicsNSFWURL "nsfw" w3)
    as [_ R4].
  cbv zeta in *. fold a1 in R1. fold a2 in R2. fold a3 in R3. fold a4 in R4.
  split; [| split].
  - rewrite rowCount_afterAdapter, R4.
    unfold w3. rewrite rowCount_afterAdapter, R3.
    unfold w2. rewrite rowCount_afterAdapter, R2.
    unfold w1. rewrite rowCount_afterAdapter, R1. lia.
  - intros category items count w0.
    destruct (processItems_counts env ing category items count w0)
      as [n [Hn _]]. cbv zeta in Hn. rewrite Hn. reflexivity.
  - intros category urls count w0.
    destruct (processFiles_counts env ing category urls count w0)
      as [n [Hn _]]. cbv zeta in Hn. rewrite Hn. reflexivity.
Qed.

(** waifu.im down, waifu.pics up: both waifu.im failures are logged, the
    cycle goes on and reports the one image waifu.pics gave (its second
    answer is the same image, a duplicate). *)
Example Run_env_half_down :
  let run := Run env_half_down testIngester empty_world in
  fst run = Ok 1
  /\ flat_map (fun e => match e with
                        | EvLog (LogAdapter what _) => [what]
                        | _ => []
                        end) (history (snd run))
     = ["waifu.im sfw"; "waifu.im nsfw"]
  /\ map Filename (rows (snd run)) = ["89504e.webp"].
Proof. vm_compute. repeat split; reflexivity. Qed.

(** ** C6: idempotence by content hash *)

Section Blind.
Variable env : Env.
Hypothesis quiet : undisturbed env.
Hypothesis same_answers : stationary env.

(** With a stationary upstream the result of a download does not depend
    on when it is made. *)
Lemma downloadLoop_blind srcURL fuel :
  url_parses env srcURL = true ->
  forall attempt lastErr w w',
    0 <= attempt -> attempt + Z.of_nat fuel <= 3 ->
    fst (downloadLoop env srcURL fuel attempt lastErr w)
    = fst (downloadLoop env srcURL fuel attempt lastErr w').
Proof.
  intros Hurl. destruct quiet as [Hctx _].
  induction fuel as [| fuel IH]; intros attempt lastErr w w' H0 H3.
  - reflexivity.
  - assert (Hcont : forall w1 w1',
              fst (imageContinue env srcURL fuel attempt w1)
              = fst (imageContinue env srcURL fuel attempt w1')).
    { intros w1 w1'. unfold imageContinue. cbv zeta.
      rewrite (same_answers (tick w1) 0%nat),
              (same_answers (tick w1') 0%nat).
      destruct (imageVerdict _); [| reflexivity | reflexivity].
      apply IH; lia. }
    assert (attempt = 0 \/ (attempt = 1 \/ attempt = 2)) as [-> | Hatt] by lia.
    + rewrite !downloadLoop_first by assumption. apply Hcont.
    + rewrite !downloadLoop_retry by assumption. apply Hcont.
Qed.

Lemma downloadImage_unparsable srcURL w :
  url_parses env srcURL = false ->
  downloadImage env srcURL w = (Err ErrNewRequest, w).
Proof.
  intros Hurl. unfold downloadImage.
  change (Z.to_nat maxRetries) with 3%nat. cbn [downloadLoop].
  cbn [Z.ltb Z.compare]. unfold bind, ret, NewRequestWithContext.
  rewrite Hurl. reflexivity.
Qed.

Lemma downloadImage_blind srcURL w w' :
  fst (downloadImage env srcURL w) = fst (downloadImage env srcURL w').
Proof.
  destruct (url_parses env srcURL) eqn:Hurl.
  - apply downloadLoop_blind; [assumption | lia | unfold maxRetries; lia].
  - rewrite !downloadImage_unparsable by assumption. reflexivity.
Qed.

Lemma fetchLoop_blind method url reqBody source limiter fuel :
  url_parses env url = true ->
  forall attempt lastErr w w',
    0 <= attempt -> attempt + Z.of_nat fuel <= 3 ->
    fst (fetchLoop env method url reqBody source limiter fuel attempt
           lastErr w)
    = fst (fetchLoop env method url reqBody source limiter fuel attempt
             lastErr w').
Proof.
  intros Hurl.
  induction fuel as [| fuel IH]; intros attempt lastErr w w' H0 H3.
  - reflexivity.
  - assert (Hcont : forall w1 w1',
              fst (apiContinue env method url reqBody source limiter fuel
                     attempt w1)
              = fst (apiContinue env method url reqBody source limiter fuel
                       attempt w1')).
    { intros w1 w1'. unfold apiContinue. cbv zeta.
      rewrite (same_answers (tick w1) 0%nat),
              (same_answers (tick w1') 0%nat).
      destruct (apiVerdict _ _); [| reflexivity | reflexivity].
      apply IH; lia. }
    assert (attempt = 0 \/ (attempt = 1 \/ attempt = 2)) as [-> | Hatt] by lia.
    + rewrite !fetchLoop_first by assumption. apply Hcont.
    + rewrite !fetchLoop_retry by assumption. apply Hcont.
Qed.

Lemma fetchWithRetry_unparsable method url reqBody source limiter w :
  url_parses env url = false ->
  fetchWithRetry env method url reqBody source limiter w
  = (Err ErrNewRequest, w).
Proof.
  intros Hurl. unfold fetchWithRetry.
  change (Z.to_nat maxRetries) with 3%nat. cbn [fetchLoop].
  cbn [Z.ltb Z.compare]. unfold bind, ret, NewRequestWithContext.
  rewrite Hurl. reflexivity.
Qed.

Lemma fetchWithRetry_blind method url reqBody source limiter w w' :
  fst (fetchWithRetry env method url reqBody source limiter w)
  = fst (fetchWithRetry env method url reqBody source limiter w').
Proof.
  destruct (url_parses env url) eqn:Hurl.
  - apply fetchLoop_blind; [assumption | lia | unfold maxRetries; lia].
  - rewrite !fetchWithRetry_unparsable by assumption. reflexivity.
Qed.
End Blind.

Lemma hash_present_In hash rs :
  hash_present hash rs = true <-> In hash (map Hash rs).
Proof.
  unfold hash_present. rewrite existsb_exists, in_map_iff.
  split; intros [r [H1 H2]].
  - exists r. split; [apply String.eqb_eq; exact H2 | exact H1].
  - exists r. split; [exact H2 | apply String.eqb_eq; exact H1].
Qed.

Lemma hash_present_app hash rs new :
  hash_present hash (rs ++ new)
  = hash_present hash rs || hash_present hash new.
Proof. apply existsb_app. Qed.

Lemma grown_refl w : grown w w.
Proof. exists []. symmetry. apply app_nil_r. Qed.

Lemma grown_same w w' : rows w' = rows w -> grown w w'.
Proof. intros H. exists []. rewrite H. symmetry. apply app_nil_r. Qed.

Lemma grown_trans a b c : grown a b -> grown b c -> grown a c.
Proof.
  intros [n1 H1] [n2 H2]. exists (n1 ++ n2).
  rewrite H2, H1, app_assoc. reflexivity.
Qed.

Lemma known_grown env w w' url : grown w w' -> known env w url -> known env w' url.
Proof.
  intros [new Hg] Hk data Hd. rewrite Hg, hash_present_app, (Hk data Hd).
  reflexivity.
Qed.

(** An insert on a hash the table has changes nothing and succeeds. *)
Lemma Insert_present env img w :
  db_err env (tick w) = None ->
  hash_present (Hash img) (rows w) = true ->
  Insert env img w = (Ok (last_rowid w), advance w).
Proof. intros Hdb Hp. unfold Insert. rewrite Hdb, Hp. reflexivity. Qed.

(** [hash] stays unique whatever is inserted. *)
Lemma Insert_unique env img w :
  List.NoDup (map Hash (rows w)) ->
  List.NoDup (map Hash (rows (snd (Insert env img w)))).
Proof.
  intros Hnd. unfold Insert.
  destruct (db_err env (tick w)); [exact Hnd |].
  destruct (hash_present (Hash img) (rows w)) eqn:Hp; [exact Hnd |].
  cbn [snd rows]. rewrite map_app. cbn [map stored Hash].
  apply List.NoDup_app; [exact Hnd | |].
  - constructor; [intros [] | constructor].
  - intros h Hin [<- | []].
    apply hash_present_In in Hin. congruence.
Qed.

Section FirstAndSecondRun.
Variables (env : Env) (ing : Ingester).
Hypothesis quiet : undisturbed env.
Hypothesis locals : no_local_failure env.
Hypothesis same_answers : stationary env.

(** First run: afterwards the candidate is known. *)
Lemma processImage_learns srcURL source category origW origH w :
  let w' := snd (processImage env ing srcURL source category origW origH w) in
  grown w w' /\ known env w' srcURL.
Proof.
  cbv zeta. destruct quiet as [_ Hlim]. destruct locals as [Hwr Hdb].
  pose proof (processImage_outcome env ing srcURL source category origW
                origH w) as H. cbv zeta in H.
  destruct (processImage env ing srcURL source category origW origH w)
    as [r w'].
  cbn [fst snd] in *.
  inversion H; subst;
    try match goal with
    | Hdl : downloadImage _ _ _ = _ |- _ =>
      pose proof (f_equal fst Hdl) as Hres; cbn [fst] in Hres;
      rewrite (downloadImage_blind env quiet same_answers srcURL _
                 empty_world) in Hres;
      destruct (downloadImage_frame _ _ _ _ _ Hdl) as (_ & Hr & _);
      cbn [granted emit advance rows] in Hr
    end;
    try congruence.
  - (* download failed *)
    split; [apply grown_same; assumption |].
    intros data Hd. congruence.
  - (* duplicate *)
    split; [apply grown_same; assumption |].
    intros data' Hd. rewrite Hres in Hd. injection Hd as <-. assumption.
  - (* stored *)
    split.
    + eexists. cbn [inserted written emit set_files advance rows].
      rewrite Hr. reflexivity.
    + intros data' Hd. rewrite Hres in Hd. injection Hd as <-.
      cbn [inserted written emit set_files advance rows].
      rewrite hash_present_app. apply orb_true_iff. right.
      unfold record. destruct (chosen env data origW origH) as [[? ?] ?].
      cbn [hash_present existsb stored Hash]. rewrite String.eqb_refl.
      reflexivity.
Qed.

(** Second run: a known candidate is downloaded, recognised and skipped
    (or fails to download, as it did before). *)
Lemma processImage_skips srcURL source category origW origH w :
  known env w srcURL ->
  let run := processImage env ing srcURL source category origW origH w in
  (fst run = Ok 0 \/ exists e, fst run = Err e)
  /\ rows (snd run) = rows w /\ files (snd run) = files w.
Proof.
  intros Hk. cbv zeta. destruct quiet as [_ Hlim]. destruct locals as [Hwr Hdb].
  pose proof (processImage_outcome env ing srcURL source category origW
                origH w) as H. cbv zeta in H.
  destruct (processImage env ing srcURL source category origW origH w)
    as [r w'].
  cbn [fst snd] in *.
  inversion H; subst;
    try match goal with
    | Hdl : downloadImage _ _ _ = _ |- _ =>
      pose proof (f_equal fst Hdl) as Hres; cbn [fst] in Hres;
      rewrite (downloadImage_blind env quiet same_answers srcURL _
                 empty_world) in Hres;
      destruct (downloadImage_frame _ _ _ _ _ Hdl) as (Hf & Hr & _);
      cbn [granted emit advance rows files] in Hf, Hr
    end;
    try congruence.
  - split; [right; eexists; reflexivity |]. split; assumption.
  - split; [left; reflexivity |]. split; assumption.
  - (* stored: the hash was known *)
    specialize (Hk data Hres). rewrite <- Hr in Hk. congruence.
Qed.
End FirstAndSecondRun.

Section Cycle.
Variables (env : Env) (ing : Ingester).
Hypothesis quiet : undisturbed env.
Hypothesis locals : no_local_failure env.
Hypothesis same_answers : stationary env.

Lemma candidate_learns srcURL source category origW origH w :
  let w' := snd (catch (processImage env ing srcURL source category origW
                          origH)
                   (fun e => exec log_Printf (LogProcess srcURL e) ;; ret 0)
                   w) in
  grown w w' /\ known env w' srcURL.
Proof.
  cbv zeta. unfold catch.
  destruct (processImage_learns env ing quiet locals same_answers srcURL
              source category origW origH w) as [Hg Hk]. cbv zeta in Hg, Hk.
  destruct (processImage env ing srcURL source category origW origH w)
    as [[n | e |] w1]; cbn [fst snd] in *; split; assumption.
Qed.

Lemma candidate_skips srcURL source category origW origH w :
  known env w srcURL ->
  exists w',
    catch (processImage env ing srcURL source category origW origH)
      (fun e => exec log_Printf (LogProcess srcURL e) ;; ret 0) w
    = (Ok 0, w')
    /\ rows w' = rows w /\ files w' = files w.
Proof.
  intros Hk. unfold catch.
  destruct (processImage_skips env ing quiet locals same_answers srcURL
              source category origW origH w Hk) as (Hres & Hr & Hf).
  cbv zeta in Hres, Hr, Hf.
  destruct (processImage env ing srcURL source category origW origH w)
    as [r w1]; cbn [fst snd] in *.
  destruct Hres as [-> | [e ->]].
  - exists w1. auto.
  - eexists. split; [reflexivity |]. split; assumption.
Qed.

Lemma processItems_learns category items :
  forall count w,
    let w' := snd (processItems env ing category items count w) in
    grown w w' /\ forall img, In img items -> known env w' (URL img).
Proof.
  induction items as [| img rest IH]; intros count w; cbv zeta;
    cbn [processItems].
  - split; [apply grown_refl | intros img []].
  - unfold bind.
    destruct (candidate_learns (URL img) "waifu.im" category (ItemWidth img)
                (ItemHeight img) w) as [Hg Hk]. cbv zeta in Hg, Hk.
    destruct (candidate_counts env ing (URL img) "waifu.im" category
                (ItemWidth img) (ItemHeight img) w) as [n [Hn _]].
    cbv zeta in Hn.
    destruct (catch _ _ w) as [r w1]. cbn [fst snd] in *. subst r.
    destruct (IH (count + n) w1) as [Hg' Hk']. cbv zeta in Hg', Hk'.
    split; [eapply grown_trans; eassumption |].
    intros img' [<- | Hin]; [| apply Hk', Hin].
    eapply known_grown; eassumption.
Qed.

Lemma processItems_skips category items :
  forall count w,
    (forall img, In img items -> known env w (URL img)) ->
    exists w',
      processItems env ing category items count w = (Ok count, w')
      /\ rows w' = rows w /\ files w' = files w.
Proof.
  induction items as [| img rest IH]; intros count w Hall;
    cbn [processItems].
  - exists w. auto.
  - unfold bind at 1.
    destruct (candidate_skips (URL img) "waifu.im" category (ItemWidth img)
                (ItemHeight img) w (Hall img (or_introl eq_refl)))
      as (w1 & -> & Hr & Hf).
    rewrite Z.add_0_r.
    destruct (IH count w1) as (w2 & E & Hr' & Hf').
    { intros img' Hin. eapply known_grown; [apply grown_same; exact Hr |].
      apply Hall. right. exact Hin. }
    exists w2. split; [exact E |].
    split; congruence.
Qed.

Lemma processFiles_learns category urls :
  forall count w,
    let w' := snd (processFiles env ing category urls count w) in
    grown w w' /\ forall url, In url urls -> known env w' url.
Proof.
  induction urls as [| url rest IH]; intros count w; cbv zeta;
    cbn [processFiles].
  - split; [apply grown_refl | intros url []].
  - unfold bind.
    destruct (candidate_learns url "waifu.pics" category 0 0 w) as [Hg Hk].
    cbv zeta in Hg, Hk.
    destruct (candidate_counts env ing url "waifu.pics" category 0 0 w)
      as [n [Hn _]].
    cbv zeta in Hn.
    destruct (catch _ _ w) as [r w1]. cbn [fst snd] in *. subst r.
    destruct (IH (count + n) w1) as [Hg' Hk']. cbv zeta in Hg', Hk'.
    split; [eapply grown_trans; eassumption |].
    intros url' [<- | Hin]; [| apply Hk', Hin].
    eapply known_grown; eassumption.
Qed.

Lemma processFiles_skips category urls :
  forall count w,
    (forall url, In url urls -> known env w url) ->
    exists w',
      processFiles env ing category urls count w = (Ok count, w')
      /\ rows w' = rows w /\ files w' = files w.
Proof.
  induction urls as [| url rest IH]; intros count w Hall;
    cbn [processFiles].
  - exists w. auto.
  - unfold bind at 1.
    destruct (candidate_skips url "waifu.pics" category 0 0 w
                (Hall url (or_introl eq_refl)))
      as (w1 & -> & Hr & Hf).
    rewrite Z.add_0_r.
    destruct (IH count w1) as (w2 & E & Hr' & Hf').
    { intros url' Hin. eapply known_grown; [apply grown_same; exact Hr |].
      apply Hall. right. exact Hin. }
    exists w2. split; [exact E |].
    split; congruence.
Qed.
End Cycle.

Lemma rows_afterAdapter what run : rows (afterAdapter what run) = rows (snd run).
Proof. unfold afterAdapter. destruct (fst run); reflexivity. Qed.

Lemma files_afterAdapter what run :
  files (afterAdapter what run) = files (snd run).
Proof. unfold afterAdapter. destruct (fst run); reflexivity. Qed.

Lemma waifuImKnown_grown env category w w' :
  grown w w' -> waifuImKnown env category w -> waifuImKnown env category w'.
Proof.
  intros Hg Hk body items img Hb Hj Hin.
  eapply known_grown; [exact Hg |]. eapply Hk; eassumption.
Qed.

Lemma waifuPicsKnown_grown env apiURL w w' :
  grown w w' -> waifuPicsKnown env apiURL w -> waifuPicsKnown env apiURL w'.
Proof.
  intros Hg Hk body urls url Hb Hj Hin.
  eapply known_grown; [exact Hg |]. eapply Hk; eassumption.
Qed.

Section Adapters.
Variables (env : Env) (ing : Ingester).
Hypothesis quiet : undisturbed env.
Hypothesis locals : no_local_failure env.
Hypothesis same_answers : stationary env.

Lemma ingestWaifuIm_learns category w :
  let w' := snd (ingestWaifuIm env ing category w) in
  grown w w' /\ waifuImKnown env category w'.
Proof.
  cbv zeta. destruct (ingestWaifuIm env ing category w) as [r w'] eqn:E.
  cbn [snd]. unfold ingestWaifuIm in E. cbv zeta in E.
  change (waifuImSearchURL +:+ _) with (waifuImURL category) in E.
  unfold bind at 1 in E. unfold limiter_Wait at 1 in E.
  rewrite (proj2 quiet) in E. fold (granted WaifuImLimiter w) in E.
  unfold bind at 1 in E.
  pose proof (fetchWithRetry_blind env quiet same_answers MethodGet
                (waifuImURL category) None "waifu.im" WaifuImLimiter
                (granted WaifuImLimiter w) empty_world) as Hb.
  destruct (fetchWithRetry_rows env MethodGet (waifuImURL category) None
              "waifu.im" WaifuImLimiter (granted WaifuImLimiter w))
    as [Hr _].
  destruct (fetchWithRetry env MethodGet (waifuImURL category) None
              "waifu.im" WaifuImLimiter (granted WaifuImLimiter w))
    as [[body | e |] w1]; cbn [fst snd] in Hb, Hr;
    cbn [granted emit advance rows] in Hr.
  - destruct (json_Items env body) as [items |] eqn:Hj.
    + destruct (processItems_learns env ing quiet locals same_answers
                  category items 0 w1) as [Hg Hk].
      cbv zeta in Hg, Hk. rewrite E in Hg, Hk. cbn [snd] in Hg, Hk.
      split; [eapply grown_trans; [apply grown_same; exact Hr | exact Hg] |].
      intros body' items' img Hb' Hj' Hin.
      rewrite <- Hb in Hb'. injection Hb' as <-.
      rewrite Hj in Hj'. injection Hj' as <-. apply Hk, Hin.
    + injection E as <- <-. split; [apply grown_same; exact Hr |].
      intros body' items' img Hb' Hj' Hin.
      rewrite <- Hb in Hb'. injection Hb' as <-. congruence.
  - injection E as <- <-. split; [apply grown_same; exact Hr |].
    intros body' items' img Hb' Hj' Hin. congruence.
  - injection E as <- <-. split; [apply grown_same; exact Hr |].
    intros body' items' img Hb' Hj' Hin. congruence.
Qed.

Lemma ingestWaifuIm_skips category w :
  waifuImKnown env category w ->
  let run := ingestWaifuIm env ing category w in
  tally (fst run) = 0 /\ rows (snd run) = rows w /\ files (snd run) = files w.
Proof.
  intros Hk. cbv zeta.
  destruct (ingestWaifuIm env ing category w) as [r w'] eqn:E.
  cbn [fst snd]. unfold ingestWaifuIm in E. cbv zeta in E.
  change (waifuImSearchURL +:+ _) with (waifuImURL category) in E.
  unfold bind at 1 in E. unfold limiter_Wait at 1 in E.
  rewrite (proj2 quiet) in E. fold (granted WaifuImLimiter w) in E.
  unfold bind at 1 in E.
  pose proof (fetchWithRetry_blind env quiet same_answers MethodGet
                (waifuImURL category) None "waifu.im" WaifuImLimiter
                (granted WaifuImLimiter w) empty_world) as Hb.
  destruct (fetchWithRetry_rows env MethodGet (waifuImURL category) None
              "waifu.im" WaifuImLimiter (granted WaifuImLimiter w))
    as [Hr Hf].
  destruct (fetchWithRetry env MethodGet (waifuImURL category) None
              "waifu.im" WaifuImLimiter (granted WaifuImLimiter w))
    as [[body | e |] w1]; cbn [fst snd] in Hb, Hr, Hf;
    cbn [granted emit advance rows files] in Hr, Hf.
  - destruct (json_Items env body) as [items |] eqn:Hj.
    + destruct (processItems_skips env ing quiet locals same_answers
                  category items 0 w1) as (w2 & E' & Hr' & Hf').
      { intros img Hin. eapply known_grown; [apply grown_same; exact Hr |].
        eapply Hk; [symmetry; exact Hb | exact Hj | exact Hin]. }
      rewrite E' in E. injection E as <- <-.
      split; [reflexivity |]. split; congruence.
    + injection E as <- <-. split; [reflexivity |]. split; assumption.
  - injection E as <- <-. split; [reflexivity |]. split; assumption.
  - injection E as <- <-. split; [reflexivity |]. split; assumption.
Qed.

Lemma ingestWaifuPics_learns apiURL category w :
  let w' := snd (ingestWaifuPics env ing apiURL category w) in
  grown w w' /\ waifuPicsKnown env apiURL w'.
Proof.
  cbv zeta. destruct (ingestWaifuPics env ing apiURL category w)
    as [r w'] eqn:E.
  cbn [snd]. unfold ingestWaifuPics in E.
  unfold bind at 1 in E. unfold limiter_Wait at 1 in E.
  rewrite (proj2 quiet) in E. fold (granted WaifuPicsLimiter w) in E.
  unfold bind at 1 in E.
  pose proof (fetchWithRetry_blind env quiet same_answers MethodPost
                apiURL (Some picsReqBody) "waifu.pics" WaifuPicsLimiter
                (granted WaifuPicsLimiter w) empty_world) as Hb.
  destruct (fetchWithRetry_rows env MethodPost apiURL (Some picsReqBody)
              "waifu.pics" WaifuPicsLimiter (granted WaifuPicsLimiter w))
    as [Hr _].
  destruct (fetchWithRetry env MethodPost apiURL (Some picsReqBody)
              "waifu.pics" WaifuPicsLimiter (granted WaifuPicsLimiter w))
    as [[body | e |] w1]; cbn [fst snd] in Hb, Hr;
    cbn [granted emit advance rows] in Hr.
  - destruct (json_Files env body) as [urls |] eqn:Hj.
    + destruct (processFiles_learns env ing quiet locals same_answers
                  category urls 0 w1) as [Hg Hk].
      cbv zeta in Hg, Hk. rewrite E in Hg, Hk. cbn [snd] in Hg, Hk.
      split; [eapply grown_trans; [apply grown_same; exact Hr | exact Hg] |].
      intros body' urls' url Hb' Hj' Hin.
      rewrite <- Hb in Hb'. injection Hb' as <-.
      rewrite Hj in Hj'. injection Hj' as <-. apply Hk, Hin.
    + injection E as <- <-. split; [apply grown_same; exact Hr |].
      intros body' urls' url Hb' Hj' Hin.
      rewrite <- Hb in Hb'. injection Hb' as <-. congruence.
  - injection E as <- <-. split; [apply grown_same; exact Hr |].
    intros body' urls' url Hb' Hj' Hin. congruence.
  - injection E as <- <-. split; [apply grown_same; exact Hr |].
    intros body' urls' url Hb' Hj' Hin. congruence.
Qed.

Lemma ingestWaifuPics_skips apiURL category w :
  waifuPicsKnown env apiURL w ->
  let run := ingestWaifuPics env ing apiURL category w in
  tally (fst run) = 0 /\ rows (snd run) = rows w /\ files (snd run) = files w.
Proof.
  intros Hk. cbv zeta.
  destruct (ingestWaifuPics env ing apiURL category w) as [r w'] eqn:E.
  cbn [fst snd]. unfold ingestWaifuPics in E.
  unfold bind at 1 in E. unfold limiter_Wait at 1 in E.
  rewrite (proj2 quiet) in E. fold (granted WaifuPicsLimiter w) in E.
  unfold bind at 1 in E.
  pose proof (fetchWithRetry_blind env quiet same_answers MethodPost
                apiURL (Some picsReqBody) "waifu.pics" WaifuPicsLimiter
                (granted WaifuPicsLimiter w) empty_world) as Hb.
  destruct (fetchWithRetry_rows env MethodPost apiURL (Some picsReqBody)
              "waifu.pics" WaifuPicsLimiter (granted WaifuPicsLimiter w))
    as [Hr Hf].
  destruct (fetchWithRetry env MethodPost apiURL (Some picsReqBody)
              "waifu.pics" WaifuPicsLimiter (granted WaifuPicsLimiter w))
    as [[body | e |] w1]; cbn [fst snd] in Hb, Hr, Hf;
    cbn [granted emit advance rows files] in Hr, Hf.
  - destruct (json_Files env body) as [urls |] eqn:Hj.
    + destruct (processFiles_skips env ing quiet locals same_answers
                  category urls 0 w1) as (w2 & E' & Hr' & Hf').
      { intros url Hin. eapply known_grown; [apply grown_same; exact Hr |].
        eapply Hk; [symmetry; exact Hb | exact Hj | exact Hin]. }
      rewrite E' in E. injection E as <- <-.
      split; [reflexivity |]. split; congruence.
    + injection E as <- <-. split; [reflexivity |]. split; assumption.
  - injection E as <- <-. split; [reflexivity |]. split; assumption.
  - injection E as <- <-. split; [reflexivity |]. split; assumption.
Qed.
End Adapters.

(** C6.  (a) A candidate that got its token and whose download hashes to
    a hash the catalog has makes processImage return 0 without error and
    leaves rows and files as they were.  (b) An insert of a hash the
    table has, once SQLite runs the statement, returns without error and
    leaves the table as it was; and no insert ever makes two rows share a
    hash.  (c) With a stationary upstream, the context alive, the buckets
    granting and the disk and SQLite working, a second Run right after a
    first returns 0 and leaves rows and files as the first left them. *)
Theorem ingestion_is_idempotent env ing :
  (forall srcURL source category origW origH w data w2,
     limiter_err env (tick w) DownloadLimiter = None ->
     downloadImage env srcURL (granted DownloadLimiter w) = (Ok data, w2) ->
     db_err env (tick w2) = None ->
     hash_present (contentHash env data) (rows w) = true ->
     let run := processImage env ing srcURL source category origW origH w in
     fst run = Ok 0 /\ rows (snd run) = rows w /\ files (snd run) = files w)
  /\
  (forall img w,
     db_err env (tick w) = None ->
     hash_present (Hash img) (rows w) = true ->
     let run := Insert env img w in
     is_Ok (fst run) = true
     /\ rows (snd run) = rows w /\ files (snd run) = files w)
  /\
  (forall img w,
     List.NoDup (map Hash (rows w)) ->
     List.NoDup (map Hash (rows (snd (Insert env img w)))))
  /\
  (undisturbed env -> no_local_failure env -> stationary env ->
   forall w,
     let first := Run env ing w in
     let second := Run env ing (snd first) in
     fst second = Ok 0
     /\ rows (snd second) = rows (snd first)
     /\ files (snd second) = files (snd first)).
Proof.
  split; [| split; [| split]].
  - intros srcURL source category origW origH w data w2 Hlim Hdl Hq Hp run.
    subst run.
    destruct (downloadImage_frame _ _ _ _ _ Hdl) as (Hf & Hr & _).
    cbn [granted emit advance rows files] in Hf, Hr.
    rewrite processImage_duplicate with (data := data) (w2 := w2)
      by (try assumption; rewrite Hr; assumption).
    cbn [fst snd advance rows files]. auto.
  - intros img w Hdb Hp run. subst run.
    rewrite Insert_present by assumption. cbn. auto.
  - intros img w. apply Insert_unique.
  - intros Hq Hl Hs w first second. subst second first.
    rewrite (Run_chain env ing w). cbn [snd].
    set (a1 := ingestWaifuIm env ing "sfw" w).
    set (w1 := afterAdapter "waifu.im sfw" a1).
    set (a2 := ingestWaifuIm env ing "nsfw" w1).
    set (w2 := afterAdapter "waifu.im nsfw" a2).
    set (a3 := ingestWaifuPics env ing waifuPicsManyURL "sfw" w2).
    set (w3 := afterAdapter "waifu.pics sfw" a3).
    set (a4 := ingestWaifuPics env ing waifuPicsNSFWURL "nsfw" w3).
    set (w4 := afterAdapter "waifu.pics nsfw" a4).
    (* what the first run learnt *)
    destruct (ingestWaifuIm_learns env ing Hq Hl Hs "sfw" w) as [G1 K1].
    destruct (ingestWaifuIm_learns env ing Hq Hl Hs "nsfw" w1) as [G2 K2].
    destruct (ingestWaifuPics_learns env ing Hq Hl Hs waifuPicsManyURL "sfw" w2)
      as [G3 K3].
    destruct (ingestWaifuPics_learns env ing Hq Hl Hs waifuPicsNSFWURL "nsfw"
                w3) as [G4 K4].
    cbv zeta in *.
    fold a1 in G1, K1. fold a2 in G2, K2. fold a3 in G3, K3. fold a4 in G4, K4.
    assert (S1 : grown (snd a1) w1)
      by (apply grown_same, rows_afterAdapter).
    assert (S2 : grown (snd a2) w2)
      by (apply grown_same, rows_afterAdapter).
    assert (S3 : grown (snd a3) w3)
      by (apply grown_same, rows_afterAdapter).
    assert (S4 : grown (snd a4) w4)
      by (apply grown_same, rows_afterAdapter).
    assert (K1' : waifuImKnown env "sfw" w4).
    { eapply waifuImKnown_grown; [| exact K1].
      repeat (eapply grown_trans; [eassumption |]). apply grown_refl. }
    assert (K2' : waifuImKnown env "nsfw" w4).
    { eapply waifuImKnown_grown; [| exact K2].
      repeat (eapply grown_trans; [eassumption |]). apply grown_refl. }
    assert (K3' : waifuPicsKnown env waifuPicsManyURL w4).
    { eapply waifuPicsKnown_grown; [| exact K3].
      repeat (eapply grown_trans; [eassumption |]). apply grown_refl. }
    assert (K4' : waifuPicsKnown env waifuPicsNSFWURL w4).
    { eapply waifuPicsKnown_grown; [| exact K4]. exact S4. }
    clearbody w4. clear - Hq Hl Hs K1' K2' K3' K4'.
    (* the second run *)
    rewrite (Run_chain env ing w4).
    set (b1 := ingestWaifuIm env ing "sfw" w4).
    set (v1 := afterAdapter "waifu.im sfw" b1).
    set (b2 := ingestWaifuIm env ing "nsfw" v1).
    set (v2 := afterAdapter "waifu.im nsfw" b2).
    set (b3 := ingestWaifuPics env ing waifuPicsManyURL "sfw" v2).
    set (v3 := afterAdapter "waifu.pics sfw" b3).
    set (b4 := ingestWaifuPics env ing waifuPicsNSFWURL "nsfw" v3).
    set (v4 := afterAdapter "waifu.pics nsfw" b4).
    destruct (ingestWaifuIm_skips env ing Hq Hl Hs "sfw" w4 K1')
      as (T1 & R1 & F1). cbv zeta in T1, R1, F1. fold b1 in T1, R1, F1.
    assert (R1' : rows v1 = rows w4)
      by (unfold v1; rewrite rows_afterAdapter; exact R1).
    assert (F1' : files v1 = files w4)
      by (unfold v1; rewrite files_afterAdapter; exact F1).
    destruct (ingestWaifuIm_skips env ing Hq Hl Hs "nsfw" v1)
      as (T2 & R2 & F2).
    { eapply waifuImKnown_grown; [apply grown_same; exact R1' | exact K2']. }
    cbv zeta in T2, R2, F2. fold b2 in T2, R2, F2.
    assert (R2' : rows v2 = rows w4)
      by (unfold v2; rewrite rows_afterAdapter; congruence).
    assert (F2' : files v2 = files w4)
      by (unfold v2; rewrite files_afterAdapter; congruence).
    destruct (ingestWaifuPics_skips env ing Hq Hl Hs waifuPicsManyURL "sfw" v2)
      as (T3 & R3 & F3).
    { eapply waifuPicsKnown_grown; [apply grown_same; exact R2' | exact K3']. }
    cbv zeta in T3, R3, F3. fold b3 in T3, R3, F3.
    assert (R3' : rows v3 = rows w4)
      by (unfold v3; rewrite rows_afterAdapter; congruence).
    assert (F3' : files v3 = files w4)
      by (unfold v3; rewrite files_afterAdapter; congruence).
    destruct (ingestWaifuPics_skips env ing Hq Hl Hs waifuPicsNSFWURL "nsfw" v3)
      as (T4 & R4 & F4).
    { eapply waifuPicsKnown_grown; [apply grown_same; exact R3' | exact K4']. }
    cbv zeta in T4, R4, F4. fold b4 in T4, R4, F4.
    cbn [fst snd]. rewrite T1, T2, T3, T4.
    split; [reflexivity |].
    unfold v4. rewrite rows_afterAdapter, files_afterAdapter.
    split; congruence.
Qed.

Lemma ingestion_is_idempotent_witness :
  (let w := snd (processImage env_steady testIngester testURL "waifu.im"
                   "sfw" 0 0 empty_world) in
   let run := processImage env_steady testIngester testURL "waifu.pics"
                "nsfw" 0 0 w in
   fst run = Ok 0 /\ rows (snd run) = rows w /\ files (snd run) = files w)
  /\
  (let w := snd (Insert env_steady testImage empty_world) in
   let run := Insert env_steady testImage w in
   is_Ok (fst run) = true
   /\ rows (snd run) = rows w /\ files (snd run) = files w)
  /\
  (let first := Run env_steady testIngester empty_world in
   let second := Run env_steady testIngester (snd first) in
   fst second = Ok 0
   /\ rows (snd second) = rows (snd first)
   /\ files (snd second) = files (snd first)).
Proof.
  split; [| split].
  - apply (proj1 (ingestion_is_idempotent env_steady testIngester)
             testURL "waifu.pics" "nsfw" 0 0
             (snd (processImage env_steady testIngester testURL "waifu.im"
                     "sfw" 0 0 empty_world))
             [x89; x50; x4e]
             (snd (downloadImage env_steady testURL
                     (granted DownloadLimiter
                        (snd (processImage env_steady testIngester testURL
                                "waifu.im" "sfw" 0 0 empty_world))))));
      vm_compute; reflexivity.
  - apply (proj1 (proj2 (ingestion_is_idempotent env_steady testIngester)));
      reflexivity.
  - apply (proj2 (proj2 (proj2 (ingestion_is_idempotent env_steady
                                  testIngester)))).
    + split; reflexivity.
    + split; reflexivity.
    + intros n m r. reflexivity.
Defined.

(** The repository's TestInsertDuplicate: the second insert is ignored. *)
Example TestInsertDuplicate :
  let w1 := snd (Insert env_steady testImage empty_world) in
  let second := Insert env_steady testImage w1 in
  is_Ok (fst second) = true /\ length (rows (snd second)) = 1%nat.
Proof. vm_compute. split; reflexivity. Qed.

(** Two cycles against [env_steady], evaluated: three candidates with the
    same bytes give one row; the second cycle adds none. *)
Example Run_twice_env_steady :
  let first := Run env_steady testIngester empty_world in
  let second := Run env_steady testIngester (snd first) in
  fst first = Ok 1 /\ fst second = Ok 0
  /\ map Filename (rows (snd second)) = ["89504e.webp"].
Proof. vm_compute. repeat split; reflexivity. Qed.

(** * More of the code *)

(** ** The retry loops in any world *)

Lemma fetchLoop_unfold env method url reqBody source limiter fuel attempt
    lastErr w :
  fetchLoop env method url reqBody source limiter (S fuel) attempt lastErr w
  = match apiPrelude env source limiter attempt w with
    | (Ok _, w1) =>
      if url_parses env url
      then apiContinue env method url reqBody source limiter fuel attempt w1
      else (Err ErrNewRequest, w1)
    | (Err e, w1) => (Err e, w1)
    | (Panic, w1) => (Panic, w1)
    end.
Proof.
  cbn [fetchLoop]. fold (apiPrelude env source limiter attempt).
  unfold bind at 1.
  destruct (apiPrelude env source limiter attempt w) as [[[] | e |] w1];
    [| reflexivity | reflexivity].
  destruct (url_parses env url) eqn:Hurl.
  - apply fetchLoop_send. exact Hurl.
  - unfold bind, NewRequestWithContext. rewrite Hurl. reflexivity.
Qed.

Lemma downloadLoop_unfold env srcURL fuel attempt lastErr w :
  downloadLoop env srcURL (S fuel) attempt lastErr w
  = match imagePrelude env attempt w with
    | (Ok _, w1) =>
      if url_parses env srcURL
      then imageContinue env srcURL fuel attempt w1
      else (Err ErrNewRequest, w1)
    | (Err e, w1) => (Err e, w1)
    | (Panic, w1) => (Panic, w1)
    end.
Proof.
  cbn [downloadLoop]. fold (imagePrelude env attempt).
  unfold bind at 1.
  destruct (imagePrelude env attempt w) as [[[] | e |] w1];
    [| reflexivity | reflexivity].
  destruct (url_parses env srcURL) eqn:Hurl.
  - apply downloadLoop_send. exact Hurl.
  - unfold bind, NewRequestWithContext. rewrite Hurl. reflexivity.
Qed.

(** The prelude sends nothing; it takes one token exactly when it is a
    retry's prelude and comes through. *)
Lemma apiPrelude_effect env source limiter attempt w :
  let run := apiPrelude env source limiter attempt w in
  sends (snd run) = sends w
  /\ tokens (snd run)
     = (tokens w + if is_Ok (fst run) && (0 <? attempt)%Z then 1 else 0)%nat.
Proof.
  cbv zeta. destruct (apiPrelude env source limiter attempt w) as [r w1] eqn:E.
  cbn [fst snd]. unfold apiPrelude in E. destruct (0 <? attempt).
  2:{ injection E as <- <-. cbn. split; [reflexivity | lia]. }
  unfold bind at 1 in E. unfold backoffDuration, bind at 1, rand_Int63n in E.
  destruct (Z.quot _ 2 <=? 0).
  { injection E as <- <-. cbn. split; [reflexivity | lia]. }
  unfold ret at 1 in E. unfold bind at 1, log_Printf at 1 in E.
  unfold bind at 1, sleep_or_cancel at 1 in E.
  cbn [tick emit advance] in E.
  destruct (ctx_done env _).
  { injection E as <- <-. unfold sends, tokens. cbn.
    split; [reflexivity | lia]. }
  unfold limiter_Wait in E. cbn [tick emit advance] in E.
  destruct (limiter_err env _ limiter).
  { injection E as <- <-. unfold sends, tokens. cbn.
    split; [reflexivity | lia]. }
  injection E as <- <-. unfold sends, tokens. cbn.
  split; [reflexivity | lia].
Qed.

Lemma imagePrelude_effect env attempt w :
  let run := imagePrelude env attempt w in
  sends (snd run) = sends w /\ tokens (snd run) = tokens w.
Proof.
  cbv zeta. destruct (imagePrelude env attempt w) as [r w1] eqn:E.
  cbn [snd]. unfold imagePrelude in E. destruct (0 <? attempt).
  2:{ injection E as <- <-. split; reflexivity. }
  unfold bind at 1 in E. unfold backoffDuration, bind at 1, rand_Int63n in E.
  destruct (Z.quot _ 2 <=? 0).
  { injection E as <- <-. split; reflexivity. }
  unfold ret at 1 in E. unfold sleep_or_cancel in E. cbn [tick advance] in E.
  destruct (ctx_done env _); injection E as <- <-; split; reflexivity.
Qed.

Lemma fetchLoop_sends env method url reqBody source limiter fuel :
  forall attempt lastErr w,
    let w' := snd (fetchLoop env method url reqBody source limiter fuel
                     attempt lastErr w) in
    (sends w <= sends w' <= sends w + fuel)%nat.
Proof.
  induction fuel as [| fuel IH]; intros attempt lastErr w; cbv zeta.
  - cbn. lia.
  - rewrite fetchLoop_unfold.
    destruct (apiPrelude_effect env source limiter attempt w) as [Hs _].
    cbv zeta in Hs.
    destruct (apiPrelude env source limiter attempt w) as [[[] | e |] w1];
      cbn [snd] in *; try lia.
    destruct (url_parses env url); cbn [snd]; [| lia].
    unfold apiContinue. cbv zeta.
    destruct (apiVerdict _ _); cbn [snd]; try (rewrite sends_sent; lia).
    specialize (IH (attempt + 1) (Some e)
                  (sent (apiRequest method url reqBody) w1)).
    cbv zeta in IH. rewrite sends_sent in IH. lia.
Qed.

Lemma downloadLoop_sends env srcURL fuel :
  forall attempt lastErr w,
    let w' := snd (downloadLoop env srcURL fuel attempt lastErr w) in
    (sends w <= sends w' <= sends w + fuel)%nat.
Proof.
  induction fuel as [| fuel IH]; intros attempt lastErr w; cbv zeta.
  - cbn. lia.
  - rewrite downloadLoop_unfold.
    destruct (imagePrelude_effect env attempt w) as [Hs _]. cbv zeta in Hs.
    destruct (imagePrelude env attempt w) as [[[] | e |] w1];
      cbn [snd] in *; try lia.
    destruct (url_parses env srcURL); cbn [snd]; [| lia].
    unfold imageContinue. cbv zeta.
    destruct (imageVerdict _); cbn [snd]; try (rewrite sends_sent; lia).
    specialize (IH (attempt + 1) (Some e) (sent (imageRequest srcURL) w1)).
    cbv zeta in IH. rewrite sends_sent in IH. lia.
Qed.

(** X1.  Whatever the upstream, the context and the limiter do, one call
    of fetchWithRetry or of downloadImage sends at most 3 requests. *)
Theorem at_most_three_requests env w :
  (forall method url reqBody source limiter,
     let w' := snd (fetchWithRetry env method url reqBody source limiter w) in
     (sends w <= sends w' <= sends w + 3)%nat)
  /\ (forall srcURL,
        let w' := snd (downloadImage env srcURL w) in
        (sends w <= sends w' <= sends w + 3)%nat).
Proof.
  split.
  - intros method url reqBody source limiter.
    apply (fetchLoop_sends env method url reqBody source limiter 3).
  - intros srcURL. apply (downloadLoop_sends env srcURL 3).
Qed.

Lemma apiVerdict_Deliver source r data :
  apiVerdict source r = Deliver data -> delivers apiBodyCap r data.
Proof.
  destruct r as [e | status b]; cbn [apiVerdict]; [discriminate |].
  destruct ((status =? StatusTooManyRequests) || (500 <=? status));
    [discriminate |].
  destruct (status =? StatusOK) eqn:Hok; cbn [negb]; [| discriminate].
  apply Z.eqb_eq in Hok. subst status.
  destruct (ReadAll_LimitReader b apiBodyCap) as [d [e |]] eqn:Hread;
    cbn [fst snd]; [discriminate |].
  intros [= <-]. exists b. split; [reflexivity | exact Hread].
Qed.

Lemma imageVerdict_Deliver r data :
  imageVerdict r = Deliver data -> delivers imageBodyCap r data.
Proof.
  destruct r as [e | status b]; cbn [imageVerdict]; [discriminate |].
  destruct ((status =? StatusTooManyRequests) || (500 <=? status));
    [discriminate |].
  destruct (status =? StatusOK) eqn:Hok; cbn [negb]; [| discriminate].
  apply Z.eqb_eq in Hok. subst status.
  destruct (ReadAll_LimitReader b imageBodyCap) as [d [e |]] eqn:Hread;
    cbn [fst snd]; [discriminate |].
  intros [= <-]. exists b. split; [reflexivity | exact Hread].
Qed.

Lemma delivers_apiVerdict source r data :
  delivers apiBodyCap r data -> apiVerdict source r = Deliver data.
Proof.
  intros [b [-> Hread]]. cbn [apiVerdict].
  change ((StatusOK =? StatusTooManyRequests) || (500 <=? StatusOK))
    with false.
  change (negb (StatusOK =? StatusOK)) with false. cbv iota.
  rewrite Hread. reflexivity.
Qed.

Lemma delivers_imageVerdict r data :
  delivers imageBodyCap r data -> imageVerdict r = Deliver data.
Proof.
  intros [b [-> Hread]]. cbn [imageVerdict].
  change ((StatusOK =? StatusTooManyRequests) || (500 <=? StatusOK))
    with false.
  change (negb (StatusOK =? StatusOK)) with false. cbv iota.
  rewrite Hread. reflexivity.
Qed.

Lemma delivers_length cap r data :
  0 <= cap -> delivers cap r data -> Z.of_nat (length data) <= cap.
Proof.
  intros Hcap [b [_ Hread]]. unfold ReadAll_LimitReader in Hread.
  destruct (cap <=? Z.of_nat (length (body_bytes b))) eqn:Hle.
  - injection Hread as <-. rewrite length_firstn. lia.
  - injection Hread as <- _. apply Z.leb_gt in Hle. lia.
Qed.

Lemma fetchLoop_Ok env method url reqBody source limiter fuel :
  forall attempt lastErr w data,
    fst (fetchLoop env method url reqBody source limiter fuel attempt
           lastErr w) = Ok data ->
    exists n, delivers apiBodyCap
                (http_do env n (apiRequest method url reqBody)) data.
Proof.
  induction fuel as [| fuel IH]; intros attempt lastErr w data;
    [discriminate |].
  rewrite fetchLoop_unfold.
  destruct (apiPrelude env source limiter attempt w) as [[[] | e |] w1];
    cbn [fst]; try discriminate.
  destruct (url_parses env url); [| discriminate].
  unfold apiContinue. cbv zeta.
  destruct (apiVerdict _ _) as [e | e | d] eqn:Hv; cbn [fst].
  - apply IH.
  - discriminate.
  - intros [= <-]. eexists. apply (apiVerdict_Deliver _ _ _ Hv).
Qed.

Lemma downloadLoop_Ok env srcURL fuel :
  forall attempt lastErr w data,
    fst (downloadLoop env srcURL fuel attempt lastErr w) = Ok data ->
    exists n, delivers imageBodyCap
                (http_do env n (imageRequest srcURL)) data.
Proof.
  induction fuel as [| fuel IH]; intros attempt lastErr w data;
    [discriminate |].
  rewrite downloadLoop_unfold.
  destruct (imagePrelude env attempt w) as [[[] | e |] w1];
    cbn [fst]; try discriminate.
  destruct (url_parses env srcURL); [| discriminate].
  unfold imageContinue. cbv zeta.
  destruct (imageVerdict _) as [e | e | d] eqn:Hv; cbn [fst].
  - apply IH.
  - discriminate.
  - intros [= <-]. eexists. apply (imageVerdict_Deliver _ _ Hv).
Qed.

(** X2.  Bytes that fetchWithRetry or downloadImage return are the body
    of a 200 response the upstream gave to that very request, read
    without error, and never more than the cap (1 MiB, 10 MiB): no other
    status and no failed read ever yields data. *)
Theorem returned_bytes_come_from_a_200 env w data :
  (forall method url reqBody source limiter,
     fst (fetchWithRetry env method url reqBody source limiter w) = Ok data ->
     (exists n, delivers apiBodyCap
                  (http_do env n (apiRequest method url reqBody)) data)
     /\ Z.of_nat (length data) <= 1048576)
  /\ (forall srcURL,
        fst (downloadImage env srcURL w) = Ok data ->
        (exists n, delivers imageBodyCap
                     (http_do env n (imageRequest srcURL)) data)
        /\ Z.of_nat (length data) <= 10485760).
Proof.
  split.
  - intros method url reqBody source limiter H.
    apply fetchLoop_Ok in H as [n Hd]. split; [exists n; exact Hd |].
    apply (delivers_length apiBodyCap _ _ ltac:(rewrite apiBodyCap_value; lia))
      in Hd.
    rewrite apiBodyCap_value in Hd. exact Hd.
  - intros srcURL H.
    apply downloadLoop_Ok in H as [n Hd]. split; [exists n; exact Hd |].
    apply (delivers_length imageBodyCap _ _
             ltac:(rewrite imageBodyCap_value; lia)) in Hd.
    rewrite imageBodyCap_value in Hd. exact Hd.
Qed.

Lemma returned_bytes_come_from_a_200_witness :
  (exists n, delivers imageBodyCap
               (http_do env_plain n (imageRequest testURL)) [x89; x50; x4e])
  /\ Z.of_nat (length [x89; x50; x4e]) <= 10485760.
Proof.
  apply (proj2 (returned_bytes_come_from_a_200 env_plain empty_world
                  [x89; x50; x4e]) testURL).
  reflexivity.
Defined.

Lemma fetchLoop_tokens env method url reqBody source limiter fuel :
  url_parses env url = true ->
  forall attempt lastErr w,
    0 < attempt ->
    let w' := snd (fetchLoop env method url reqBody source limiter fuel
                     attempt lastErr w) in
    (sends w' + tokens w = tokens w' + sends w)%nat.
Proof.
  intros Hurl.
  induction fuel as [| fuel IH]; intros attempt lastErr w Hatt; cbv zeta.
  - cbn. lia.
  - rewrite fetchLoop_unfold.
    destruct (apiPrelude_effect env source limiter attempt w) as [Hs Ht].
    cbv zeta in Hs, Ht.
    replace (0 <? attempt) with true in Ht by (symmetry; apply Z.ltb_lt; lia).
    destruct (apiPrelude env source limiter attempt w) as [[[] | e |] w1];
      cbn [fst snd is_Ok andb] in *; try lia.
    rewrite Hurl. unfold apiContinue. cbv zeta.
    destruct (apiVerdict _ _); cbn [snd];
      try (rewrite sends_sent, tokens_sent; lia).
    specialize (IH (attempt + 1) (Some e)
                  (sent (apiRequest method url reqBody) w1) ltac:(lia)).
    cbv zeta in IH. rewrite sends_sent, tokens_sent in IH. lia.
Qed.

(** X3.  In every world, a fetchWithRetry call that can build its request
    sends exactly one request more than it takes tokens: the first
    request goes out on the token its caller took, every later one on a
    token the call took itself, and no token is taken without a request
    following. *)
Theorem fetchWithRetry_one_token_per_retry env method url reqBody source
    limiter w :
  url_parses env url = true ->
  let w' := snd (fetchWithRetry env method url reqBody source limiter w) in
  (sends w' + tokens w = tokens w' + sends w + 1)%nat.
Proof.
  intros Hurl. cbv zeta. unfold fetchWithRetry.
  change (Z.to_nat maxRetries) with 3%nat.
  rewrite fetchLoop_first by exact Hurl. unfold apiContinue. cbv zeta.
  destruct (apiVerdict _ _); cbn [snd];
    try (rewrite sends_sent, tokens_sent; lia).
  pose proof (fetchLoop_tokens env method url reqBody source limiter 2 Hurl
                (0 + 1) (Some e) (sent (apiRequest method url reqBody) w)
                ltac:(lia)) as H.
  cbv zeta in H. rewrite sends_sent, tokens_sent in H. lia.
Qed.

Lemma fetchWithRetry_one_token_per_retry_witness :
  let w' := snd (fetchWithRetry env_500 MethodGet waifuImSearchURL None
                   "waifu.im" WaifuImLimiter empty_world) in
  (sends w' + tokens empty_world = tokens w' + sends empty_world + 1)%nat.
Proof.
  apply (fetchWithRetry_one_token_per_retry env_500 MethodGet waifuImSearchURL
           None "waifu.im" WaifuImLimiter empty_world).
  reflexivity.
Defined.

(** X4.  A download whose first two attempts fail in a retryable way (a
    transport failure, a 429 or a 5xx) and whose third attempt gets a 200
    returns that response's body, after exactly 3 requests and two
    backoffs, provided the context stays alive. *)
Theorem downloadImage_third_time_lucky env srcURL w data :
  (forall n, ctx_done env n = false) ->
  url_parses env srcURL = true ->
  let req := imageRequest srcURL in
  retryable (http_do env (tick w) req) = true ->
  retryable (http_do env (3 + tick w) req) = true ->
  delivers imageBodyCap (http_do env (6 + tick w) req) data ->
  let run := downloadImage env srcURL w in
  fst run = Ok data
  /\ sends (snd run) = (sends w + 3)%nat
  /\ length (slept (snd run)) = (length (slept w) + 2)%nat.
Proof.
  intros Hctx Hurl req H1 H2 H3 run. subst run. unfold downloadImage.
  change (Z.to_nat maxRetries) with 3%nat.
  rewrite downloadLoop_first by assumption. unfold imageContinue.
  fold req. rewrite retryable_imageVerdict by exact H1.
  change (0 + 1) with 1.
  rewrite downloadLoop_retry by auto. unfold imageContinue.
  fold req.
  change (tick (imageBackedOff env 1 (sent req w))) with (3 + tick w)%nat.
  rewrite retryable_imageVerdict by exact H2.
  change (1 + 1) with 2.
  rewrite downloadLoop_retry by auto. unfold imageContinue.
  fold req.
  change (tick (imageBackedOff env 2 (sent req (imageBackedOff env 1
                                                 (sent req w)))))
    with (6 + tick w)%nat.
  rewrite (delivers_imageVerdict _ _ H3). cbn [fst snd].
  split; [reflexivity |]. split.
  - repeat (rewrite sends_sent || rewrite sends_imageBackedOff). lia.
  - unfold slept. cbn. lia.
Qed.

Lemma downloadImage_third_time_lucky_witness :
  let run := downloadImage env_third_time testURL empty_world in
  fst run = Ok [x89; x50; x4e]
  /\ sends (snd run) = (sends empty_world + 3)%nat
  /\ length (slept (snd run)) = (length (slept empty_world) + 2)%nat.
Proof.
  apply (downloadImage_third_time_lucky env_third_time testURL empty_world
           [x89; x50; x4e]).
  - intros n. reflexivity.
  - reflexivity.
  - reflexivity.
  - reflexivity.
  - exists payload. split; reflexivity.
Defined.

(** X5.  When the context is cancelled while a retry's backoff is being
    waited for, fetchWithRetry and downloadImage return the context's
    error at once: the one request already sent stays the only one, and
    fetchWithRetry takes no token. *)
Theorem cancelled_backoff_stops_the_call env w :
  ctx_done env (2 + tick w) = true ->
  (forall method url reqBody source limiter,
     url_parses env url = true ->
     retryable (http_do env (tick w) (apiRequest method url reqBody)) = true ->
     let run := fetchWithRetry env method url reqBody source limiter w in
     fst run = Err ErrCanceled
     /\ sends (snd run) = (sends w + 1)%nat
     /\ tokens (snd run) = tokens w)
  /\ (forall srcURL,
        url_parses env srcURL = true ->
        retryable (http_do env (tick w) (imageRequest srcURL)) = true ->
        let run := downloadImage env srcURL w in
        fst run = Err ErrCanceled /\ sends (snd run) = (sends w + 1)%nat).
Proof.
  intros Hdone. split.
  - intros method url reqBody source limiter Hurl Hret run. subst run.
    destruct (fetchWithRetry env method url reqBody source limiter w)
      as [r w'] eqn:E.
    unfold fetchWithRetry in E. change (Z.to_nat maxRetries) with 3%nat in E.
    rewrite fetchLoop_first in E by assumption.
    unfold apiContinue in E. cbv zeta in E.
    rewrite retryable_apiVerdict in E by exact Hret.
    change (0 + 1) with 1 in E.
    rewrite fetchLoop_unfold in E. unfold apiPrelude in E.
    change (0 <? 1) with true in E. cbv iota in E.
    set (w1 := sent (apiRequest method url reqBody) w) in E.
    destruct (backoffDuration_retry env 1 w1 (or_introl eq_refl)) as [Hb _].
    cbv zeta in Hb.
    unfold bind at 1 in E. rewrite Hb in E.
    unfold bind at 1, log_Printf at 1 in E.
    unfold bind at 1, sleep_or_cancel at 1 in E.
    change (tick (emit _ (advance w1))) with (2 + tick w)%nat in E.
    rewrite Hdone in E. injection E as <- <-. cbn [fst snd].
    split; [reflexivity |]. unfold sends, tokens, w1. cbn. split; lia.
  - intros srcURL Hurl Hret run. subst run.
    destruct (downloadImage env srcURL w) as [r w'] eqn:E.
    unfold downloadImage in E. change (Z.to_nat maxRetries) with 3%nat in E.
    rewrite downloadLoop_first in E by assumption.
    unfold imageContinue in E. cbv zeta in E.
    rewrite retryable_imageVerdict in E by exact Hret.
    change (0 + 1) with 1 in E.
    rewrite downloadLoop_unfold in E. unfold imagePrelude in E.
    change (0 <? 1) with true in E. cbv iota in E.
    set (w1 := sent (imageRequest srcURL) w) in E.
    destruct (backoffDuration_retry env 1 w1 (or_introl eq_refl)) as [Hb _].
    cbv zeta in Hb.
    unfold bind at 1 in E. rewrite Hb in E. unfold sleep_or_cancel at 1 in E.
    change (tick (advance w1)) with (2 + tick w)%nat in E.
    rewrite Hdone in E. injection E as <- <-. cbn [fst snd].
    split; [reflexivity |]. unfold sends, w1. cbn. lia.
Qed.

Lemma cancelled_backoff_stops_the_call_witness :
  (let run := fetchWithRetry env_cancelled MethodGet waifuImSearchURL None
                "waifu.im" WaifuImLimiter empty_world in
   fst run = Err ErrCanceled
   /\ sends (snd run) = (sends empty_world + 1)%nat
   /\ tokens (snd run) = tokens empty_world)
  /\ (let run := downloadImage env_cancelled testURL empty_world in
      fst run = Err ErrCanceled
      /\ sends (snd run) = (sends empty_world + 1)%nat).
Proof.
  split.
  - apply (proj1 (cancelled_backoff_stops_the_call env_cancelled empty_world
                    eq_refl)); reflexivity.
  - apply (proj2 (cancelled_backoff_stops_the_call env_cancelled empty_world
                    eq_refl)); reflexivity.
Defined.

(** ** backoffDuration over its whole domain *)

Lemma shl64_1_small attempt : 0 <= attempt <= 62 -> shl64 1 attempt = 2 ^ attempt.
Proof.
  intros H. unfold shl64.
  assert (Hpow : 2 ^ 64 = 18446744073709551616) by reflexivity.
  rewrite Z.mod_small by lia.
  replace (64 <=? attempt) with false by (symmetry; apply Z.leb_gt; lia).
  rewrite Z.shiftl_1_l. apply wrap64_small.
  assert (0 < 2 ^ attempt) by (apply Z.pow_pos_nonneg; lia).
  assert (2 ^ attempt <= 2 ^ 62) by (apply Z.pow_le_mono_r; lia).
  change (2 ^ 62) with 4611686018427387904 in *.
  change (2 ^ 63) with 9223372036854775808. lia.
Qed.

Lemma shl64_1_far attempt :
  minInt64 <= attempt < 0 \/ 64 <= attempt <= maxInt64 ->
  shl64 1 attempt = 0.
Proof.
  intros H. unfold shl64, minInt64, maxInt64 in *.
  change (2 ^ 63) with 9223372036854775808 in H.
  change (2 ^ 64) with 18446744073709551616.
  replace (64 <=? attempt mod 18446744073709551616) with true; [reflexivity |].
  symmetry. apply Z.leb_le. destruct H as [H | H].
  - replace attempt with (attempt + 18446744073709551616
                          + (-1) * 18446744073709551616) by lia.
    rewrite Z.mod_add by lia. rewrite Z.mod_small by lia. lia.
  - rewrite Z.mod_small by lia. lia.
Qed.

(** X6.  For every attempt from 0 to 32 backoffDuration returns
    2^attempt seconds plus a jitter of at least 0 and less than half of
    that, without overflow in its int64 nanoseconds.  For a negative
    attempt or one from 64 up the shift gives a zero base and
    rand.Int63n(0) panics. *)
Theorem backoffDuration_domain env w :
  (forall attempt,
     0 <= attempt <= 32 ->
     exists jitter,
       backoffDuration env attempt w
       = (Ok (2 ^ attempt * Second + jitter), advance w)
       /\ 0 <= jitter < 2 ^ attempt * Second / 2
       /\ 2 ^ attempt * Second + jitter <= maxInt64)
  /\ (forall attempt,
        minInt64 <= attempt < 0 \/ 64 <= attempt <= maxInt64 ->
        backoffDuration env attempt w = (Panic, w)).
Proof.
  split.
  - intros attempt H.
    assert (Hp : 1 <= 2 ^ attempt <= 4294967296).
    { split.
      - assert (0 < 2 ^ attempt) by (apply Z.pow_pos_nonneg; lia). lia.
      - change 4294967296 with (2 ^ 32). apply Z.pow_le_mono_r; lia. }
    unfold backoffDuration, bind, rand_Int63n, ret.
    rewrite shl64_1_small by lia.
    set (p := 2 ^ attempt) in *.
    assert (Hbase : wrap64 (p * Second) = p * Second).
    { apply wrap64_small. change (2 ^ 63) with 9223372036854775808.
      unfold Second. lia. }
    rewrite Hbase.
    assert (Hq : Z.quot (p * Second) 2 = p * Second / 2).
    { apply Z.quot_div_nonneg; unfold Second; lia. }
    rewrite Hq.
    assert (Hhalf : 500000000 <= p * Second / 2 <= 2147483648000000000).
    { unfold Second. split.
      - apply Z.div_le_lower_bound; lia.
      - apply Z.div_le_upper_bound; lia. }
    replace (p * Second / 2 <=? 0) with false by (symmetry; apply Z.leb_gt; lia).
    pose proof (Z.mod_pos_bound (rand_raw env (tick w)) (p * Second / 2)
                  ltac:(lia)) as Hj.
    exists (rand_raw env (tick w) mod (p * Second / 2)).
    assert (Hsum : p * Second + rand_raw env (tick w) mod (p * Second / 2)
                   <= maxInt64).
    { unfold maxInt64. change (2 ^ 63) with 9223372036854775808.
      unfold Second in *. lia. }
    split; [| split; [exact Hj | exact Hsum]].
    rewrite wrap64_small; [reflexivity |].
    unfold maxInt64 in Hsum. unfold Second in *. lia.
  - intros attempt H. unfold backoffDuration, bind, rand_Int63n.
    rewrite shl64_1_far by exact H. reflexivity.
Qed.

Lemma backoffDuration_domain_witness :
  (exists jitter,
     backoffDuration env_500 32 empty_world
     = (Ok (2 ^ 32 * Second + jitter), advance empty_world)
     /\ 0 <= jitter < 2 ^ 32 * Second / 2
     /\ 2 ^ 32 * Second + jitter <= maxInt64)
  /\ backoffDuration env_500 64 empty_world = (Panic, empty_world).
Proof.
  split.
  - apply (proj1 (backoffDuration_domain env_500 empty_world) 32). lia.
  - apply (proj2 (backoffDuration_domain env_500 empty_world) 64).
    right. unfold maxInt64. change (2 ^ 63) with 9223372036854775808. lia.
Defined.

(** ** package catalog *)

Lemma HasHash_spec env hash w :
  db_err env (tick w) = None ->
  HasHash env hash w = (Ok (hash_present hash (rows w)), advance w).
Proof. intros H. unfold HasHash. rewrite H, HasHash_count. reflexivity. Qed.


(** X7.  Insert and HasHash round trip: once Insert has returned without
    error, HasHash finds the image's hash, whether this insert added the
    row or an earlier one had; and for every other hash HasHash answers
    what it answered before the insert. *)
Theorem Insert_then_HasHash env img w id :
  fst (Insert env img w) = Ok id ->
  let w' := snd (Insert env img w) in
  db_err env (tick w') = None ->
  fst (HasHash env (Hash img) w') = Ok true
  /\ forall other,
       other <> Hash img ->
       fst (HasHash env other w') = Ok (hash_present other (rows w)).
Proof.
  intros Hok w' Hdb. subst w'.
  assert (Hrows : rows (snd (Insert env img w)) = rows w
                  /\ hash_present (Hash img) (rows w) = true
                  \/ rows (snd (Insert env img w))
                     = rows w ++ [stored img (db_seq w + 1)
                                    (clock env (tick w))]).
  { unfold Insert in *.
    destruct (db_err env (tick w)); [discriminate |].
    destruct (hash_present (Hash img) (rows w)); [left | right]; auto. }
  split.
  - rewrite HasHash_spec by exact Hdb. cbn [fst]. f_equal.
    destruct Hrows as [[-> Hp] | ->]; [exact Hp |].
    rewrite hash_present_app. cbn. rewrite String.eqb_refl.
    rewrite orb_true_r. reflexivity.
  - intros other Hne. rewrite HasHash_spec by exact Hdb. cbn [fst]. f_equal.
    destruct Hrows as [[-> _] | ->]; [reflexivity |].
    rewrite hash_present_app. cbn.
    replace (String.eqb (Hash img) other) with false.
    + rewrite !orb_false_r. reflexivity.
    + symmetry. apply String.eqb_neq. congruence.
Qed.

Lemma Insert_then_HasHash_witness :
  let w' := snd (Insert env_steady testImage empty_world) in
  fst (HasHash env_steady (Hash testImage) w') = Ok true
  /\ forall other,
       other <> Hash testImage ->
       fst (HasHash env_steady other w')
       = Ok (hash_present other (rows empty_world)).
Proof.
  apply (Insert_then_HasHash env_steady testImage empty_world 1);
    reflexivity.
Defined.




Lemma in_category_In category rs img :
  In img (in_category category rs) <-> In img rs /\ Category img = category.
Proof.
  unfold in_category. rewrite filter_In, String.eqb_eq. reflexivity.
Qed.

Lemma Random_returns_a_matching_row env category w img :
  fst (Random env category w) = inr img ->
  In img (rows w) /\ Category img = category.
Proof.
  intros H. unfold Random in H.
  destruct (db_err env (tick w)); [discriminate |].
  destruct (_ =? 0); [discriminate |].
  cbn [tick advance] in H.
  destruct (db_err env _); [discriminate |].
  destruct (nth_error _ _) as [r |] eqn:Hn; [| discriminate].
  injection H as <-. apply nth_error_In in Hn.
  apply in_category_In. exact Hn.
Qed.

(** X9.  Random never returns an image of another category or one that
    is not in the table; with both queries working it fails exactly when
    the category has no image, with the "no images" error, and otherwise
    returns one. *)
Theorem Random_picks_from_category env category w :
  (forall img, fst (Random env category w) = inr img ->
               In img (rows w) /\ Category img = category)
  /\ (db_err env (tick w) = None ->
      db_err env (2 + tick w) = None ->
      (in_category category (rows w) = []
       -> fst (Random env category w) = inl (NoImages category))
      /\ (in_category category (rows w) <> []
          -> exists img, fst (Random env category w) = inr img)).
Proof.
  split.
  - intros img. apply Random_returns_a_matching_row.
  - intros H1 H2. unfold Random. rewrite H1. cbn [tick advance]. split.
    + intros ->. reflexivity.
    + intros Hne.
      set (matching := in_category category (rows w)) in *.
      assert (Hlen : (0 < length matching)%nat)
        by (destruct matching; [congruence | cbn; lia]).
      replace (Z.of_nat (length matching) =? 0) with false
        by (symmetry; apply Z.eqb_neq; lia).
      change (S (S (tick w))) with (2 + tick w)%nat. rewrite H2.
      pose proof (Z.mod_pos_bound (rand_raw env (S (tick w)))
                    (Z.of_nat (length matching)) ltac:(lia)) as Hb.
      destruct (nth_error matching _) as [img |] eqn:Hn.
      * exists img. reflexivity.
      * apply nth_error_None in Hn. lia.
Qed.

Lemma Random_picks_from_category_witness :
  (in_category "sfw" (rows world_of_three) = []
   -> fst (Random env_steady "sfw" world_of_three) = inl (NoImages "sfw"))
  /\ (in_category "sfw" (rows world_of_three) <> []
      -> exists img, fst (Random env_steady "sfw" world_of_three) = inr img).
Proof.
  apply (proj2 (Random_picks_from_category env_steady "sfw" world_of_three));
    reflexivity.
Defined.

(** The repository's TestRandom on an empty catalog, and a pick. *)
Example TestRandom :
  fst (Random env_steady "sfw" empty_world) = inl (NoImages "sfw")
  /\ fst (Random env_steady "nsfw" world_of_three)
     = inr (row_of 2 "11bb" "nsfw" 5).
Proof. split; reflexivity. Qed.

(** ** package server *)

Lemma strip_prefix_app prefix s : strip_prefix prefix (prefix +:+ s) = Some s.
Proof.
  induction prefix as [| a p IH]; [reflexivity |].
  simpl. rewrite Ascii.eqb_refl. exact IH.
Qed.

Lemma TrimPrefix_app prefix s : strings_TrimPrefix (prefix +:+ s) prefix = s.
Proof. unfold strings_TrimPrefix. rewrite strip_prefix_app. reflexivity. Qed.

Lemma isLowerHex_digit c :
  isLowerHex c = true -> In c (list_ascii_of_string "0123456789abcdef").
Proof.
  destruct c as [[] [] [] [] [] [] [] []]; intros H;
    try discriminate H; cbn; tauto.
Qed.

(** X10.  imageHandler answers 400 to an empty hash and to every hash
    with a character outside 0-9a-f, whatever the file system holds;
    whenever it answers anything else, the hash it put into the Glob
    pattern is non-empty and made of the sixteen lower-case hex digits
    only, so it holds no separator, no dot and no Glob metacharacter. *)
Theorem imageHandler_sanitizes env fs dir path files :
  let hash := strings_TrimPrefix path "/api/image/" in
  (hash = EmptyString \/ all_chars isLowerHex hash = false ->
   forall fs' files',
     reply_status (imageHandler env fs' dir path files') = StatusBadRequest)
  /\ (reply_status (imageHandler env fs dir path files) <> StatusBadRequest ->
      hash <> EmptyString
      /\ Forall (fun c => In c (list_ascii_of_string "0123456789abcdef"))
           (list_ascii_of_string hash)).
Proof.
  cbv zeta. unfold imageHandler.
  set (hash := strings_TrimPrefix path "/api/image/").
  split.
  - intros [-> | Hbad] fs' files'; [reflexivity |].
    destruct (String.eqb hash EmptyString); [reflexivity |].
    rewrite Hbad. reflexivity.
  - destruct (String.eqb hash EmptyString) eqn:He;
      [intros H; exfalso; apply H; reflexivity |].
    destruct (all_chars isLowerHex hash) eqn:Hh;
      [| intros H; exfalso; apply H; reflexivity].
    intros _. split.
    + apply String.eqb_neq. exact He.
    + unfold all_chars in Hh. rewrite forallb_forall in Hh.
      apply List.Forall_forall. intros c Hc.
      apply isLowerHex_digit, Hh, Hc.
Qed.

Lemma imageHandler_sanitizes_witness :
  (forall fs' files',
     reply_status (imageHandler env_steady fs' "/data/images"
                     "/api/image/../catalog.db" files') = StatusBadRequest)
  /\ (let hash := strings_TrimPrefix "/api/image/00aa" "/api/image/" in
      hash <> EmptyString
      /\ Forall (fun c => In c (list_ascii_of_string "0123456789abcdef"))
           (list_ascii_of_string hash)).
Proof.
  split.
  - apply (proj1 (imageHandler_sanitizes env_steady fs_blind "/data/images"
                    "/api/image/../catalog.db" ∅)).
    right. reflexivity.
  - apply (proj2 (imageHandler_sanitizes env_steady fs_blind "/data/images"
                    "/api/image/00aa" ∅)).
    discriminate.
Defined.

Lemma hex_digits_of_byte b :
  isLowerHex (hex_digit (N.div (Byte.to_N b) 16)) = true
  /\ isLowerHex (hex_digit (N.modulo (Byte.to_N b) 16)) = true
  /\ (16 * unhex (hex_digit (N.div (Byte.to_N b) 16))
      + unhex (hex_digit (N.modulo (Byte.to_N b) 16)))%N = Byte.to_N b.
Proof. destruct b; repeat split; reflexivity. Qed.

Lemma hex_EncodeToString_chars src :
  all_chars isLowerHex (hex_EncodeToString src) = true.
Proof.
  unfold all_chars. induction src as [| b rest IH]; [reflexivity |].
  cbn [hex_EncodeToString list_ascii_of_string forallb].
  destruct (hex_digits_of_byte b) as (-> & -> & _). exact IH.
Qed.

Lemma hex_EncodeToString_length src :
  String.length (hex_EncodeToString src) = (2 * length src)%nat.
Proof.
  induction src as [| b rest IH]; [reflexivity |].
  cbn [hex_EncodeToString String.length length]. rewrite IH. lia.
Qed.

Lemma hex_EncodeToString_inj a :
  forall b, hex_EncodeToString a = hex_EncodeToString b -> a = b.
Proof.
  induction a as [| x a IH]; intros [| y b] H; try discriminate H;
    [reflexivity |].
  cbn [hex_EncodeToString] in H. injection H as H1 H2 H3.
  f_equal; [| apply IH, H3].
  destruct (hex_digits_of_byte x) as (_ & _ & Hx).
  destruct (hex_digits_of_byte y) as (_ & _ & Hy).
  rewrite H1, H2, Hy in Hx.
  pose proof (Byte.of_to_N x) as Ex. pose proof (Byte.of_to_N y) as Ey.
  rewrite <- Hx in Ex. congruence.
Qed.

(** X11.  The hash contentHash gives to a download is twice as many
    characters as the digest prefix has bytes (32 for a digest of 16
    bytes or more), all of them lower-case hex digits; so imageHandler
    never rejects the path "/api/image/" + hash of a stored image as
    missing or invalid. *)
Theorem contentHash_is_servable env data :
  (16 <= length (sha256_Sum256 env data))%nat ->
  String.length (contentHash env data) = 32%nat
  /\ all_chars isLowerHex (contentHash env data) = true
  /\ forall fs dir files,
       reply_status (imageHandler env fs dir
                       ("/api/image/" +:+ contentHash env data) files)
       <> StatusBadRequest.
Proof.
  intros Hlen.
  assert (L : String.length (contentHash env data) = 32%nat).
  { unfold contentHash. rewrite hex_EncodeToString_length, length_firstn. lia. }
  assert (C : all_chars isLowerHex (contentHash env data) = true)
    by apply hex_EncodeToString_chars.
  split; [exact L |]. split; [exact C |].
  intros fs dir files. unfold imageHandler. rewrite TrimPrefix_app.
  destruct (String.eqb (contentHash env data) EmptyString) eqn:He.
  { apply String.eqb_eq in He. rewrite He in L. discriminate L. }
  rewrite C. cbn [negb].
  destruct (filepath_Glob fs files _); [discriminate |].
  destruct (os_ReadFile fs files s); discriminate.
Qed.

Lemma contentHash_is_servable_witness :
  let data := repeat x2a 16 in
  String.length (contentHash env_steady data) = 32%nat
  /\ all_chars isLowerHex (contentHash env_steady data) = true
  /\ forall fs dir files,
       reply_status (imageHandler env_steady fs dir
                       ("/api/image/" +:+ contentHash env_steady data) files)
       <> StatusBadRequest.
Proof.
  apply (contentHash_is_servable env_steady (repeat x2a 16)).
  cbn. lia.
Defined.

(** X12.  Two downloads get the same hash, hence the same file name and
    the same catalog key, exactly when the first 16 bytes of their
    digests agree: the hex encoding itself never merges two prefixes. *)
Theorem contentHash_collides_only_on_digest env d1 d2 :
  contentHash env d1 = contentHash env d2
  <-> firstn 16 (sha256_Sum256 env d1) = firstn 16 (sha256_Sum256 env d2).
Proof.
  unfold contentHash. split.
  - apply hex_EncodeToString_inj.
  - intros ->. reflexivity.
Qed.

Lemma category_test category :
  negb (String.eqb category "sfw") && negb (String.eqb category "nsfw") = false
  <-> category = "sfw" \/ category = "nsfw".
Proof.
  destruct (String.eqb_spec category "sfw") as [-> | H1];
    [split; [left; reflexivity | reflexivity] |].
  destruct (String.eqb_spec category "nsfw") as [-> | H2];
    [split; [right; reflexivity | reflexivity] |].
  split; [discriminate | intros [? | ?]; contradiction].
Qed.

(** X13.  randomHandler answers 200, 400 or 503 and nothing else.  It
    answers 400 exactly when the category (with "sfw" standing in for an
    absent one) is neither "sfw" nor "nsfw", and then it has not touched
    the catalog.  When it answers 200 the body describes a row of the
    table that has the requested category: url is "/api/image/" + hash,
    id is the row's file name. *)
Theorem randomHandler_replies env query w :
  let category := effectiveCategory query in
  let run := randomHandler env query w in
  let reply := fst (fst run) in
  In (reply_status reply)
     [StatusOK; StatusBadRequest; StatusServiceUnavailable]
  /\ (reply_status reply = StatusBadRequest
      <-> ~ (category = "sfw" \/ category = "nsfw"))
  /\ (reply_status reply = StatusBadRequest -> snd run = w)
  /\ (reply_status reply = StatusOK ->
      exists img,
        In img (rows w) /\ Category img = category
        /\ reply_body reply
           = RandomJSON {| rr_URL := "/api/image/" +:+ Hash img;
                           rr_ID := Filename img;
                           rr_Width := Width img;
                           rr_Height := Height img;
                           rr_Hash := Hash img |}).
Proof.
  cbv zeta. unfold randomHandler. fold (effectiveCategory query).
  set (category := effectiveCategory query).
  destruct (negb (String.eqb category "sfw")
            && negb (String.eqb category "nsfw")) eqn:Hc.
  - assert (Hbad : ~ (category = "sfw" \/ category = "nsfw")).
    { intros H. apply category_test in H. congruence. }
    cbn [fst snd http_Error reply_status].
    split; [right; left; reflexivity |].
    split; [split; [intros _; exact Hbad | reflexivity] |].
    split; [reflexivity | discriminate].
  - apply category_test in Hc.
    pose proof (Random_returns_a_matching_row env category w) as Hpick.
    destruct (Random env category w) as [[err | img] w'];
      cbn [fst snd http_Error reply_status reply_body] in *.
    + split; [right; right; left; reflexivity |].
      split; [split; [discriminate | contradiction] |].
      split; discriminate.
    + split; [left; reflexivity |].
      split; [split; [discriminate | contradiction] |].
      split; [discriminate |].
      intros _. exists img. destruct (Hpick img eq_refl) as [Hin Hcat].
      split; [exact Hin |]. split; [exact Hcat | reflexivity].
Qed.

Lemma randomHandler_replies_witness :
  let reply := fst (fst (randomHandler env_steady "nsfw" world_of_three)) in
  exists img,
    In img (rows world_of_three) /\ Category img = effectiveCategory "nsfw"
    /\ reply_body reply
       = RandomJSON {| rr_URL := "/api/image/" +:+ Hash img;
                       rr_ID := Filename img;
                       rr_Width := Width img;
                       rr_Height := Height img;
                       rr_Hash := Hash img |}.
Proof.
  apply (proj2 (proj2 (proj2 (randomHandler_replies env_steady "nsfw"
                                world_of_three)))).
  reflexivity.
Defined.

(** The repository's server tests for /api/random. *)
Example TestRandomEndpoint :
  reply_status (fst (fst (randomHandler env_steady "sfw" empty_world))) = 503
  /\ reply_status (fst (fst (randomHandler env_steady "invalid" empty_world)))
     = 400
  /\ reply_body (fst (fst (randomHandler env_steady EmptyString
                             world_of_three)))
     = RandomJSON {| rr_URL := "/api/image/00aa"; rr_ID := "00aa.webp";
                     rr_Width := 480; rr_Height := 680; rr_Hash := "00aa" |}.
Proof. repeat split; reflexivity. Qed.

Lemma scan_or_zero_effect env value w :
  let run := scan_or_zero env value w in
  snd run = advance w
  /\ (fst run = 0 \/ value = Some (fst run))
  /\ (db_err env (tick w) = None ->
      fst run = match value with Some v => v | None => 0 end).
Proof.
  cbv zeta. unfold scan_or_zero. destruct (db_err env (tick w)).
  - cbn. split; [reflexivity |]. split; [left; reflexivity | discriminate].
  - cbn. split; [reflexivity |]. split; [| reflexivity].
    destruct value; [right; reflexivity | left; reflexivity].
Qed.

(** X14.  healthHandler answers 200 with status "ok" in every world: Stats
    drops the error of each of its queries, so the handler's "stats
    error" answer is never given, and a query that failed shows as a
    count of 0.  The counts reported never exceed the rows present; with
    all four queries working they are the numbers of "sfw" and "nsfw"
    rows.  The catalog is left as it was. *)
Theorem healthHandler_is_always_ok env w :
  let run := healthHandler env w in
  let sfw := Z.of_nat (length (in_category "sfw" (rows w))) in
  let nsfw := Z.of_nat (length (in_category "nsfw" (rows w))) in
  reply_status (fst run) = StatusOK
  /\ rows (snd run) = rows w
  /\ exists h,
       reply_body (fst run) = HealthJSON h
       /\ hr_Status h = "ok"
       /\ (hr_SFWCount h = 0 \/ hr_SFWCount h = sfw)
       /\ (hr_NSFWCount h = 0 \/ hr_NSFWCount h = nsfw)
       /\ ((forall k, (k < 4)%nat -> db_err env (k + tick w) = None) ->
           hr_SFWCount h = sfw /\ hr_NSFWCount h = nsfw).
Proof.
  cbv zeta. unfold healthHandler, Stats.
  set (c1 := Some (Z.of_nat (length (in_category "sfw" (rows w))))).
  set (c2 := Some (Z.of_nat (length (in_category "nsfw" (rows w))))).
  destruct (scan_or_zero_effect env c1 w) as (E1 & V1 & X1).
  cbv zeta in E1, V1, X1.
  destruct (scan_or_zero env c1 w) as [sfw w1]. cbn [fst snd] in E1, V1, X1.
  destruct (scan_or_zero_effect env c2 w1) as (E2 & V2 & X2).
  cbv zeta in E2, V2, X2.
  destruct (scan_or_zero env c2 w1) as [nsfw w2]. cbn [fst snd] in E2, V2, X2.
  destruct (scan_or_zero_effect env (sum_size_bytes (rows w)) w2)
    as (E3 & _ & _). cbv zeta in E3.
  destruct (scan_or_zero env (sum_size_bytes (rows w)) w2) as [total w3].
  cbn [fst snd] in E3.
  destruct (scan_or_zero_effect env (Some (max_created_at (rows w))) w3)
    as (E4 & _ & _). cbv zeta in E4.
  destruct (scan_or_zero env (Some (max_created_at (rows w))) w3)
    as [last w4]. cbn [fst snd] in E4.
  cbn [fst snd reply_status reply_body].
  split; [reflexivity |]. split; [subst; reflexivity |].
  eexists. split; [reflexivity |].
  cbn [hr_Status hr_SFWCount hr_NSFWCount SFWCount NSFWCount].
  split; [reflexivity |].
  split; [destruct V1 as [-> | [= <-]]; auto |].
  split; [destruct V2 as [-> | [= <-]]; auto |].
  intros Hdb. split.
  - apply X1. apply (Hdb 0%nat). lia.
  - apply X2. subst w1. apply (Hdb 1%nat). lia.
Qed.

Lemma healthHandler_is_always_ok_witness :
  exists h,
    reply_body (fst (healthHandler env_steady world_of_three)) = HealthJSON h
    /\ hr_SFWCount h = 2 /\ hr_NSFWCount h = 1.
Proof.
  destruct (healthHandler_is_always_ok env_steady world_of_three)
    as (_ & _ & h & Hb & _ & _ & _ & Hexact).
  exists h. split; [exact Hb |]. apply Hexact. intros k _. reflexivity.
Defined.

(** Every query fails and the health check still says "ok", with zeros. *)
Example health_with_the_database_down :
  reply_status (fst (healthHandler env_db_down world_of_three)) = 200
  /\ exists mb,
       reply_body (fst (healthHandler env_db_down world_of_three))
       = HealthJSON {| hr_Status := "ok"; hr_SFWCount := 0;
                       hr_NSFWCount := 0; hr_TotalMB := mb |}.
Proof. split; [reflexivity |]. eexists. reflexivity. Qed.

(** The repository's TestStats. *)
Example TestStats :
  let w := {| tick := 0%nat; trace := []; files := ∅;
              rows := [ row_of 1 "asfw" "sfw" 1000; row_of 2 "bsfw" "sfw" 1000;
                        row_of 3 "csfw" "sfw" 1000;
                        row_of 4 "ansfw" "nsfw" 2000;
                        row_of 5 "bnsfw" "nsfw" 2000 ];
              db_seq := 5; last_rowid := 5 |} in
  exists last,
    fst (Stats env_steady w)
    = Ok {| SFWCount := 3; NSFWCount := 2; TotalBytes := 7000;
            LastIngest := last |}.
Proof. eexists. reflexivity. Qed.

(** ** What a whole cycle keeps *)

Section CycleInvariant.
Variables (env : Env) (ing : Ingester).
Variable R : World -> World -> Prop.
Hypothesis R_trans : forall a b c, R a b -> R b c -> R a c.
Hypothesis R_frame : forall w w', same_store w w' -> R w w'.
Hypothesis R_process :
  forall srcURL source category origW origH w,
    R w (snd (processImage env ing srcURL source category origW origH w)).

Lemma candidate_related srcURL source category origW origH w :
  R w (snd (catch (processImage env ing srcURL source category origW origH)
              (fun e => exec log_Printf (LogProcess srcURL e) ;; ret 0) w)).
Proof.
  unfold catch.
  pose proof (R_process srcURL source category origW origH w) as H.
  destruct (processImage env ing srcURL source category origW origH w)
    as [[n | e |] w1]; cbn [snd] in *; try exact H.
  eapply R_trans; [exact H |]. apply R_frame. repeat split.
Qed.

Lemma processItems_related category items :
  forall count w, R w (snd (processItems env ing category items count w)).
Proof.
  induction items as [| img rest IH]; intros count w; cbn [processItems].
  - apply R_frame. repeat split.
  - unfold bind at 1.
    pose proof (candidate_related (URL img) "waifu.im" category
                  (ItemWidth img) (ItemHeight img) w) as H.
    destruct (catch _ _ w) as [[n | e |] w1]; cbn [snd] in *;
      try exact H.
    eapply R_trans; [exact H | apply IH].
Qed.

Lemma processFiles_related category urls :
  forall count w, R w (snd (processFiles env ing category urls count w)).
Proof.
  induction urls as [| url rest IH]; intros count w; cbn [processFiles].
  - apply R_frame. repeat split.
  - unfold bind at 1.
    pose proof (candidate_related url "waifu.pics" category 0 0 w) as H.
    destruct (catch _ _ w) as [[n | e |] w1]; cbn [snd] in *;
      try exact H.
    eapply R_trans; [exact H | apply IH].
Qed.

Lemma fetchWithRetry_same_store method url reqBody source limiter w :
  same_store w (snd (fetchWithRetry env method url reqBody source limiter w)).
Proof.
  assert (H : steps any_event w
                (snd (fetchWithRetry env method url reqBody source limiter w)))
    by (apply confined_fetchWithRetry; intros; exact I).
  apply steps_store in H. exact H.
Qed.

Lemma ingestWaifuIm_related category w :
  R w (snd (ingestWaifuIm env ing category w)).
Proof.
  unfold ingestWaifuIm. cbv zeta.
  set (url := waifuImSearchURL +:+ _).
  unfold bind at 1. unfold limiter_Wait at 1.
  destruct (limiter_err env (tick w) WaifuImLimiter);
    [apply R_frame; repeat split |].
  fold (granted WaifuImLimiter w). unfold bind at 1.
  pose proof (fetchWithRetry_same_store MethodGet url None "waifu.im"
                WaifuImLimiter (granted WaifuImLimiter w)) as Hs.
  destruct (fetchWithRetry env MethodGet url None "waifu.im" WaifuImLimiter
              (granted WaifuImLimiter w)) as [[body | e |] w1];
    cbn [snd] in *; try (apply R_frame; exact Hs).
  destruct (json_Items env body) as [items |];
    [| apply R_frame; exact Hs].
  eapply R_trans; [apply R_frame; exact Hs | apply processItems_related].
Qed.

Lemma ingestWaifuPics_related apiURL category w :
  R w (snd (ingestWaifuPics env ing apiURL category w)).
Proof.
  unfold ingestWaifuPics.
  unfold bind at 1. unfold limiter_Wait at 1.
  destruct (limiter_err env (tick w) WaifuPicsLimiter);
    [apply R_frame; repeat split |].
  fold (granted WaifuPicsLimiter w). unfold bind at 1.
  pose proof (fetchWithRetry_same_store MethodPost apiURL (Some picsReqBody)
                "waifu.pics" WaifuPicsLimiter (granted WaifuPicsLimiter w))
    as Hs.
  destruct (fetchWithRetry env MethodPost apiURL (Some picsReqBody)
              "waifu.pics" WaifuPicsLimiter (granted WaifuPicsLimiter w))
    as [[body | e |] w1];
    cbn [snd] in *; try (apply R_frame; exact Hs).
  destruct (json_Files env body) as [urls |];
    [| apply R_frame; exact Hs].
  eapply R_trans; [apply R_frame; exact Hs | apply processFiles_related].
Qed.

Lemma afterAdapter_related what (run : Result Z * World) w :
  R w (snd run) -> R w (afterAdapter what run).
Proof.
  intros H. unfold afterAdapter. destruct (fst run); try exact H.
  eapply R_trans; [exact H |]. apply R_frame. repeat split.
Qed.

Lemma Run_related w : R w (snd (Run env ing w)).
Proof.
  rewrite Run_chain. cbn [snd].
  apply afterAdapter_related.
  eapply R_trans; [| apply ingestWaifuPics_related].
  apply afterAdapter_related.
  eapply R_trans; [| apply ingestWaifuPics_related].
  apply afterAdapter_related.
  eapply R_trans; [| apply ingestWaifuIm_related].
  apply afterAdapter_related.
  apply ingestWaifuIm_related.
Qed.
End CycleInvariant.



Lemma record_fields env srcURL source category origW origH data :
  let r := record env srcURL source category origW origH data in
  Hash r = contentHash env data
  /\ Filename r = contentHash env data +:+ ".webp"
  /\ Format r = "webp".
Proof.
  cbv zeta. unfold record, imageName.
  destruct (chosen env data origW origH) as [[o wd] ht]. cbn. auto.
Qed.

Lemma processImage_appended env ing srcURL source category origW origH w :
  appended w (snd (processImage env ing srcURL source category origW origH w)).
Proof.
  pose proof (processImage_outcome env ing srcURL source category origW origH w)
    as H. cbv zeta in H.
  destruct (processImage env ing srcURL source category origW origH w)
    as [r w'].
  cbn [fst snd] in *.
  inversion H; subst;
    try match goal with
    | Hdl : downloadImage _ _ _ = _ |- _ =>
      destruct (downloadImage_frame _ _ _ _ _ Hdl) as (_ & Hr & _);
      cbn [granted emit advance rows] in Hr
    end;
    try (exists []; split; [| constructor];
         cbn [advance rolledBack written emit set_files rows];
         rewrite ?Hr, app_nil_r; reflexivity).
  eexists. cbn [inserted written emit set_files advance rows]. rewrite Hr.
  split; [reflexivity |]. constructor; [| constructor].
  destruct (record_fields env srcURL source category origW origH data)
    as (Hh & Hn & Hfmt).
  cbn [stored Format Filename Hash]. rewrite Hfmt, Hn, Hh. auto.
Qed.

Lemma appended_trans a b c : appended a b -> appended b c -> appended a c.
Proof.
  intros (n1 & H1 & F1) (n2 & H2 & F2). exists (n1 ++ n2). split.
  - rewrite H2, H1, app_assoc. reflexivity.
  - apply Forall_app. split; assumption.
Qed.

Lemma appended_frame w w' : same_store w w' -> appended w w'.
Proof.
  intros (_ & Hr & _). exists []. split; [| constructor].
  rewrite Hr, app_nil_r. reflexivity.
Qed.

(** X15.  A cycle only appends to the catalog, whatever the upstreams,
    the disk and SQLite do: after Run the table is the table before
    followed by new rows, no earlier row is removed or changed, and every
    new row is tagged "webp" and named [hash].webp. *)
Theorem Run_only_appends env ing w : appended w (snd (Run env ing w)).
Proof.
  apply Run_related.
  - apply appended_trans.
  - apply appended_frame.
  - apply processImage_appended.
Qed.












(** ** How much an adapter can count *)

Lemma processImage_zero_or_one env ing srcURL source category origW origH w :
  let r := fst (processImage env ing srcURL source category origW origH w) in
  r = Ok 0 \/ r = Ok 1 \/ exists e, r = Err e.
Proof.
  cbv zeta.
  pose proof (processImage_outcome env ing srcURL source category origW origH w)
    as H. cbv zeta in H.
  destruct (processImage env ing srcURL source category origW origH w)
    as [r w'].
  cbn [fst snd] in *. inversion H; subst; eauto.
Qed.

Lemma candidate_zero_or_one env ing srcURL source category origW origH w :
  let r := fst (catch (processImage env ing srcURL source category origW origH)
                  (fun e => exec log_Printf (LogProcess srcURL e) ;; ret 0)
                  w) in
  r = Ok 0 \/ r = Ok 1.
Proof.
  cbv zeta. unfold catch.
  destruct (processImage_zero_or_one env ing srcURL source category origW
              origH w) as [H | [H | [e H]]]; cbv zeta in H;
    destruct (processImage env ing srcURL source category origW origH w)
      as [r w1]; cbn [fst] in H; subst r; cbn; auto.
Qed.

(** X18.  An adapter's candidate loop never fails and never counts a
    candidate twice: it returns the count it started from plus at most
    one for every candidate on the list, and exactly the starting count
    for an empty list. *)
Theorem candidate_loops_count_at_most_once env ing category count w :
  (forall items,
     exists n,
       fst (processItems env ing category items count w) = Ok n
       /\ count <= n <= count + Z.of_nat (length items))
  /\ (forall urls,
        exists n,
          fst (processFiles env ing category urls count w) = Ok n
          /\ count <= n <= count + Z.of_nat (length urls)).
Proof.
  split.
  - intros items. revert count w.
    induction items as [| img rest IH]; intros count w; cbn [processItems].
    + exists count. cbn. split; [reflexivity | lia].
    + unfold bind at 1.
      pose proof (candidate_zero_or_one env ing (URL img) "waifu.im" category
                    (ItemWidth img) (ItemHeight img) w) as H. cbv zeta in H.
      destruct (catch _ _ w) as [r w1]. cbn [fst] in H.
      destruct H as [-> | ->].
      * destruct (IH (count + 0) w1) as [n [Hn Hb]].
        exists n. split; [exact Hn |]. cbn [length]. lia.
      * destruct (IH (count + 1) w1) as [n [Hn Hb]].
        exists n. split; [exact Hn |]. cbn [length]. lia.
  - intros urls. revert count w.
    induction urls as [| url rest IH]; intros count w; cbn [processFiles].
    + exists count. cbn. split; [reflexivity | lia].
    + unfold bind at 1.
      pose proof (candidate_zero_or_one env ing url "waifu.pics" category
                    0 0 w) as H. cbv zeta in H.
      destruct (catch _ _ w) as [r w1]. cbn [fst] in H.
      destruct H as [-> | ->].
      * destruct (IH (count + 0) w1) as [n [Hn Hb]].
        exists n. split; [exact Hn |]. cbn [length]. lia.
      * destruct (IH (count + 1) w1) as [n [Hn Hb]].
        exists n. split; [exact Hn |]. cbn [length]. lia.
Qed.

(** ** A candidate that is never downloaded *)

(** X19.  When the download token is refused or downloadImage fails (a
    cancelled context, a 404, three failed attempts), processImage
    returns an error and has touched neither the image directory nor the
    catalog: no file is written or removed and files, rows and row
    counters are what they were. *)
Theorem processImage_without_download_changes_nothing env ing srcURL source
    category origW origH w :
  limiter_err env (tick w) DownloadLimiter <> None
  \/ is_Ok (fst (downloadImage env srcURL (granted DownloadLimiter w))) = false ->
  let run := processImage env ing srcURL source category origW origH w in
  is_Err (fst run) = true
  /\ same_store w (snd run)
  /\ exists new, trace (snd run) = new ++ trace w /\ Forall no_disk new.
Proof.
  intros Hpre. cbv zeta.
  pose proof (processImage_outcome env ing srcURL source category origW origH w)
    as H. cbv zeta in H.
  destruct (processImage env ing srcURL source category origW origH w)
    as [r w'].
  cbn [fst snd] in *.
  inversion H; subst;
    try match goal with
    | Hdl : downloadImage _ _ _ = _ |- _ =>
      rewrite Hdl in Hpre; cbn [fst is_Ok] in Hpre;
      try (destruct Hpre; congruence)
    end.
  - split; [reflexivity |]. split; [repeat split |].
    exists []. split; [reflexivity | constructor].
  - match goal with
    | Hdl : downloadImage _ _ _ = _ |- _ =>
      assert (Hst : steps no_disk (granted DownloadLimiter w) w')
        by (replace w' with (snd (downloadImage env srcURL
                                    (granted DownloadLimiter w)))
              by (rewrite Hdl; reflexivity);
            apply confined_downloadImage; intros; reflexivity)
    end.
    split; [reflexivity |]. split.
    + apply steps_store in Hst. exact Hst.
    + apply steps_trace in Hst as [new [E F]].
      exists (new ++ [EvToken DownloadLimiter]). split.
      * rewrite E. cbn [granted emit advance trace].
        rewrite <- app_assoc. reflexivity.
      * apply Forall_app. split; [exact F |].
        constructor; [reflexivity | constructor].
Qed.

Lemma processImage_without_download_changes_nothing_witness :
  let run := processImage env_404 testIngester testURL "waifu.pics" "sfw"
               0 0 empty_world in
  is_Err (fst run) = true
  /\ same_store empty_world (snd run)
  /\ exists new,
       trace (snd run) = new ++ trace empty_world /\ Forall no_disk new.
Proof.
  apply (processImage_without_download_changes_nothing env_404 testIngester
           testURL "waifu.pics" "sfw" 0 0 empty_world).
  right. reflexivity.
Defined.
